(** * The name-challenge scorer ([scripts/score.ts]) as a shallow embedding

    JavaScript strings are modelled as [string] (one [ascii] per code unit,
    so the code units below 256), JavaScript numbers that hold computed
    metrics and timings as primitive binary64 [float]s, which is the
    number type of the language, and array lengths and the counters that
    are sums of array lengths as [nat].  [Set] and [Map] objects keyed by
    strings are [gset string] and [gmap string _]. *)

From Stdlib Require Import ZArith Floats Uint63 Ascii String List Lia.
From Stdlib Require Import Permutation Sorted.
From stdpp Require Import base option list gmap strings pretty.

Set Warnings "-inexact-float,-clear-no-such-hyp,-register-all".
Local Open Scope string_scope.

(** ** Strings: [String.prototype.trim] *)

Module JsString.

(** White space and line terminators of the language among the code
    units below 256: TAB, LF, VT, FF, CR, SP and NBSP. *)
Definition is_white_space (c : ascii) : bool :=
  let n := nat_of_ascii c in
  (Nat.leb 9 n && Nat.leb n 13) || Nat.eqb n 32 || Nat.eqb n 160.

Fixpoint trimStart (s : string) : string :=
  match s with
  | EmptyString => EmptyString
  | String c s' => if is_white_space c then trimStart s' else s
  end.

Fixpoint trimEnd (s : string) : string :=
  match s with
  | EmptyString => EmptyString
  | String c s' =>
      match trimEnd s' with
      | EmptyString => if is_white_space c then EmptyString else String c EmptyString
      | t => String c t
      end
  end.

Definition trim (s : string) : string := trimEnd (trimStart s).

(** Truthiness of a string: only the empty string is falsy. *)
Definition truthy (s : string) : bool :=
  match s with EmptyString => false | _ => true end.

Lemma truthy_spec s : truthy s = true <-> s <> "".
Proof. destruct s; simpl; split; congruence. Qed.

End JsString.

(** ** Numbers: the binary64 operations the scorer uses *)

Module JsNumber.

Local Open Scope float_scope.

(** An array length or a counter, as the number that holds it. *)
Definition Num (n : nat) : float := of_uint63 (Uint63.of_Z (Z.of_nat n)).

(** [Math.max] and [Math.min] of two numbers: NaN is contagious and
    [+0] is larger than [-0]. *)
Definition Math_max (a b : float) : float :=
  if is_nan a || is_nan b then nan
  else if a <? b then b
  else if b <? a then a
  else if get_sign a then b else a.

Definition Math_min (a b : float) : float :=
  if is_nan a || is_nan b then nan
  else if a <? b then a
  else if b <? a then b
  else if get_sign a then a else b.

(** [Math.floor], on the specification side of the number. *)
Definition SFfloor (x : spec_float) : spec_float :=
  match x with
  | S754_finite s m e =>
      if (0 <=? e)%Z then x
      else
        let q := Z.shiftr (Zpos m) (- e) in
        let exact := (Z.shiftl q (- e) =? Zpos m)%Z in
        if s then binary_normalize prec emax (- (if exact then q else q + 1)) 0 true
        else binary_normalize prec emax q 0 false
  | _ => x
  end.

Definition Math_floor (x : float) : float := SF2Prim (SFfloor (Prim2SF x)).

(** The array index a number denotes when used as a property key:
    a non-negative integer; any other number is no index. *)
Definition array_index (i : float) : option Z :=
  match Prim2SF i with
  | S754_zero _ => Some 0%Z
  | S754_finite false m e =>
      if (0 <=? e)%Z then Some (Z.shiftl (Zpos m) e)
      else
        let q := Z.shiftr (Zpos m) (- e) in
        if (Z.shiftl q (- e) =? Zpos m)%Z then Some q else None
  | _ => None
  end.

(** [arr[i]]: [None] stands for [undefined]. *)
Definition array_get {A} (arr : list A) (i : float) : option A :=
  match array_index i with
  | Some z => if (z <? Z.of_nat (length arr))%Z then nth_error arr (Z.to_nat z) else None
  | None => None
  end.

(** [Array.prototype.sort] with a comparison function: a stable sort,
    where [x] goes after [y] exactly when [compareFn x y > 0] (a NaN
    result counts as [+0]). *)
Fixpoint sort_insert (compareFn : float -> float -> float) (x : float) (l : list float)
  : list float :=
  match l with
  | [] => [x]
  | y :: l' => if 0 <? compareFn x y then y :: sort_insert compareFn x l' else x :: l
  end.

Definition Array_sort (compareFn : float -> float -> float) (l : list float) : list float :=
  foldr (sort_insert compareFn) [] l.

(** A finite number: neither NaN nor an infinity. *)
Definition finite (x : float) : bool := negb (is_nan x) && negb (is_infinity x).

Example Math_floor_095 : Math_floor 0.95 = 0.
Proof. reflexivity. Qed.
Example Math_floor_25 : Math_floor 2.5 = 2.
Proof. reflexivity. Qed.
Example Math_floor_neg25 : Math_floor (-2.5) = (-3).
Proof. reflexivity. Qed.
Example Math_floor_neg0 : Math_floor (-0) = (-0).
Proof. reflexivity. Qed.
Example Math_max_zeros : Math_max (-0) 0 = 0 /\ Math_max 0 (-0) = 0.
Proof. split; reflexivity. Qed.
Example Math_min_zeros : Math_min (-0) 0 = (-0) /\ Math_min 0 (-0) = (-0).
Proof. split; reflexivity. Qed.
Example Math_max_nan : Math_max 0 nan = nan.
Proof. reflexivity. Qed.
Example array_index_3 : array_index 3 = Some 3%Z /\ array_index 2.5 = None /\ array_index (-1) = None.
Proof. repeat split; reflexivity. Qed.
Example Array_sort_ex : Array_sort PrimFloat.sub [3; 1; 2.5; 1] = [1; 1; 2.5; 3].
Proof. reflexivity. Qed.

End JsNumber.

(** ** The scorer *)

Module Scorer.

Import JsString JsNumber.

(** *** Data model *)

Inductive DatasetName := small | large.

Definition DatasetName_eqb (a b : DatasetName) : bool :=
  match a, b with
  | small, small | large, large => true
  | _, _ => false
  end.

Definition DatasetName_string (d : DatasetName) : string :=
  match d with small => "small" | large => "large" end.

Record RecordRow := { row_id : string; row_name : string }.

Record TestCase := {
  case_id : string;
  case_dataset : DatasetName;
  query : string;
  expectedIds : list string;
  falsePositiveIds : list string;
  tags : list string;
  notes : string;
}.

Record TestSuite := {
  suite_name : string;
  suite_dataset : DatasetName;
  seed : Z;
  cases : list TestCase;
}.

Record Args := {
  dataset : DatasetName;
  suitePath : string;
  verbose : bool;
  timeoutMs : Z;
}.

Definition PENALTY_LISTED_FP : float := 0.02%float.
Definition PENALTY_UNEXPECTED_EXTRA : float := 0.05%float.

(** [Array.prototype.includes] on an array of strings. *)
Definition Array_includes (arr : list string) (x : string) : bool :=
  existsb (String.eqb x) arr.

(** [new Set(arr)] and [set.has(x)]. *)
Definition Set_new (arr : list string) : gset string :=
  fold_left (fun s x => {[ x ]} ∪ s) arr ∅.

Definition Set_has (s : gset string) (x : string) : bool := bool_decide (x ∈ s).

(** [new Map(entries)]: a later entry replaces an earlier one with the
    same key; and [map.has(k)]. *)
Definition Map_new {V} (entries : list (string * V)) : gmap string V :=
  fold_left (fun m kv => <[ fst kv := snd kv ]> m) entries ∅.

Definition Map_has {V} (m : gmap string V) (k : string) : bool :=
  match m !! k with Some _ => true | None => false end.

(** [new Map(rows.map((row) => [row.id, row]))] *)
Definition index_rows (rows : list RecordRow) : gmap string RecordRow :=
  Map_new (map (fun row => (row_id row, row)) rows).

(** *** [percentile] *)

Definition percentile (values : list float) (pct : float) : float :=
  match values with
  | [] => 0%float
  | _ =>
      let sorted := Array_sort (fun a b => a - b)%float values in
      let idx := Math_floor ((Num (length sorted) - 1) * pct)%float in
      match array_get sorted idx with
      | Some v => v
      | None => 0%float
      end
  end.

(** *** The effects of [main]

    [main] calls into the candidate and may throw; the calls it makes
    are recorded in order. *)

Inductive Event :=
| SetupCalled (datasetPath : string)
| SearchCalled (query : string)
| CleanupCalled.

Record World (S : Type) := { candidate_state : S; calls : list Event }.
Arguments candidate_state {S} _.
Arguments calls {S} _.

Inductive Outcome (A : Type) :=
| Returned (a : A)
| Threw (message : string).
Arguments Returned {A} a.
Arguments Threw {A} message.

Definition Run (S A : Type) : Type := World S -> World S * Outcome A.

Definition ret {S A} (a : A) : Run S A := fun w => (w, Returned a).

Definition throw {S A} (message : string) : Run S A := fun w => (w, Threw message).

Definition bind {S A B} (m : Run S A) (k : A -> Run S B) : Run S B :=
  fun w =>
    match m w with
    | (w', Returned a) => k a w'
    | (w', Threw message) => (w', Threw message)
    end.

Definition lift {S A} (o : Outcome A) : Run S A := fun w => (w, o).

Notation "'let!' x ':=' m 'in' k" := (bind m (fun x => k))
  (at level 10, x name, m at level 100, k at level 200).
Notation "'do!' m 'in' k" := (bind m (fun _ => k))
  (at level 10, m at level 100, k at level 200).

(** [for (const x of xs) body], threading the variables the body updates. *)
Fixpoint for_of {S A St} (xs : list A) (body : St -> A -> Run S St) (st : St) : Run S St :=
  match xs with
  | [] => ret st
  | x :: xs' => let! st' := body st x in for_of xs' body st'
  end.

(** The files and paths [main] reads: [resolve], the parsed suite file
    ([Bun.file(path).json()]) and [loadDataset]. *)
Record Env := {
  resolve : string -> string;
  read_suite : string -> Outcome TestSuite;
  loadDataset : string -> Outcome (list RecordRow);
}.

Section Candidate.

(** Values of type [unknown], with the two built-ins [toUniqueIds]
    applies to them: [elements raw] is [Some l] when
    [Array.isArray(raw)] holds, [l] being the values its iteration
    yields, and [ToString] is the conversion [String(value)]. *)
Context {unknown : Type}.
Variable elements : unknown -> option (list unknown).
Variable ToString : unknown -> string.

(** *** [toUniqueIds] *)

Definition toUniqueIds_step (acc : list string * gset string) (value : unknown)
  : list string * gset string :=
  let '(out, seen) := acc in
  let id := trim (ToString value) in
  if negb (truthy id) || Set_has seen id then (out, seen)
  else ((out ++ [id])%list, {[ id ]} ∪ seen).

Definition toUniqueIds (raw : unknown) : list string :=
  match elements raw with
  | None => []
  | Some values => fst (fold_left toUniqueIds_step values ([], ∅))
  end.

(** *** The candidate and [withTimeout] *)

(** What a [catch] clause receives: an [Error] object with its
    message, or any other value. *)
Inductive Thrown :=
| ErrorObject (message : string)
| ThrownValue (v : unknown).

(** [error instanceof Error ? error.message : String(error)] *)
Definition error_text (error : Thrown) : string :=
  match error with
  | ErrorObject message => message
  | ThrownValue v => ToString v
  end.

Inductive Settlement (T : Type) :=
| Fulfilled (v : T)
| Rejected (error : Thrown).
Arguments Fulfilled {T} v.
Arguments Rejected {T} error.

(** A promise as the race with the timer sees it: it settles before
    the timer fires, or it is still pending when the timer fires
    (whether it settles later or never). *)
Inductive Promise (T : Type) :=
| SettlesFirst (s : Settlement T)
| StillPending.
Arguments SettlesFirst {T} s.
Arguments StillPending {T}.

Definition timeout_message (timeoutMs : Z) : string :=
  "search timed out after " ++ pretty timeoutMs ++ "ms".

Definition withTimeout {T} (promise : Promise T) (timeoutMs : Z) : Settlement T :=
  match promise with
  | SettlesFirst s => s
  | StillPending => Rejected (ErrorObject (timeout_message timeoutMs))
  end.

(** The call [search(query)] itself: it throws, or returns a promise. *)
Inductive SearchCall :=
| Throws (error : Thrown)
| Returns (promise : Promise unknown).

(** One call of [search] as the scorer observes it, with the time
    [performance.now() - start] measured around it. *)
Record Observation := { call : SearchCall; elapsed : float }.

(** The module [../submission/search]: [setup] and [cleanup] may be
    missing; a lifecycle call may throw.  [S] is the candidate's own
    state. *)
Record Submission (S : Type) := {
  setup : option (string -> S -> S * option Thrown);
  search : string -> S -> S * Observation;
  cleanup : option (S -> S * option Thrown);
}.
Arguments setup {S} _.
Arguments search {S} _.
Arguments cleanup {S} _.

(** *** The loop body *)

(** The [try]/[catch] around the search: the returned ids and the
    runtime error. *)
Definition attempt (c : SearchCall) (timeoutMs : Z) : list string * option string :=
  match c with
  | Throws error => ([], Some (error_text error))
  | Returns promise =>
      match withTimeout promise timeoutMs with
      | Fulfilled raw => (toUniqueIds raw, None)
      | Rejected error => ([], Some (error_text error))
      end
  end.

Record CaseReport := {
  returnedIds : list string;
  runtimeError : option string;
  elapsedMs : float;
  hitIds : list string;
  missingIds : list string;
  fpHits : list string;
  invalidIds : list string;
  extrasUnscored : list string;
  pass : bool;
}.

Definition is_null (e : option string) : bool :=
  match e with None => true | Some _ => false end.

Definition evaluate (byId : gmap string RecordRow) (timeoutMs : Z)
    (testCase : TestCase) (obs : Observation) : CaseReport :=
  let expectedSet := Set_new (expectedIds testCase) in
  let fpSet := Set_new (falsePositiveIds testCase) in
  let '(returnedIds, runtimeError) := attempt (call obs) timeoutMs in
  let hitIds := List.filter (fun id => Array_includes returnedIds id) (expectedIds testCase) in
  let missingIds :=
    List.filter (fun id => negb (Array_includes returnedIds id)) (expectedIds testCase) in
  let fpHits := List.filter (fun id => Set_has fpSet id) returnedIds in
  let invalidIds := List.filter (fun id => negb (Map_has byId id)) returnedIds in
  let extrasUnscored :=
    List.filter
      (fun id => Map_has byId id && negb (Set_has expectedSet id) && negb (Set_has fpSet id))
      returnedIds in
  let pass :=
    Nat.eqb (length missingIds) 0
    && Nat.eqb (length fpHits) 0
    && Nat.eqb (length extrasUnscored) 0
    && Nat.eqb (length invalidIds) 0
    && is_null runtimeError in
  {| returnedIds := returnedIds; runtimeError := runtimeError; elapsedMs := elapsed obs;
     hitIds := hitIds; missingIds := missingIds; fpHits := fpHits;
     invalidIds := invalidIds; extrasUnscored := extrasUnscored; pass := pass |}.

(** The variables the loop updates. *)
Record Counters := {
  expectedTotal : nat;
  expectedHits : nat;
  listedFalsePositiveCount : nat;
  unexpectedExtraCount : nat;
  invalidIdCount : nat;
  returnedTotal : nat;
  passCases : nat;
  timesMs : list float;
}.

Definition Counters_init : Counters :=
  {| expectedTotal := 0; expectedHits := 0; listedFalsePositiveCount := 0;
     unexpectedExtraCount := 0; invalidIdCount := 0; returnedTotal := 0;
     passCases := 0; timesMs := [] |}.

Definition accumulate (c : Counters) (testCase : TestCase) (r : CaseReport) : Counters :=
  {| expectedTotal := expectedTotal c + length (expectedIds testCase);
     expectedHits := expectedHits c + length (hitIds r);
     listedFalsePositiveCount := listedFalsePositiveCount c + length (fpHits r);
     unexpectedExtraCount := unexpectedExtraCount c + length (extrasUnscored r);
     invalidIdCount := invalidIdCount c + length (invalidIds r);
     returnedTotal := returnedTotal c + length (returnedIds r);
     passCases := if pass r then passCases c + 1 else passCases c;
     timesMs := (timesMs c ++ [elapsedMs r])%list |}.

(** *** Finalisation *)

Record Summary := {
  counters : Counters;
  reports : list CaseReport;
  recall : float;
  precision : float;
  f1 : float;
  penaltyPoints : float;
  scoreRaw : float;
  scoreClamped : float;
  score : float;
  totalMs : float;
  avgMs : float;
  p95Ms : float;
  qps : float;
  passRate : float;
}.

Definition finalize (c : Counters) (rs : list CaseReport) (caseCount : nat) : Summary :=
  (let recall :=
    if Nat.eqb (expectedTotal c) 0 then 100
    else (Num (expectedHits c) / Num (expectedTotal c)) * 100 in
  let precision :=
    if Nat.eqb (returnedTotal c) 0 then 0
    else (Num (expectedHits c) / Num (returnedTotal c)) * 100 in
  let f1 :=
    if (recall + precision) =? 0 then 0
    else (2 * recall * precision) / (recall + precision) in
  let penaltyPoints :=
    (Num (listedFalsePositiveCount c) * PENALTY_LISTED_FP)
    + (Num (unexpectedExtraCount c) * PENALTY_UNEXPECTED_EXTRA) in
  let scoreRaw := recall - penaltyPoints in
  let scoreClamped := Math_max 0 (Math_min 100 scoreRaw) in
  let score := if Nat.ltb 0 (invalidIdCount c) then 0 else scoreClamped in
  let totalMs := fold_left (fun sum ms => sum + ms) (timesMs c) 0 in
  let avgMs := totalMs / Math_max 1 (Num (length (timesMs c))) in
  let p95Ms := percentile (timesMs c) 0.95 in
  let qps := if totalMs =? 0 then 0 else (Num caseCount / totalMs) * 1000 in
  let passRate :=
    if Nat.eqb caseCount 0 then 100 else (Num (passCases c) / Num caseCount) * 100 in
  {| counters := c; reports := rs; recall := recall; precision := precision; f1 := f1;
     penaltyPoints := penaltyPoints; scoreRaw := scoreRaw; scoreClamped := scoreClamped;
     score := score; totalMs := totalMs; avgMs := avgMs; p95Ms := p95Ms; qps := qps;
     passRate := passRate |})%float.

(** *** [main] *)

Section Main.

Context {S : Type}.
Variable submission : Submission S.

Definition call_setup (datasetPath : string) : Run S unit :=
  match setup submission with
  | None => ret tt
  | Some f => fun w =>
      let '(s', thrown) := f datasetPath (candidate_state w) in
      let w' := {| candidate_state := s';
                   calls := (calls w ++ [SetupCalled datasetPath])%list |} in
      match thrown with
      | None => (w', Returned tt)
      | Some error => (w', Threw (error_text error))
      end
  end.

Definition call_search (q : string) : Run S Observation :=
  fun w =>
    let '(s', obs) := search submission q (candidate_state w) in
    ({| candidate_state := s'; calls := (calls w ++ [SearchCalled q])%list |},
     Returned obs).

Definition call_cleanup : Run S unit :=
  match cleanup submission with
  | None => ret tt
  | Some f => fun w =>
      let '(s', thrown) := f (candidate_state w) in
      let w' := {| candidate_state := s'; calls := (calls w ++ [CleanupCalled])%list |} in
      match thrown with
      | None => (w', Returned tt)
      | Some error => (w', Threw (error_text error))
      end
  end.

Definition loop_body (byId : gmap string RecordRow) (timeoutMs : Z)
    (st : Counters * list CaseReport) (testCase : TestCase)
  : Run S (Counters * list CaseReport) :=
  let! obs := call_search (query testCase) in
  let r := evaluate byId timeoutMs testCase obs in
  ret (accumulate (fst st) testCase r, (snd st ++ [r])%list).

Definition mismatch_message (suite : TestSuite) (args : Args) : string :=
  "Suite dataset mismatch: suite=" ++ DatasetName_string (suite_dataset suite)
  ++ ", arg=" ++ DatasetName_string (dataset args).

Definition main (args : Args) (env : Env) : Run S Summary :=
  let datasetPath :=
    resolve env ("data/datasets/" ++ DatasetName_string (dataset args) ++ "/names.csv") in
  let! suite := lift (read_suite env (suitePath args)) in
  if negb (DatasetName_eqb (suite_dataset suite) (dataset args))
  then throw (mismatch_message suite args)
  else
    let! rows := lift (loadDataset env datasetPath) in
    let byId := index_rows rows in
    do! call_setup datasetPath in
    let! st := for_of (cases suite) (loop_body byId (timeoutMs args)) (Counters_init, []) in
    do! call_cleanup in
    ret (finalize (fst st) (snd st) (length (cases suite))).

(** A run from a candidate state, with no call made yet. *)
Definition run (args : Args) (env : Env) (s0 : S) : World S * Outcome Summary :=
  main args env {| candidate_state := s0; calls := [] |}.

End Main.

(** *** Normalisation, in the words of the specification *)

(** Remove duplicates, keeping the first occurrence of each string. *)
Fixpoint keep_first (l : list string) : list string :=
  match l with
  | [] => []
  | x :: l' => x :: List.filter (fun y => negb (String.eqb y x)) (keep_first l')
  end.

(** Non-sequences are empty; otherwise stringify and trim every
    element, drop the empty strings, remove duplicates. *)
Definition normalized (raw : unknown) : list string :=
  match elements raw with
  | None => []
  | Some values =>
      keep_first (List.filter truthy (map (fun value => trim (ToString value)) values))
  end.

End Candidate.

Arguments Thrown : clear implicits.
Arguments Settlement : clear implicits.
Arguments Promise : clear implicits.
Arguments SearchCall : clear implicits.
Arguments Observation : clear implicits.
Arguments Submission : clear implicits.
Arguments Fulfilled {unknown T} v.
Arguments Rejected {unknown T} error.
Arguments SettlesFirst {unknown T} s.
Arguments StillPending {unknown T}.
Arguments setup {unknown S} _.
Arguments search {unknown S} _.
Arguments cleanup {unknown S} _.

End Scorer.

(** ** Properties of normalisation *)

Module Normalisation.

Import JsString JsNumber Scorer.

Lemma Array_includes_spec (arr : list string) (x : string) :
  Array_includes arr x = true <-> x ∈ arr.
Proof.
  unfold Array_includes. rewrite existsb_exists. split.
  - intros (y & Hy & Heq). apply String.eqb_eq in Heq. subst. by apply list_elem_of_In.
  - intros Hx. exists x. split; [by apply list_elem_of_In | apply String.eqb_refl].
Qed.

Lemma Array_includes_false (arr : list string) (x : string) :
  Array_includes arr x = false <-> x ∉ arr.
Proof.
  rewrite <- Array_includes_spec. destruct (Array_includes arr x); split; congruence.
Qed.

Lemma Set_new_acc (arr : list string) (s0 : gset string) (x : string) :
  x ∈ fold_left (fun s y => {[ y ]} ∪ s) arr s0 <-> x ∈ arr \/ x ∈ s0.
Proof.
  revert s0. induction arr as [|y arr IH]; intros s0; simpl.
  - set_solver.
  - rewrite IH. set_solver.
Qed.

Lemma Set_has_new (arr : list string) (x : string) :
  Set_has (Set_new arr) x = true <-> x ∈ arr.
Proof.
  unfold Set_has, Set_new. rewrite bool_decide_eq_true, Set_new_acc. set_solver.
Qed.

Lemma Set_has_new_false (arr : list string) (x : string) :
  Set_has (Set_new arr) x = false <-> x ∉ arr.
Proof.
  rewrite <- Set_has_new. destruct (Set_has (Set_new arr) x); split; congruence.
Qed.


Lemma filter_filter_comm {A} (f g : A -> bool) (l : list A) :
  List.filter f (List.filter g l) = List.filter g (List.filter f l).
Proof.
  induction l as [|a l IH]; simpl; [done|].
  destruct (f a) eqn:Hf, (g a) eqn:Hg; simpl; rewrite ?Hf, ?Hg, IH; done.
Qed.

Lemma filter_filter_andb {A} (f g : A -> bool) (l : list A) :
  List.filter f (List.filter g l) = List.filter (fun x => f x && g x) l.
Proof.
  induction l as [|a l IH]; simpl; [done|].
  destruct (g a) eqn:Hg; simpl; rewrite ?andb_true_r, ?andb_false_r; [|done].
  destruct (f a); by rewrite IH.
Qed.

Lemma filter_ext_in {A} (f g : A -> bool) (l : list A) :
  (∀ x, x ∈ l -> f x = g x) -> List.filter f l = List.filter g l.
Proof.
  intros H. apply List.filter_ext_in. intros x Hx. apply H. by apply list_elem_of_In.
Qed.

Lemma elem_of_filter_bool {A} (f : A -> bool) (l : list A) (x : A) :
  x ∈ List.filter f l <-> x ∈ l /\ f x = true.
Proof. rewrite !list_elem_of_In. apply List.filter_In. Qed.

Section KeepFirst.

Lemma elem_of_keep_first (l : list string) (x : string) : x ∈ keep_first l <-> x ∈ l.
Proof.
  induction l as [|y l IH]; simpl; [done|].
  rewrite !elem_of_cons, elem_of_filter_bool, IH.
  destruct (String.eqb_spec x y) as [->|Hne]; simpl; split; intros; intuition congruence.
Qed.

Lemma NoDup_filter_bool {A} (f : A -> bool) (l : list A) : NoDup l -> NoDup (List.filter f l).
Proof.
  induction 1 as [|a l Ha Hl IH]; simpl; [constructor|].
  destruct (f a); [|done]. constructor; [|done].
  rewrite elem_of_filter_bool. tauto.
Qed.

Lemma keep_first_NoDup (l : list string) : NoDup (keep_first l).
Proof.
  induction l as [|y l IH]; simpl; constructor.
  - rewrite elem_of_filter_bool, String.eqb_refl. simpl. intros [_ ?]. done.
  - by apply NoDup_filter_bool.
Qed.

Lemma filter_all {A} (f : A -> bool) (l : list A) :
  (∀ x, x ∈ l -> f x = true) -> List.filter f l = l.
Proof.
  induction l as [|a l IH]; simpl; intros H; [done|].
  rewrite (H a) by apply list_elem_of_here. f_equal. apply IH.
  intros x Hx. apply H. by apply list_elem_of_further.
Qed.

(** A list without duplicates is left as it is. *)
Lemma keep_first_id (l : list string) : NoDup l -> keep_first l = l.
Proof.
  induction 1 as [|y l Hy Hl IH]; simpl; [done|]. rewrite IH. f_equal.
  apply filter_all. intros x Hx. apply negb_true_iff, String.eqb_neq. congruence.
Qed.

(** Survivors stay in the order of the input. *)
Lemma keep_first_sublist (l : list string) : sublist (keep_first l) l.
Proof.
  induction l as [|y l IH]; simpl; [constructor|].
  apply sublist_skip. etrans; [|exact IH].
  clear. induction (keep_first l) as [|a k IHk]; simpl; [constructor|].
  destruct (negb (a =? y)%string); [by apply sublist_skip | by apply sublist_cons].
Qed.

Lemma keep_first_filter (f : string -> bool) (l : list string) :
  keep_first (List.filter f l) = List.filter f (keep_first l).
Proof.
  induction l as [|y l IH]; simpl; [done|].
  destruct (f y) eqn:Hf; simpl; rewrite ?Hf, IH.
  - f_equal. apply filter_filter_comm.
  - rewrite (filter_filter_comm f). symmetry. apply filter_all.
    intros x Hx. apply elem_of_filter_bool in Hx as [_ Hx].
    destruct (String.eqb_spec x y) as [->|]; [congruence|done].
Qed.

End KeepFirst.

Section ToUniqueIds.

Context {unknown : Type}.
Variable elements : unknown -> option (list unknown).
Variable ToString : unknown -> string.

Let candidates (values : list unknown) : list string :=
  List.filter truthy (map (fun value => trim (ToString value)) values).

(** The loop invariant: [seen] holds exactly the strings of [out], and
    what is still to come is appended unless it is in [out] already. *)
Lemma toUniqueIds_loop (values : list unknown) (out : list string) (seen : gset string) :
  (∀ x, x ∈ seen <-> x ∈ out) ->
  fst (fold_left (toUniqueIds_step ToString) values (out, seen)) =
  (out ++ List.filter (fun x => negb (Array_includes out x)) (keep_first (candidates values)))%list.
Proof.
  revert out seen. induction values as [|value values IH]; intros out seen Hseen.
  - simpl. by rewrite app_nil_r.
  - cbn [fold_left]. unfold toUniqueIds_step at 2.
    unfold candidates in *. cbn [map List.filter].
    set (id := trim (ToString value)).
    destruct (truthy id) eqn:Hid; cbn [negb orb].
    + destruct (Set_has seen id) eqn:Hhas.
      * rewrite (IH _ _ Hseen). f_equal. cbn [keep_first List.filter].
        assert (Hin : Array_includes out id = true).
        { apply Array_includes_spec, Hseen. by apply bool_decide_eq_true in Hhas. }
        rewrite Hin. cbn [negb]. rewrite filter_filter_comm. symmetry. apply filter_all.
        intros x Hx. apply elem_of_filter_bool in Hx as [_ Hx].
        apply negb_true_iff in Hx. apply negb_true_iff, String.eqb_neq. congruence.
      * assert (Hnin : Array_includes out id = false).
        { apply Array_includes_false. rewrite <- Hseen.
          by apply bool_decide_eq_false in Hhas. }
        rewrite IH.
        2:{ intros x. rewrite elem_of_union, elem_of_singleton, elem_of_app,
              list_elem_of_singleton, Hseen. tauto. }
        rewrite <- app_assoc. f_equal. cbn [keep_first List.filter app].
        rewrite Hnin. cbn [negb]. f_equal.
        rewrite filter_filter_andb.
        apply filter_ext_in. intros x _. unfold Array_includes.
        rewrite existsb_app. cbn [existsb]. by rewrite orb_false_r, negb_orb.
    + by apply IH.
Qed.

Lemma toUniqueIds_keep_first (raw : unknown) :
  toUniqueIds elements ToString raw = normalized elements ToString raw.
Proof.
  unfold toUniqueIds, normalized. destruct (elements raw) as [values|]; [|done].
  rewrite toUniqueIds_loop by set_solver. cbn [app].
  apply filter_all. intros x _. done.
Qed.

(** C5. Whatever the candidate returns, [toUniqueIds] yields the empty
    list for a value that is not an array and otherwise the strings
    [String(value).trim()] of its elements, in their order, without the
    empty ones and with only the first occurrence of each string. *)
Theorem toUniqueIds_normalized (raw : unknown) :
  toUniqueIds elements ToString raw = normalized elements ToString raw.
Proof.
  unfold toUniqueIds, normalized. destruct (elements raw) as [values|]; [|done].
  rewrite toUniqueIds_loop by set_solver. cbn [app].
  apply filter_all. intros x _. done.
Qed.

Lemma toUniqueIds_NoDup (raw : unknown) : NoDup (toUniqueIds elements ToString raw).
Proof.
  rewrite toUniqueIds_keep_first. unfold normalized.
  destruct (elements raw); [apply keep_first_NoDup | constructor].
Qed.

Lemma elem_of_toUniqueIds (raw : unknown) (id : string) :
  id ∈ toUniqueIds elements ToString raw <->
  ∃ values value, elements raw = Some values /\ value ∈ values
                  /\ id = trim (ToString value) /\ id <> "".
Proof.
  rewrite toUniqueIds_keep_first. unfold normalized. destruct (elements raw) as [values|].
  - rewrite elem_of_keep_first, elem_of_filter_bool, truthy_spec.
    change (map ?f values) with (f <$> values). rewrite list_elem_of_fmap. split.
    + intros [(value & -> & Hv) Hne]. by exists values, value.
    + intros (? & value & [= <-] & Hv & -> & Hne). split; [by exists value | done].
  - split; [by intros ?%elem_of_nil | by intros (? & ? & ? & _)].
Qed.

End ToUniqueIds.

End Normalisation.

(** ** Classification of one case *)

Module Classification.

Import JsString JsNumber Scorer Normalisation.

(** The ids of the dataset. *)
Definition validIds (rows : list RecordRow) : gset string :=
  list_to_set (row_id <$> rows).

Lemma Map_new_acc {V} (entries : list (string * V)) (m0 : gmap string V) (k : string) :
  is_Some (fold_left (fun m kv => <[ fst kv := snd kv ]> m) entries m0 !! k)
  <-> k ∈ entries.*1 \/ is_Some (m0 !! k).
Proof.
  revert m0. induction entries as [|[k' v] entries IH]; intros m0; simpl.
  - rewrite elem_of_nil. tauto.
  - rewrite IH, elem_of_cons, lookup_insert_is_Some. simpl.
    destruct (decide (k' = k)) as [->|]; [tauto|]. split; intros; intuition congruence.
Qed.

Lemma Map_has_index (rows : list RecordRow) (id : string) :
  Map_has (index_rows rows) id = true <-> id ∈ validIds rows.
Proof.
  unfold Map_has, index_rows, Map_new, validIds.
  rewrite elem_of_list_to_set.
  pose proof (Map_new_acc (map (fun row => (row_id row, row)) rows) ∅ id) as H.
  rewrite lookup_empty in H.
  assert (Hfst : (map (fun row => (row_id row, row)) rows).*1 = row_id <$> rows).
  { clear. induction rows; simpl; [done | by f_equal]. }
  rewrite Hfst in H.
  destruct (fold_left _ _ _ !! id) eqn:E.
  - split; [|done]. intros _. destruct H as [H _].
    destruct H as [?|[? ?]]; [by eexists | done | done].
  - split; [done|]. intros Hin. destruct H as [_ H]. destruct H as [? H]; [by left|]. congruence.
Qed.

Lemma Map_has_index_false (rows : list RecordRow) (id : string) :
  Map_has (index_rows rows) id = false <-> id ∉ validIds rows.
Proof.
  rewrite <- Map_has_index. destruct (Map_has (index_rows rows) id); split; congruence.
Qed.

Lemma length_filter_split {A} (f : A -> bool) (l : list A) :
  length l = length (List.filter f l) + length (List.filter (fun x => negb (f x)) l).
Proof. induction l as [|a l IH]; simpl; [done|]. destruct (f a); simpl; lia. Qed.

(** Two duplicate-free lists meet in equally many elements, whichever
    of the two is filtered. *)
Lemma length_filter_includes (l k : list string) :
  NoDup l -> NoDup k ->
  length (List.filter (Array_includes k) l) = length (List.filter (Array_includes l) k).
Proof.
  intros Hl Hk. apply Permutation_length, NoDup_Permutation.
  - by apply NoDup_filter_bool.
  - by apply NoDup_filter_bool.
  - intros x. rewrite !elem_of_filter_bool, !Array_includes_spec. tauto.
Qed.

Section Case.

Context {unknown : Type}.
Variable elements : unknown -> option (list unknown).
Variable ToString : unknown -> string.

(** The search delivers no value: the call throws, its promise is
    rejected, or its promise is still pending when the timer fires.
    The string is the message of the error the [catch] clause gets. *)
Inductive search_failure (timeoutMs : Z) : SearchCall unknown -> string -> Prop :=
| search_throws error :
    search_failure timeoutMs (Throws error) (error_text ToString error)
| search_rejects error :
    search_failure timeoutMs (Returns (SettlesFirst (Rejected error)))
      (error_text ToString error)
| search_times_out :
    search_failure timeoutMs (Returns StillPending) (timeout_message timeoutMs).


Lemma attempt_NoDup c timeoutMs : NoDup (attempt elements ToString c timeoutMs).1.
Proof.
  destruct c as [error|[[raw|error]|]]; simpl; try constructor.
  apply toUniqueIds_NoDup.
Qed.

Lemma attempt_error c timeoutMs message :
  (attempt elements ToString c timeoutMs).2 = Some message ->
  search_failure timeoutMs c message.
Proof.
  destruct c as [error|[[raw|error]|]]; simpl; intros [= <-]; constructor.
Qed.

Section OneCase.

Variable rows : list RecordRow.
Variable timeoutMs : Z.
Variable testCase : TestCase.
Variable obs : Observation unknown.

Let r : CaseReport :=
  evaluate elements ToString (index_rows rows) timeoutMs testCase obs.

Lemma evaluate_returnedIds :
  returnedIds r = (attempt elements ToString (call obs) timeoutMs).1.
Proof. unfold r, evaluate. by destruct (attempt _ _ _ _). Qed.



Lemma returnedIds_NoDup : NoDup (returnedIds r).
Proof. rewrite evaluate_returnedIds. apply attempt_NoDup. Qed.

Lemma evaluate_hitIds :
  hitIds r = List.filter (Array_includes (returnedIds r)) (expectedIds testCase).
Proof. unfold r, evaluate. by destruct (attempt _ _ _ _). Qed.

Lemma evaluate_missingIds :
  missingIds r =
  List.filter (fun id => negb (Array_includes (returnedIds r) id)) (expectedIds testCase).
Proof. unfold r, evaluate. by destruct (attempt _ _ _ _). Qed.

Lemma evaluate_fpHits :
  fpHits r =
  List.filter (Set_has (Set_new (falsePositiveIds testCase))) (returnedIds r).
Proof. unfold r, evaluate. by destruct (attempt _ _ _ _). Qed.

Lemma evaluate_invalidIds :
  invalidIds r =
  List.filter (fun id => negb (Map_has (index_rows rows) id)) (returnedIds r).
Proof. unfold r, evaluate. by destruct (attempt _ _ _ _). Qed.

Lemma evaluate_extrasUnscored :
  extrasUnscored r =
  List.filter
    (fun id => Map_has (index_rows rows) id
               && negb (Set_has (Set_new (expectedIds testCase)) id)
               && negb (Set_has (Set_new (falsePositiveIds testCase)) id))
    (returnedIds r).
Proof. unfold r, evaluate. by destruct (attempt _ _ _ _). Qed.


Lemma elem_of_hitIds id :
  id ∈ hitIds r <-> id ∈ expectedIds testCase /\ id ∈ returnedIds r.
Proof. by rewrite evaluate_hitIds, elem_of_filter_bool, Array_includes_spec. Qed.

Lemma elem_of_fpHits id :
  id ∈ fpHits r <-> id ∈ returnedIds r /\ id ∈ falsePositiveIds testCase.
Proof. by rewrite evaluate_fpHits, elem_of_filter_bool, Set_has_new. Qed.

Lemma elem_of_invalidIds id :
  id ∈ invalidIds r <-> id ∈ returnedIds r /\ (id ∉ validIds rows).
Proof.
  by rewrite evaluate_invalidIds, elem_of_filter_bool, negb_true_iff, Map_has_index_false.
Qed.

Lemma elem_of_extrasUnscored id :
  id ∈ extrasUnscored r <->
  id ∈ returnedIds r /\ id ∈ validIds rows /\ (id ∉ expectedIds testCase)
  /\ (id ∉ falsePositiveIds testCase).
Proof.
  rewrite evaluate_extrasUnscored, elem_of_filter_bool, !andb_true_iff, !negb_true_iff,
    Map_has_index, !Set_has_new_false. tauto.
Qed.




Lemma length_filter_four {A} (f1 f2 f3 f4 : A -> bool) (l : list A) :
  (forall x, x ∈ l ->
     Nat.b2n (f1 x) + Nat.b2n (f2 x) + Nat.b2n (f3 x) + Nat.b2n (f4 x) = 1) ->
  length l =
  length (List.filter f1 l) + length (List.filter f2 l)
  + length (List.filter f3 l) + length (List.filter f4 l).
Proof.
  induction l as [|a l IH]; intros H; simpl; [done|].
  pose proof (H a (list_elem_of_here _ _)) as Ha.
  rewrite IH by (intros x Hx; apply H; by apply list_elem_of_further).
  destruct (f1 a), (f2 a), (f3 a), (f4 a); simpl in *; lia.
Qed.

(** C10. When the expected ids and the listed false positives of
    the case are duplicate-free, disjoint and ids of the dataset,
    every returned id is in exactly one of the hits, the false
    positive hits, the unscored extras and the invalid ids, and the
    four lengths add up to the number of returned ids. *)
Theorem classification_partition :
  NoDup (expectedIds testCase) ->
  NoDup (falsePositiveIds testCase) ->
  (forall id, id ∈ expectedIds testCase -> id ∉ falsePositiveIds testCase) ->
  (forall id, id ∈ expectedIds testCase -> id ∈ validIds rows) ->
  (forall id, id ∈ falsePositiveIds testCase -> id ∈ validIds rows) ->
  (forall id, id ∈ returnedIds r ->
     (id ∈ hitIds r /\ (id ∉ fpHits r) /\ (id ∉ extrasUnscored r)
        /\ (id ∉ invalidIds r))
     \/ ((id ∉ hitIds r) /\ id ∈ fpHits r /\ (id ∉ extrasUnscored r)
        /\ (id ∉ invalidIds r))
     \/ ((id ∉ hitIds r) /\ (id ∉ fpHits r) /\ id ∈ extrasUnscored r
        /\ (id ∉ invalidIds r))
     \/ ((id ∉ hitIds r) /\ (id ∉ fpHits r) /\ (id ∉ extrasUnscored r)
        /\ id ∈ invalidIds r))
  /\ length (returnedIds r) =
     length (hitIds r) + length (fpHits r) + length (extrasUnscored r)
     + length (invalidIds r).
Proof.
  intros Hexp Hfp Hdisj Hexpv Hfpv. split.
  - intros id Hret.
    rewrite elem_of_hitIds, elem_of_fpHits, elem_of_extrasUnscored, elem_of_invalidIds.
    specialize (Hdisj id). specialize (Hexpv id). specialize (Hfpv id).
    destruct (decide (id ∈ expectedIds testCase)),
             (decide (id ∈ falsePositiveIds testCase)),
             (decide (id ∈ validIds rows)); tauto.
  - rewrite evaluate_hitIds, length_filter_includes by (done || apply returnedIds_NoDup).
    rewrite evaluate_fpHits, evaluate_extrasUnscored, evaluate_invalidIds.
    apply length_filter_four. intros id _.
    specialize (Hdisj id). specialize (Hexpv id). specialize (Hfpv id).
    destruct (Array_includes (expectedIds testCase) id) eqn:E1;
      [apply Array_includes_spec in E1 | apply Array_includes_false in E1];
    (destruct (Set_has (Set_new (falsePositiveIds testCase)) id) eqn:E2;
      [apply Set_has_new in E2 | apply Set_has_new_false in E2]);
    (destruct (Set_has (Set_new (expectedIds testCase)) id) eqn:E3;
      [apply Set_has_new in E3 | apply Set_has_new_false in E3]);
    (destruct (Map_has (index_rows rows) id) eqn:E4;
      [apply Map_has_index in E4 | apply Map_has_index_false in E4]);
    simpl; try done; tauto.
Qed.


End OneCase.

End Case.

End Classification.

(** ** Whole runs *)

Module Runs.

Import JsString JsNumber Scorer Normalisation Classification.

Section Run.

Context {unknown S : Type}.
Variable elements : unknown -> option (list unknown).
Variable ToString : unknown -> string.
Variable submission : Submission unknown S.

(** What the candidate answers to a sequence of queries, from a state. *)
Fixpoint observe (queries : list string) (s : S) : list (Observation unknown) * S :=
  match queries with
  | [] => ([], s)
  | q :: queries' =>
      let '(s', o) := search submission q s in
      let '(os, s'') := observe queries' s' in
      (o :: os, s'')
  end.

Lemma observe_length queries s : length (observe queries s).1 = length queries.
Proof.
  revert s. induction queries as [|q queries IH]; intros s; simpl; [done|].
  destruct (search submission q s) as [s' o]. specialize (IH s').
  destruct (observe queries s') as [os s'']. simpl in *. by rewrite IH.
Qed.

(** The loop state after the cases have been evaluated on given
    observations. *)
Definition tally_step (byId : gmap string RecordRow) (timeoutMs : Z)
    (st : Counters * list CaseReport) (co : TestCase * Observation unknown)
  : Counters * list CaseReport :=
  let r := evaluate elements ToString byId timeoutMs co.1 co.2 in
  (accumulate st.1 co.1 r, (st.2 ++ [r])%list).

Definition tally (byId : gmap string RecordRow) (timeoutMs : Z)
    (testCases : list TestCase) (os : list (Observation unknown))
    (st : Counters * list CaseReport) : Counters * list CaseReport :=
  fold_left (tally_step byId timeoutMs) (zip testCases os) st.

(** The loop never throws: it calls [search] once per case, in order,
    and ends in the tally of what it observed. *)
Lemma for_of_loop byId timeoutMs testCases st w :
  for_of testCases (loop_body elements ToString submission byId timeoutMs) st w =
  ({| candidate_state := (observe (map query testCases) (candidate_state w)).2;
      calls := (calls w ++ map SearchCalled (map query testCases))%list |},
   Returned (tally byId timeoutMs testCases
               (observe (map query testCases) (candidate_state w)).1 st)).
Proof.
  revert st w. induction testCases as [|tc tcs IH]; intros st [s cs].
  - simpl. unfold ret. by rewrite app_nil_r.
  - cbn [for_of]. unfold bind at 1. unfold loop_body at 1. unfold bind at 1.
    unfold call_search at 1. cbn [candidate_state calls map observe].
    destruct (search submission (query tc) s) as [s' o]. unfold ret at 1.
    rewrite IH. cbn [candidate_state calls].
    destruct (observe (map query tcs) s') as [os s'']. cbn [fst snd].
    by rewrite <- app_assoc.
Qed.


Lemma tally_app byId timeoutMs tcs1 tcs2 os1 os2 st :
  length tcs1 = length os1 ->
  tally byId timeoutMs (tcs1 ++ tcs2) (os1 ++ os2) st =
  tally byId timeoutMs tcs2 os2 (tally byId timeoutMs tcs1 os1 st).
Proof.
  intros Hlen. unfold tally. rewrite zip_with_app by done.
  apply fold_left_app.
Qed.

(** The lifecycle calls, with the event each leaves. *)
Definition setup_result (datasetPath : string) (s : S) : S * option (Thrown unknown) * list Event :=
  match setup submission with
  | None => (s, None, [])
  | Some f => let '(s', thrown) := f datasetPath s in (s', thrown, [SetupCalled datasetPath])
  end.

Definition cleanup_result (s : S) : S * option (Thrown unknown) * list Event :=
  match cleanup submission with
  | None => (s, None, [])
  | Some f => let '(s', thrown) := f s in (s', thrown, [CleanupCalled])
  end.

Definition datasetPath (args : Args) (env : Env) : string :=
  resolve env ("data/datasets/" ++ DatasetName_string (dataset args) ++ "/names.csv").

Lemma DatasetName_eqb_eq a b : DatasetName_eqb a b = true <-> a = b.
Proof. destruct a, b; simpl; split; congruence. Qed.

(** [main], step by step. *)
Lemma run_unfold (args : Args) (env : Env) (s0 : S) :
  run elements ToString submission args env s0 =
  let w0 := {| candidate_state := s0; calls := [] |} in
  match read_suite env (suitePath args) with
  | Threw message => (w0, Threw message)
  | Returned suite =>
      if negb (DatasetName_eqb (suite_dataset suite) (dataset args))
      then (w0, Threw (mismatch_message suite args))
      else
        match loadDataset env (datasetPath args env) with
        | Threw message => (w0, Threw message)
        | Returned rows =>
            let '(s1, thrown1, ev1) := setup_result (datasetPath args env) s0 in
            match thrown1 with
            | Some error =>
                ({| candidate_state := s1; calls := ev1 |}, Threw (error_text ToString error))
            | None =>
                let '(os, s2) := observe (map query (cases suite)) s1 in
                let st := tally (index_rows rows) (timeoutMs args) (cases suite) os
                            (Counters_init, []) in
                let '(s3, thrown3, ev3) := cleanup_result s2 in
                let w3 := {| candidate_state := s3;
                             calls := (ev1 ++ map SearchCalled (map query (cases suite))
                                       ++ ev3)%list |} in
                match thrown3 with
                | Some error => (w3, Threw (error_text ToString error))
                | None => (w3, Returned (finalize st.1 st.2 (length (cases suite))))
                end
            end
        end
  end.
Proof.
  unfold run, main. fold (datasetPath args env). unfold bind at 1, lift at 1.
  destruct (read_suite env (suitePath args)) as [suite|message]; [|done].
  destruct (negb _); [done|].
  unfold bind at 1, lift at 1.
  destruct (loadDataset env (datasetPath args env)) as [rows|message]; [|done].
  unfold bind at 1. unfold call_setup, setup_result.
  destruct (setup submission) as [f|].
  - cbn [candidate_state calls app]. destruct (f (datasetPath args env) s0) as [s1 [error|]];
      [done|].
    unfold bind at 1. rewrite for_of_loop. cbn [candidate_state calls].
    destruct (observe (map query (cases suite)) s1) as [os s2]. cbn [fst snd].
    unfold bind at 1. unfold call_cleanup, cleanup_result.
    destruct (cleanup submission) as [g|].
    + cbn [candidate_state calls]. destruct (g s2) as [s3 [error|]]; [|unfold ret];
        by rewrite <- app_assoc.
    + unfold ret. by rewrite app_nil_r.
  - unfold ret at 1. unfold bind at 1. rewrite for_of_loop. cbn [candidate_state calls].
    destruct (observe (map query (cases suite)) s0) as [os s2]. cbn [fst snd app].
    unfold bind at 1. unfold call_cleanup, cleanup_result.
    destruct (cleanup submission) as [g|].
    + cbn [candidate_state calls]. by destruct (g s2) as [s3 [error|]].
    + unfold ret. by rewrite app_nil_r.
Qed.

(** A run that returns a summary read its suite and its dataset, and
    the summary finalises the tally of the suite's cases. *)
Lemma run_Returned_inv (args : Args) (env : Env) (s0 : S) w summary :
  run elements ToString submission args env s0 = (w, Returned summary) ->
  exists suite rows os,
    read_suite env (suitePath args) = Returned suite
    /\ suite_dataset suite = dataset args
    /\ loadDataset env (datasetPath args env) = Returned rows
    /\ length os = length (cases suite)
    /\ summary =
         let st := tally (index_rows rows) (timeoutMs args) (cases suite) os
                     (Counters_init, []) in
         finalize st.1 st.2 (length (cases suite)).
Proof.
  rewrite run_unfold. cbv zeta.
  destruct (read_suite env (suitePath args)) as [suite|]; [|done].
  destruct (DatasetName_eqb _ _) eqn:Heq; [|done]. cbn [negb].
  apply DatasetName_eqb_eq in Heq.
  destruct (loadDataset env (datasetPath args env)) as [rows|]; [|done].
  destruct (setup_result _ _) as [[s1 [error|]] ev1]; [done|].
  pose proof (observe_length (map query (cases suite)) s1) as Hlen.
  destruct (observe _ s1) as [os s2].
  destruct (cleanup_result s2) as [[s3 [error|]] ev3]; [done|].
  intros [= _ <-]. exists suite, rows, os. repeat split; try done.
  simpl in Hlen. by rewrite Hlen, length_map.
Qed.

(** Induction over the cases of a tally. *)
Lemma tally_ind (P : Counters * list CaseReport -> Prop) byId timeoutMs testCases os st :
  P st ->
  (forall st tc o, tc ∈ testCases -> P st -> P (tally_step byId timeoutMs st (tc, o))) ->
  P (tally byId timeoutMs testCases os st).
Proof.
  unfold tally. revert os st.
  induction testCases as [|tc tcs IH]; intros [|o os] st Hst Hstep; simpl; try done.
  apply IH.
  - apply Hstep; [apply list_elem_of_here | done].
  - intros st' tc' o' Hin. apply Hstep. by apply list_elem_of_further.
Qed.

(** The state after the first [k] cases of a longer tally. *)
Lemma tally_take byId timeoutMs testCases os st k :
  length os = length testCases ->
  tally byId timeoutMs testCases os st =
  tally byId timeoutMs (drop k testCases) (drop k os)
    (tally byId timeoutMs (take k testCases) (take k os) st).
Proof.
  intros Hlen. rewrite <- tally_app.
  - by rewrite !take_drop.
  - rewrite !length_take. lia.
Qed.

(** C9. A suite that declares another dataset than the requested one
    makes [main] throw before any call into the candidate and before
    any case is searched; and the datasets the cases themselves
    declare are never looked at. *)
Theorem dataset_mismatch_fatal (args : Args) (env : Env) (s0 : S) (suite : TestSuite) :
  read_suite env (suitePath args) = Returned suite ->
  (suite_dataset suite <> dataset args ->
     run elements ToString submission args env s0 =
     ({| candidate_state := s0; calls := [] |}, Threw (mismatch_message suite args)))
  /\ (suite_dataset suite = dataset args ->
       forall redeclare : TestCase -> DatasetName,
         let suite' :=
           {| suite_name := suite_name suite; suite_dataset := suite_dataset suite;
              seed := seed suite;
              cases :=
                map (fun tc =>
                       {| case_id := case_id tc; case_dataset := redeclare tc;
                          query := query tc; expectedIds := expectedIds tc;
                          falsePositiveIds := falsePositiveIds tc; tags := tags tc;
                          notes := notes tc |}) (cases suite) |} in
         let env' :=
           {| resolve := resolve env;
              read_suite := fun path =>
                if String.eqb path (suitePath args) then Returned suite'
                else read_suite env path;
              loadDataset := loadDataset env |} in
         run elements ToString submission args env' s0 =
         run elements ToString submission args env s0).
Proof.
  intros Hsuite. split.
  - intros Hne. rewrite run_unfold, Hsuite. cbv zeta.
    destruct (DatasetName_eqb _ _) eqn:Heq; [|done].
    by apply DatasetName_eqb_eq in Heq.
  - intros Heq redeclare suite' env'. rewrite !run_unfold. cbv zeta.
    assert (Hr : read_suite env' (suitePath args) = Returned suite').
    { unfold env'. cbn [read_suite]. by rewrite String.eqb_refl. }
    assert (Hp : datasetPath args env' = datasetPath args env) by done.
    assert (Hl : loadDataset env' = loadDataset env) by done.
    rewrite Hr, Hp, Hl, Hsuite. clear Hr Hp Hl.
    change (suite_dataset suite') with (suite_dataset suite).
    destruct (negb _); [done|].
    destruct (loadDataset env (datasetPath args env)) as [rows|]; [|done].
    destruct (setup_result _ _) as [[s1 [error|]] ev1]; [done|].
    assert (Hq : map query (cases suite') = map query (cases suite)).
    { unfold suite'. cbn [cases]. rewrite map_map. done. }
    rewrite Hq. destruct (observe _ s1) as [os s2].
    assert (Ht : forall st,
               tally (index_rows rows) (timeoutMs args) (cases suite') os st =
               tally (index_rows rows) (timeoutMs args) (cases suite) os st).
    { unfold suite'. cbn [cases]. unfold tally. clear.
      revert os. induction (cases suite) as [|tc tcs IH]; intros [|o os] st; simpl; done. }
    rewrite Ht. unfold suite'. cbn [cases]. by rewrite !length_map.
Qed.


End Run.

End Runs.

(** ** Facts about binary64 rounding

    The primitive operations are specified by [SpecFloat]'s functions on
    [spec_float]; what follows is proved about those.  A finite number
    [S754_finite s m e] stands for [(-1)^s * m * 2^e]. *)

Module Binary64.

Local Open Scope Z_scope.

(** *** Number of binary digits *)

Lemma digits2_pos_bounds (p : positive) :
  2 ^ (Zpos (digits2_pos p) - 1) <= Zpos p < 2 ^ Zpos (digits2_pos p).
Proof.
  induction p as [p IH|p IH|]; cbn [digits2_pos].
  - rewrite Pos2Z.inj_succ. replace (Z.succ (Zpos (digits2_pos p)) - 1)
      with (Z.succ (Zpos (digits2_pos p) - 1)) by lia.
    rewrite !Z.pow_succ_r by lia. lia.
  - rewrite Pos2Z.inj_succ. replace (Z.succ (Zpos (digits2_pos p)) - 1)
      with (Z.succ (Zpos (digits2_pos p) - 1)) by lia.
    rewrite !Z.pow_succ_r by lia. lia.
  - simpl. lia.
Qed.

Lemma Zdigits2_bounds (m : Z) :
  0 < m -> 2 ^ (Zdigits2 m - 1) <= m < 2 ^ Zdigits2 m.
Proof. destruct m as [|p|p]; try lia. intros _. apply digits2_pos_bounds. Qed.

Lemma Zdigits2_nonneg (m : Z) : 0 <= m -> 0 <= Zdigits2 m.
Proof. destruct m; simpl; lia. Qed.

Lemma Zdigits2_pos (m : Z) : 0 < m -> 0 < Zdigits2 m.
Proof. destruct m; simpl; lia. Qed.

Lemma Zdigits2_unique (m d : Z) :
  2 ^ (d - 1) <= m < 2 ^ d -> 0 < m -> Zdigits2 m = d.
Proof.
  intros [Hlo Hhi] Hm. pose proof (Zdigits2_bounds m Hm) as [Hlo' Hhi'].
  pose proof (Zdigits2_pos m Hm) as Hd.
  assert (0 < d).
  { destruct (Z.lt_ge_cases 0 d) as [|Hd0]; [done|].
    rewrite (Z.pow_neg_r 2 d) in Hhi; [lia|]. destruct (Z.eq_dec d 0) as [->|]; [|lia].
    simpl in Hhi. lia. }
  destruct (Z.lt_trichotomy (Zdigits2 m) d) as [Hlt|[Heq|Hgt]]; [|done|].
  - assert (2 ^ Zdigits2 m <= 2 ^ (d - 1)) by (apply Z.pow_le_mono_r; lia). lia.
  - assert (2 ^ d <= 2 ^ (Zdigits2 m - 1)) by (apply Z.pow_le_mono_r; lia). lia.
Qed.

Lemma Zdigits2_le (m d : Z) : 0 <= m -> 0 <= d -> m < 2 ^ d -> Zdigits2 m <= d.
Proof.
  intros Hm Hd Hlt. destruct (Z.eq_dec m 0) as [->|]; [simpl; lia|].
  pose proof (Zdigits2_bounds m ltac:(lia)) as [Hlo _].
  destruct (Z.le_gt_cases (Zdigits2 m) d) as [|Hgt]; [done|].
  assert (2 ^ d <= 2 ^ (Zdigits2 m - 1)) by (apply Z.pow_le_mono_r; lia). lia.
Qed.

Lemma Zdigits2_mono (a b : Z) : 0 <= a <= b -> Zdigits2 a <= Zdigits2 b.
Proof.
  intros [Ha Hab]. destruct (Z.eq_dec b 0) as [->|].
  - replace a with 0 by lia. lia.
  - apply Zdigits2_le; [done | apply Zdigits2_nonneg; lia |].
    pose proof (Zdigits2_bounds b ltac:(lia)). lia.
Qed.

Lemma Zdigits2_mul_pow (m k : Z) :
  0 < m -> 0 <= k -> Zdigits2 (m * 2 ^ k) = Zdigits2 m + k.
Proof.
  intros Hm Hk. pose proof (Zdigits2_bounds m Hm) as [Hlo Hhi].
  pose proof (Zdigits2_pos m Hm).
  assert (0 < 2 ^ k) by (apply Z.pow_pos_nonneg; lia).
  apply Zdigits2_unique; [|lia].
  replace (Zdigits2 m + k - 1) with (Zdigits2 m - 1 + k) by lia.
  rewrite !Z.pow_add_r by lia. split; nia.
Qed.

(** *** The exponent function *)

Abbreviation fexp := (SpecFloat.fexp prec emax).
Abbreviation emin := (SpecFloat.emin prec emax).

Lemma emin_value : emin = -1074.
Proof. reflexivity. Qed.

Lemma fexp_unfold (e : Z) : fexp e = Z.max (e - 53) (-1074).
Proof. reflexivity. Qed.

Lemma fexp_mono (a b : Z) : a <= b -> fexp a <= fexp b.
Proof. rewrite !fexp_unfold. lia. Qed.

Lemma bounded_inv (m : positive) (e : Z) :
  bounded prec emax m e = true ->
  fexp (Zpos (digits2_pos m) + e) = e /\ e <= 971.
Proof.
  unfold bounded, canonical_mantissa. rewrite andb_true_iff, Z.eqb_eq, Z.leb_le.
  intros [H1 H2]. split; [done|]. exact H2.
Qed.

Lemma bounded_intro (m : positive) (e : Z) :
  fexp (Zpos (digits2_pos m) + e) = e -> e <= 971 -> bounded prec emax m e = true.
Proof.
  intros H1 H2. unfold bounded, canonical_mantissa.
  rewrite andb_true_iff, Z.eqb_eq, Z.leb_le. split; [done|]. exact H2.
Qed.

(** A canonical mantissa has at most 53 digits, and exactly 53 above the
    least exponent. *)
Lemma bounded_digits (m : positive) (e : Z) :
  bounded prec emax m e = true ->
  -1074 <= e /\ Zpos m < 2 ^ 53 /\ (-1074 < e -> 2 ^ 52 <= Zpos m).
Proof.
  intros [H _]%bounded_inv. rewrite fexp_unfold in H.
  pose proof (digits2_pos_bounds m) as [Hlo Hhi].
  assert (Hd : Zpos (digits2_pos m) <= 53) by lia.
  repeat split; [lia | |].
  - assert (2 ^ Zpos (digits2_pos m) <= 2 ^ 53) by (apply Z.pow_le_mono_r; lia). lia.
  - intros He. assert (Zpos (digits2_pos m) = 53) as Heq by lia.
    rewrite Heq in Hlo. exact Hlo.
Qed.

(** *** Shifting right with a round and a sticky bit *)

Lemma iter_pos_nat {A} (f : A -> A) (p : positive) (x : A) :
  SpecFloat.iter_pos f p x = Nat.iter (Pos.to_nat p) f x.
Proof.
  revert x. induction p as [p IH|p IH|]; intros x; cbn [SpecFloat.iter_pos].
  - rewrite !IH, Pos2Nat.inj_xI.
    replace (S (2 * Pos.to_nat p))%nat with (Pos.to_nat p + (Pos.to_nat p + 1))%nat by lia.
    by rewrite !Nat.iter_add.
  - rewrite !IH, Pos2Nat.inj_xO.
    replace (2 * Pos.to_nat p)%nat with (Pos.to_nat p + Pos.to_nat p)%nat by lia.
    by rewrite Nat.iter_add.
  - done.
Qed.

Lemma shr_1_nonneg (m : Z) (r s : bool) :
  0 <= m ->
  shr_1 {| shr_m := m; shr_r := r; shr_s := s |} =
  {| shr_m := m / 2; shr_r := Z.odd m; shr_s := r || s |}.
Proof.
  intros Hm. destruct m as [|[p|p|]|p]; try lia; cbn [shr_1 Z.odd].
  - done.
  - f_equal. rewrite Pos2Z.inj_xI. apply Z.div_unique with 1; lia.
  - f_equal. rewrite Pos2Z.inj_xO. apply Z.div_unique with 0; lia.
  - done.
Qed.

Lemma mod_pow_succ (m : Z) (n : nat) :
  0 <= m ->
  m mod 2 ^ Z.of_nat (S n) = 0 <->
  m mod 2 ^ Z.of_nat n = 0 /\ Z.odd (m / 2 ^ Z.of_nat n) = false.
Proof.
  intros Hm. rewrite Nat2Z.inj_succ, Z.pow_succ_r by lia.
  assert (Hp : 0 < 2 ^ Z.of_nat n) by (apply Z.pow_pos_nonneg; lia).
  split.
  - intros H. apply Z.mod_divide in H; [|lia]. destruct H as [c Hc].
    split.
    + apply Z.mod_divide; [lia|]. exists (2 * c). lia.
    + replace m with ((2 * c) * 2 ^ Z.of_nat n) by lia.
      rewrite Z.div_mul by lia. rewrite Z.odd_mul. done.
  - intros [H1 H2]. apply Z.mod_divide in H1; [|lia]. destruct H1 as [q Hq].
    subst m. rewrite Z.div_mul in H2 by lia.
    rewrite <- Z.negb_even in H2. apply negb_false_iff, Z.even_spec in H2 as [c ->].
    apply Z.mod_divide; [lia|]. exists c. lia.
Qed.

Lemma shr_iter (n : nat) (m : Z) (r s : bool) :
  0 <= m ->
  let mrs := Nat.iter n shr_1 {| shr_m := m; shr_r := r; shr_s := s |} in
  shr_m mrs = m / 2 ^ Z.of_nat n
  /\ (shr_r mrs = false /\ shr_s mrs = false <->
      r = false /\ s = false /\ m mod 2 ^ Z.of_nat n = 0).
Proof.
  intros Hm. induction n as [|n IH].
  - cbn zeta. change (Nat.iter 0 shr_1 ?x) with x.
    cbn [shr_m shr_r shr_s]. change (2 ^ Z.of_nat 0) with 1.
    rewrite Z.div_1_r, Z.mod_1_r. tauto.
  - cbn zeta in *. rewrite Nat.iter_succ.
    destruct (Nat.iter n shr_1 _) as [mn rn sn]. cbn [shr_m shr_r shr_s] in IH.
    destruct IH as [-> IH].
    assert (Hp : 0 < 2 ^ Z.of_nat n) by (apply Z.pow_pos_nonneg; lia).
    rewrite shr_1_nonneg by (apply Z.div_pos; lia). cbn [shr_m shr_r shr_s]. split.
    + rewrite Z.div_div by lia. by rewrite Nat2Z.inj_succ, Z.pow_succ_r, Z.mul_comm by lia.
    + rewrite mod_pow_succ by done. rewrite orb_false_iff. tauto.
Qed.

Lemma loc_of_shr_record_exact (mrs : shr_record) :
  loc_of_shr_record mrs = loc_Exact <-> shr_r mrs = false /\ shr_s mrs = false.
Proof. destruct mrs as [m [|] [|]]; simpl; split; intros; intuition congruence. Qed.

Lemma shr_record_of_loc_m (m : Z) (l : location) : shr_m (shr_record_of_loc m l) = m.
Proof. by destruct l as [|[| |]]. Qed.

Lemma loc_of_shr_record_of_loc (m : Z) (l : location) :
  loc_of_shr_record (shr_record_of_loc m l) = l.
Proof. by destruct l as [|[| |]]. Qed.

(** [shr_fexp] drops the low [k] bits that do not fit, where [k] is the
    distance to the exponent [fexp] asks for, and reports whether
    anything was lost. *)
Lemma shr_fexp_spec (m e : Z) (l : location) :
  0 <= m ->
  let k := Z.max (fexp (Zdigits2 m + e) - e) 0 in
  let '(mrs, e') := shr_fexp prec emax m e l in
  shr_m mrs = m / 2 ^ k /\ e' = e + k
  /\ (loc_of_shr_record mrs = loc_Exact <-> l = loc_Exact /\ m mod 2 ^ k = 0).
Proof.
  intros Hm k. unfold shr_fexp, shr. subst k.
  destruct (fexp (Zdigits2 m + e) - e) as [|p|p] eqn:Hk.
  - cbn [Z.max Z.compare]. change (2 ^ 0) with 1. rewrite Z.div_1_r, Z.mod_1_r.
    rewrite shr_record_of_loc_m, loc_of_shr_record_of_loc. split; [done|]. split; [lia|tauto].
  - replace (Z.max (Zpos p) 0) with (Zpos p) by lia.
    rewrite iter_pos_nat.
    assert (Hrec : exists r s, shr_record_of_loc m l = {| shr_m := m; shr_r := r; shr_s := s |}
                          /\ (l = loc_Exact <-> r = false /\ s = false)).
    { destruct l as [|[| |]]; simpl; eexists _, _; split; try reflexivity;
        split; intros; intuition congruence. }
    destruct Hrec as (r & s & -> & Hl).
    pose proof (shr_iter (Pos.to_nat p) m r s Hm) as [H1 H2].
    rewrite positive_nat_Z in H1, H2. split; [done|]. split; [done|].
    rewrite loc_of_shr_record_exact, H2. tauto.
  - replace (Z.max (Zneg p) 0) with 0 by lia. change (2 ^ 0) with 1.
    rewrite Z.div_1_r, Z.mod_1_r.
    rewrite shr_record_of_loc_m, loc_of_shr_record_of_loc. split; [done|]. split; [lia|tauto].
Qed.

Lemma round_nearest_even_cases (m : Z) (l : location) :
  (round_nearest_even m l = m \/ round_nearest_even m l = m + 1)
  /\ (l = loc_Exact -> round_nearest_even m l = m).
Proof.
  destruct l as [|[| |]]; simpl; try tauto.
  - destruct (Z.even m); split; try tauto; congruence.
  - split; [tauto | congruence].
Qed.

(** *** Rounding stays below a representable bound *)

(** The value that the mantissa [m] and the location [l] stand for is at
    most [B], in units of the current exponent. *)
Definition at_most (m : Z) (l : location) (B : Z) : Prop :=
  m < B \/ (m = B /\ l = loc_Exact).

Lemma shr_fexp_at_most (m e : Z) (l : location) (mb : positive) (eb : Z) :
  0 <= m -> bounded prec emax mb eb = true -> e <= eb ->
  at_most m l (Zpos mb * 2 ^ (eb - e)) ->
  let '(mrs, e') := shr_fexp prec emax m e l in
  0 <= shr_m mrs /\ e' <= eb
  /\ at_most (shr_m mrs) (loc_of_shr_record mrs) (Zpos mb * 2 ^ (eb - e')).
Proof.
  intros Hm Hb He Hle. pose proof (shr_fexp_spec m e l Hm) as Hs. cbv zeta in Hs.
  destruct (shr_fexp prec emax m e l) as [mrs e']. destruct Hs as (Hm' & He' & Hloc).
  set (k := Z.max (fexp (Zdigits2 m + e) - e) 0) in *.
  assert (Hk0 : 0 <= k) by lia.
  assert (Hpk : 0 < 2 ^ k) by (apply Z.pow_pos_nonneg; lia).
  assert (Hpe : 0 < 2 ^ (eb - e)) by (apply Z.pow_pos_nonneg; lia).
  assert (Hmle : m <= Zpos mb * 2 ^ (eb - e)) by (destruct Hle; lia).
  assert (Hke : e + k <= eb).
  { destruct (Z.le_gt_cases (fexp (Zdigits2 m + e) - e) 0); [lia|].
    replace k with (fexp (Zdigits2 m + e) - e) by lia.
    apply bounded_inv in Hb as [Hc _].
    assert (Zdigits2 m <= Zpos (digits2_pos mb) + (eb - e)).
    { change (Zpos (digits2_pos mb)) with (Zdigits2 (Zpos mb)).
      rewrite <- Zdigits2_mul_pow by lia. apply Zdigits2_mono. lia. }
    assert (fexp (Zdigits2 m + e) <= fexp (Zpos (digits2_pos mb) + eb))
      by (apply fexp_mono; lia).
    lia. }
  assert (Hsplit : Zpos mb * 2 ^ (eb - e) = (Zpos mb * 2 ^ (eb - e')) * 2 ^ k).
  { subst e'. rewrite <- Z.mul_assoc, <- Z.pow_add_r by lia. do 2 f_equal. lia. }
  split; [rewrite Hm'; apply Z.div_pos; lia|]. split; [lia|].
  assert (Hdiv : m / 2 ^ k <= Zpos mb * 2 ^ (eb - e')).
  { apply Z.div_le_upper_bound; [lia|]. rewrite Z.mul_comm. lia. }
  rewrite Hm'. destruct (Z.eq_dec (m / 2 ^ k) (Zpos mb * 2 ^ (eb - e'))) as [Heq|Hne].
  - right. split; [done|]. apply Hloc.
    assert (Hge : (m / 2 ^ k) * 2 ^ k <= m).
    { rewrite Z.mul_comm. apply Z.mul_div_le. lia. }
    rewrite Heq, <- Hsplit in Hge.
    assert (Hm_eq : m = Zpos mb * 2 ^ (eb - e)) by lia.
    destruct Hle as [|[_ ->]]; [lia|]. split; [done|].
    rewrite Hm_eq, Hsplit. apply Z.mod_mul. lia.
  - left. lia.
Qed.

Lemma SFleb_zero_finite (s : bool) (m : positive) (e : Z) :
  SFleb (S754_zero s) (S754_finite false m e) = true.
Proof. reflexivity. Qed.

(** Rounding a value that is at most the number [(mb, eb)] gives at most
    that number. *)
Lemma binary_round_aux_le (mx ex : Z) (lx : location) (mb : positive) (eb : Z) :
  0 <= mx -> bounded prec emax mb eb = true -> ex <= eb ->
  at_most mx lx (Zpos mb * 2 ^ (eb - ex)) ->
  SFleb (binary_round_aux prec emax false mx ex lx) (S754_finite false mb eb) = true.
Proof.
  intros Hm Hb He Hle. unfold binary_round_aux.
  pose proof (shr_fexp_at_most mx ex lx mb eb Hm Hb He Hle) as H1.
  destruct (shr_fexp prec emax mx ex lx) as [mrs1 e1]. destruct H1 as (Hm1 & He1 & Hle1).
  set (m2 := round_nearest_even (shr_m mrs1) (loc_of_shr_record mrs1)).
  assert (H2 : 0 <= m2 /\ at_most m2 loc_Exact (Zpos mb * 2 ^ (eb - e1))).
  { subst m2. destruct (round_nearest_even_cases (shr_m mrs1) (loc_of_shr_record mrs1))
      as [Hc Hex].
    destruct Hle1 as [Hlt|[Heq Hl]].
    - split; [lia|]. destruct (Z.eq_dec (round_nearest_even (shr_m mrs1)
        (loc_of_shr_record mrs1)) (Zpos mb * 2 ^ (eb - e1))); [by right | left; lia].
    - rewrite (Hex Hl). split; [lia | by right]. }
  destruct H2 as [Hm2 Hle2].
  pose proof (shr_fexp_at_most m2 e1 loc_Exact mb eb Hm2 Hb He1 Hle2) as H3.
  destruct (shr_fexp prec emax m2 e1 loc_Exact) as [mrs3 e3]. destruct H3 as (Hm3 & He3 & Hle3).
  destruct (shr_m mrs3) as [|p|p] eqn:Hp; [done| |lia].
  apply bounded_inv in Hb as [_ Hb].
  replace (e3 <=? emax - prec) with true by (symmetry; apply Z.leb_le; change (emax - prec) with 971; lia).
  unfold SFleb, SFcompare.
  destruct (Z.compare_spec e3 eb) as [Heq|Hlt|Hgt]; [|done|lia].
  subst e3. rewrite Z.sub_diag in Hle3. change (2 ^ 0) with 1 in Hle3.
  assert (Hpm : (p <= mb)%positive) by (destruct Hle3; lia).
  change (Pos.compare_cont Eq p mb) with (Pos.compare p mb).
  unfold Pos.le in Hpm. by destruct (Pos.compare p mb).
Qed.

(** Rounding a non-negative value gives a non-negative number. *)
Lemma binary_round_aux_nonneg (mx ex : Z) (lx : location) :
  0 <= mx ->
  SFleb (S754_zero false) (binary_round_aux prec emax false mx ex lx) = true.
Proof.
  intros Hm. unfold binary_round_aux.
  pose proof (shr_fexp_spec mx ex lx Hm) as H1. cbv zeta in H1.
  destruct (shr_fexp prec emax mx ex lx) as [mrs1 e1]. destruct H1 as (Hm1 & _ & _).
  set (m2 := round_nearest_even (shr_m mrs1) (loc_of_shr_record mrs1)).
  assert (Hm2 : 0 <= m2).
  { subst m2. destruct (round_nearest_even_cases (shr_m mrs1) (loc_of_shr_record mrs1))
      as [Hc _].
    assert (0 <= shr_m mrs1) by (rewrite Hm1; apply Z.div_pos; [lia | apply Z.pow_pos_nonneg; lia]).
    lia. }
  pose proof (shr_fexp_spec m2 e1 loc_Exact Hm2) as H3. cbv zeta in H3.
  destruct (shr_fexp prec emax m2 e1 loc_Exact) as [mrs3 e3]. destruct H3 as (Hm3 & _ & _).
  assert (0 <= shr_m mrs3) by (rewrite Hm3; apply Z.div_pos; [lia | apply Z.pow_pos_nonneg; lia]).
  destruct (shr_m mrs3) as [|p|p]; [done| |lia].
  by destruct (e3 <=? emax - prec).
Qed.

(** *** Rounding leaves representable values alone *)

Lemma binary_round_aux_exact (s : bool) (m : positive) (e : Z) (mc : positive) (ec : Z) :
  bounded prec emax mc ec = true -> e <= ec ->
  Zpos m = Zpos mc * 2 ^ (ec - e) ->
  binary_round_aux prec emax s (Zpos m) e loc_Exact = S754_finite s mc ec.
Proof.
  intros Hb He Hm. unfold binary_round_aux.
  pose proof (bounded_inv mc ec Hb) as [Hc Hec].
  assert (Hp : 0 < 2 ^ (ec - e)) by (apply Z.pow_pos_nonneg; lia).
  pose proof (shr_fexp_spec (Zpos m) e loc_Exact ltac:(lia)) as H1. cbv zeta in H1.
  destruct (shr_fexp prec emax (Zpos m) e loc_Exact) as [mrs1 e1].
  destruct H1 as (Hm1 & He1 & Hloc).
  assert (Hk : Z.max (fexp (Zdigits2 (Zpos m) + e) - e) 0 = ec - e).
  { rewrite Hm, Zdigits2_mul_pow by lia.
    replace (Zdigits2 (Zpos mc) + (ec - e) + e) with (Zpos (digits2_pos mc) + ec)
      by (cbn [Zdigits2]; lia).
    rewrite Hc. lia. }
  rewrite Hk in Hm1, He1, Hloc.
  assert (Hm1' : shr_m mrs1 = Zpos mc) by (rewrite Hm1, Hm; apply Z.div_mul; lia).
  assert (Hex : loc_of_shr_record mrs1 = loc_Exact).
  { apply Hloc. split; [done|]. rewrite Hm. apply Z.mod_mul. lia. }
  rewrite Hex, Hm1'. cbn [round_nearest_even].
  assert (He1' : e1 = ec) by lia. clear He1. subst e1.
  pose proof (shr_fexp_spec (Zpos mc) ec loc_Exact ltac:(lia)) as H3. cbv zeta in H3.
  destruct (shr_fexp prec emax (Zpos mc) ec loc_Exact) as [mrs3 e3].
  destruct H3 as (Hm3 & He3 & _).
  assert (Hk3 : Z.max (fexp (Zdigits2 (Zpos mc) + ec) - ec) 0 = 0).
  { cbn [Zdigits2]. rewrite Hc. lia. }
  rewrite Hk3 in Hm3, He3. change (2 ^ 0) with 1 in Hm3. rewrite Z.div_1_r in Hm3.
  rewrite Hm3. replace e3 with ec by lia.
  replace (ec <=? emax - prec) with true; [done|].
  symmetry. apply Z.leb_le. change (emax - prec) with 971. lia.
Qed.

Lemma pos_iter_xO (m d : positive) : Zpos (Pos.iter xO m d) = Zpos m * 2 ^ Zpos d.
Proof.
  induction d as [|d IH] using Pos.peano_ind.
  - simpl. lia.
  - rewrite Pos.iter_succ, Pos2Z.inj_xO, IH, Pos2Z.inj_succ, Z.pow_succ_r by lia. lia.
Qed.

Lemma shl_align_fst (m : positive) (e e' : Z) :
  e' <= e -> Zpos (shl_align m e e').1 = Zpos m * 2 ^ (e - e').
Proof.
  intros He. unfold shl_align. destruct (e' - e) as [|d|d] eqn:Hd; try lia.
  - replace (e - e') with 0 by lia. simpl. lia.
  - cbn [fst]. rewrite pos_iter_xO. do 2 f_equal. lia.
Qed.

(** [binary_round] on a value that a canonical number [(mc, ec)] has. *)
Lemma binary_round_exact (s : bool) (m : positive) (e : Z) (mc : positive) (ec : Z) :
  bounded prec emax mc ec = true ->
  Zpos m * 2 ^ (e - Z.min e ec) = Zpos mc * 2 ^ (ec - Z.min e ec) ->
  binary_round prec emax s m e = S754_finite s mc ec.
Proof.
  intros Hb Hv. unfold binary_round.
  pose proof (bounded_inv mc ec Hb) as [Hc Hec].
  assert (Hd : Zpos (digits2_pos m) + e = Zpos (digits2_pos mc) + ec).
  { assert (Zdigits2 (Zpos m * 2 ^ (e - Z.min e ec))
            = Zdigits2 (Zpos mc * 2 ^ (ec - Z.min e ec))) as H by (by rewrite Hv).
    rewrite !Zdigits2_mul_pow in H by lia. cbn [Zdigits2] in H. lia. }
  rewrite Hd, Hc.
  destruct (Z.le_gt_cases e ec) as [Hle|Hgt].
  - unfold shl_align. destruct (ec - e) as [|d|d] eqn:Hde; try lia.
    + apply binary_round_aux_exact; [done|lia|].
      replace (Z.min e ec) with e in Hv by lia. rewrite Z.sub_diag in Hv.
      change (2 ^ 0) with 1 in Hv. lia.
    + apply binary_round_aux_exact; [done|lia|].
      replace (Z.min e ec) with e in Hv by lia. rewrite Z.sub_diag in Hv.
      change (2 ^ 0) with 1 in Hv. lia.
  - pose proof (shl_align_fst m e ec ltac:(lia)) as Hf.
    unfold shl_align in *. destruct (ec - e) as [|d|d] eqn:Hde; try lia.
    cbn [fst] in Hf. apply binary_round_aux_exact; [done|lia|].
    rewrite Z.sub_diag. change (2 ^ 0) with 1. rewrite Hf.
    replace (Z.min e ec) with ec in Hv by lia. rewrite Z.sub_diag in Hv.
    change (2 ^ 0) with 1 in Hv. lia.
Qed.

(** *** Integers below [2^53] as numbers *)

(** The canonical mantissa and exponent of a positive integer with at
    most 53 digits. *)
Definition canonical_of (n : Z) : spec_float :=
  match n with
  | Zpos p => S754_finite false (Z.to_pos (n * 2 ^ (53 - Zdigits2 n))) (Zdigits2 n - 53)
  | _ => S754_zero false
  end.

Lemma canonical_of_bounded (n : Z) :
  0 < n < 2 ^ 53 ->
  0 < n * 2 ^ (53 - Zdigits2 n)
  /\ bounded prec emax (Z.to_pos (n * 2 ^ (53 - Zdigits2 n))) (Zdigits2 n - 53) = true.
Proof.
  intros [Hn Hlt]. pose proof (Zdigits2_pos n Hn) as Hd.
  assert (Hd53 : Zdigits2 n <= 53) by (apply Zdigits2_le; lia).
  assert (Hp : 0 < 2 ^ (53 - Zdigits2 n)) by (apply Z.pow_pos_nonneg; lia).
  split; [nia|]. apply bounded_intro; [|lia].
  change (Zpos (digits2_pos ?p)) with (Zdigits2 (Zpos p)).
  rewrite Z2Pos.id by nia. rewrite Zdigits2_mul_pow by lia.
  rewrite fexp_unfold. lia.
Qed.

Lemma binary_normalize_exact (n : Z) :
  0 <= n < 2 ^ 53 -> binary_normalize prec emax n 0 false = canonical_of n.
Proof.
  intros [Hn Hlt]. destruct n as [|p|p]; [done| |lia].
  cbn [binary_normalize canonical_of].
  destruct (canonical_of_bounded (Zpos p) ltac:(lia)) as [Hpos Hb].
  pose proof (Zdigits2_pos (Zpos p) ltac:(lia)) as Hd.
  assert (Hd53 : Zdigits2 (Zpos p) <= 53) by (apply Zdigits2_le; lia).
  apply binary_round_exact; [done|].
  rewrite Z2Pos.id by done.
  replace (Z.min 0 (Zdigits2 (Zpos p) - 53)) with (Zdigits2 (Zpos p) - 53) by lia.
  rewrite Z.sub_diag. change (2 ^ 0) with 1.
  replace (0 - (Zdigits2 (Zpos p) - 53)) with (53 - Zdigits2 (Zpos p)) by lia. lia.
Qed.

Lemma Prim2SF_Num (n : nat) :
  Z.of_nat n < 2 ^ 53 -> Prim2SF (JsNumber.Num n) = canonical_of (Z.of_nat n).
Proof.
  intros Hn. unfold JsNumber.Num. rewrite of_uint63_spec.
  rewrite Uint63.of_Z_spec. rewrite Z.mod_small.
  - apply binary_normalize_exact. lia.
  - split; [lia|]. eapply Z.lt_trans; [exact Hn|]. reflexivity.
Qed.

Lemma SFleb_finite_inv (m1 m2 : positive) (e1 e2 : Z) :
  SFleb (S754_finite false m1 e1) (S754_finite false m2 e2) = true ->
  e1 < e2 \/ (e1 = e2 /\ Zpos m1 <= Zpos m2).
Proof.
  unfold SFleb, SFcompare.
  destruct (Z.compare_spec e1 e2) as [->|Hlt|Hgt]; [|left; lia|done].
  change (Pos.compare_cont Eq m1 m2) with (Pos.compare m1 m2).
  destruct (Pos.compare_spec m1 m2) as [Heq|Hlt|Hgt]; intros Hc; [right; lia|right; lia|done].
Qed.

(** *** A quotient of a smaller by a larger number, as a percentage *)

Definition SF_one : spec_float := S754_finite false 4503599627370496 (-52).
Definition SF_100 : spec_float := S754_finite false 7036874417766400 (-46).

Lemma Prim2SF_one : Prim2SF 1%float = SF_one.
Proof. reflexivity. Qed.

Lemma Prim2SF_100 : Prim2SF 100%float = SF_100.
Proof. reflexivity. Qed.

Lemma Prim2SF_zero : Prim2SF 0%float = S754_zero false.
Proof. reflexivity. Qed.

Lemma new_location_zero (nb : Z) : new_location nb 0 = loc_Exact.
Proof. unfold new_location. by destruct (Z.even nb). Qed.

Lemma div_eucl_div_mod (a b : Z) : Z.div_eucl a b = (a / b, a mod b).
Proof. unfold Z.div, Z.modulo. by destruct (Z.div_eucl a b). Qed.

(** The value of [(m1, e1)] is at most the value of [(m2, e2)]. *)
Definition value_le (m1 : positive) (e1 : Z) (m2 : positive) (e2 : Z) : Prop :=
  Zpos m1 * 2 ^ (e1 - Z.min e1 e2) <= Zpos m2 * 2 ^ (e2 - Z.min e1 e2).

Lemma SFdiv_le_one (m1 m2 : positive) (e1 e2 : Z) :
  value_le m1 e1 m2 e2 ->
  let q := SFdiv prec emax (S754_finite false m1 e1) (S754_finite false m2 e2) in
  SFleb (S754_zero false) q = true /\ SFleb q SF_one = true.
Proof.
  unfold value_le. intros Hv. cbn [SFdiv xorb].
  unfold SFdiv_core_binary. cbn [Zdigits2].
  set (d1 := Zpos (digits2_pos m1)). set (d2 := Zpos (digits2_pos m2)).
  set (e' := Z.min (fexp (d1 + e1 - (d2 + e2))) (e1 - e2)).
  set (s := e1 - e2 - e').
  assert (Hs : 0 <= s) by (subst s e'; lia).
  assert (Hd : d1 + e1 <= d2 + e2).
  { assert (Zdigits2 (Zpos m1 * 2 ^ (e1 - Z.min e1 e2))
            <= Zdigits2 (Zpos m2 * 2 ^ (e2 - Z.min e1 e2))) as H.
    { apply Zdigits2_mono. split; [|done].
      apply Z.mul_nonneg_nonneg; [lia | apply Z.pow_nonneg; lia]. }
    rewrite !Zdigits2_mul_pow in H by lia. cbn [Zdigits2] in H. subst d1 d2. lia. }
  assert (He' : e' <= -53).
  { subst e'. assert (fexp (d1 + e1 - (d2 + e2)) <= fexp 0) by (apply fexp_mono; lia).
    change (fexp 0) with (-53) in *. lia. }
  set (m' := match s with Zpos _ => Z.shiftl (Zpos m1) s | 0 => Zpos m1 | Zneg _ => 0 end).
  assert (Hm' : m' = Zpos m1 * 2 ^ s).
  { subst m'. destruct s as [|ps|ps] eqn:Es; [simpl; lia | | lia].
    by rewrite Z.shiftl_mul_pow2. }
  rewrite div_eucl_div_mod.
  assert (Hps : 0 < 2 ^ s) by (apply Z.pow_pos_nonneg; lia).
  assert (Hpe : 0 < 2 ^ (- e')) by (apply Z.pow_pos_nonneg; lia).
  assert (Hbound : m' <= Zpos m2 * 2 ^ (- e')).
  { rewrite Hm'. destruct (Z.le_gt_cases e1 e2) as [Hle|Hgt].
    - replace (Z.min e1 e2) with e1 in Hv by lia. rewrite Z.sub_diag in Hv.
      change (2 ^ 0) with 1 in Hv.
      replace (- e') with ((e2 - e1) + s) by (subst s; lia).
      rewrite Z.pow_add_r by lia. nia.
    - replace (Z.min e1 e2) with e2 in Hv by lia. rewrite Z.sub_diag in Hv.
      change (2 ^ 0) with 1 in Hv.
      replace s with ((e1 - e2) + (- e')) by (subst s; lia).
      rewrite Z.pow_add_r by lia. nia. }
  assert (Hq0 : 0 <= m' / Zpos m2) by (apply Z.div_pos; nia).
  split; [by apply binary_round_aux_nonneg|].
  apply binary_round_aux_le; [done | done | lia |].
  replace (-52 - e') with (- e' - 52) by lia.
  replace (4503599627370496 * 2 ^ (- e' - 52)) with (2 ^ (- e')).
  2:{ change 4503599627370496 with (2 ^ 52). rewrite <- Z.pow_add_r by lia.
      f_equal. lia. }
  assert (Hqle : m' / Zpos m2 <= 2 ^ (- e')).
  { apply Z.div_le_upper_bound; [lia|]. lia. }
  destruct (Z.eq_dec (m' / Zpos m2) (2 ^ (- e'))) as [Heq|Hne]; [|left; lia].
  right. split; [done|].
  assert (Hge : Zpos m2 * (m' / Zpos m2) <= m') by (apply Z.mul_div_le; lia).
  rewrite Heq in Hge. assert (Hmeq : m' = 2 ^ (- e') * Zpos m2) by lia.
  rewrite Hmeq, Z.mod_mul by lia. apply new_location_zero.
Qed.

Lemma SFmul_100_range (x : spec_float) :
  valid_binary x = true ->
  SFleb (S754_zero false) x = true -> SFleb x SF_one = true ->
  SFleb (S754_zero false) (SFmul prec emax x SF_100) = true
  /\ SFleb (SFmul prec emax x SF_100) SF_100 = true.
Proof.
  intros Hvalid H0 H1. destruct x as [s|s| |s m e]; try done.
  - by destruct s.
  - destruct s; [done|]. cbn [SFmul SF_100 xorb]. unfold SF_100.
    split; [by apply binary_round_aux_nonneg|].
    cbn [valid_binary] in Hvalid. pose proof (bounded_digits m e Hvalid) as (He & Hm & _).
    assert (Hle : e < -52 \/ (e = -52 /\ Zpos m <= 4503599627370496)).
    { by apply SFleb_finite_inv. }
    apply binary_round_aux_le; [lia | done | lia |].
    replace (-46 - (e + -46)) with (- e) by lia.
    assert (0 < 2 ^ (- e)) by (apply Z.pow_pos_nonneg; lia).
    assert (Hmb : Zpos m <= 2 ^ (- e)).
    { destruct Hle as [Hlt|[-> Hm']]; [|exact Hm'].
      assert (2 ^ 53 <= 2 ^ (- e)) by (apply Z.pow_le_mono_r; lia). lia. }
    rewrite Pos2Z.inj_mul.
    destruct (Z.eq_dec (Zpos m) (2 ^ (- e))) as [Heq|Hne]; [right; split; [lia|done]|].
    left. nia.
Qed.

Lemma canonical_value_le (a b : Z) :
  0 < a -> a <= b -> b < 2 ^ 53 ->
  value_le (Z.to_pos (a * 2 ^ (53 - Zdigits2 a))) (Zdigits2 a - 53)
           (Z.to_pos (b * 2 ^ (53 - Zdigits2 b))) (Zdigits2 b - 53).
Proof.
  intros Ha Hab Hb. unfold value_le.
  destruct (canonical_of_bounded a ltac:(lia)) as [Hpa _].
  destruct (canonical_of_bounded b ltac:(lia)) as [Hpb _].
  rewrite !Z2Pos.id by done.
  pose proof (Zdigits2_mono a b ltac:(lia)) as Hd.
  pose proof (Zdigits2_pos a Ha) as Hda.
  assert (Hdb : Zdigits2 b <= 53) by (apply Zdigits2_le; lia).
  replace (Z.min (Zdigits2 a - 53) (Zdigits2 b - 53)) with (Zdigits2 a - 53) by lia.
  rewrite Z.sub_diag. change (2 ^ 0) with 1.
  replace (Zdigits2 b - 53 - (Zdigits2 a - 53)) with (Zdigits2 b - Zdigits2 a) by lia.
  rewrite Z.mul_1_r, <- (Z.mul_assoc b), <- Z.pow_add_r by lia.
  replace (53 - Zdigits2 b + (Zdigits2 b - Zdigits2 a)) with (53 - Zdigits2 a) by lia.
  assert (0 < 2 ^ (53 - Zdigits2 a)) by (apply Z.pow_pos_nonneg; lia).
  nia.
Qed.

(** The percentage [(h / t) * 100] of two counters [h <= t] lies between
    0 and 100. *)
Lemma percent_range (h t : nat) :
  (h <= t)%nat -> (0 < t)%nat -> Z.of_nat t < 2 ^ 53 ->
  (0 <=? JsNumber.Num h / JsNumber.Num t * 100)%float = true
  /\ (JsNumber.Num h / JsNumber.Num t * 100 <=? 100)%float = true.
Proof.
  intros Hht Ht Hlt.
  pose proof (Prim2SF_valid (JsNumber.Num h / JsNumber.Num t)) as Hvalid.
  rewrite !FloatAxioms.leb_spec, FloatAxioms.mul_spec, Prim2SF_100, Prim2SF_zero.
  rewrite FloatAxioms.div_spec, !Prim2SF_Num in * by lia.
  unfold SF64mul, SF64div in *.
  set (q := SFdiv prec emax (canonical_of (Z.of_nat h)) (canonical_of (Z.of_nat t))) in *.
  assert (Hq : SFleb (S754_zero false) q = true /\ SFleb q SF_one = true).
  { subst q. destruct (Z.of_nat t) as [|pt|pt] eqn:Et; [lia| |lia].
    destruct (Z.of_nat h) as [|ph|ph] eqn:Eh; [done| |lia].
    unfold canonical_of. apply SFdiv_le_one. apply canonical_value_le; lia. }
  destruct Hq as [Hq0 Hq1]. by apply SFmul_100_range.
Qed.

(** *** Subtracting one from a length *)

Lemma canonical_of_pos (n : Z) :
  0 < n ->
  canonical_of n = S754_finite false (Z.to_pos (n * 2 ^ (53 - Zdigits2 n))) (Zdigits2 n - 53).
Proof. destruct n; try lia. done. Qed.

Lemma Num_pred (n : nat) :
  (1 <= n)%nat -> Z.of_nat n < 2 ^ 53 ->
  (JsNumber.Num n - 1)%float = JsNumber.Num (n - 1).
Proof.
  intros Hn Hlt. apply Prim2SF_inj.
  rewrite FloatAxioms.sub_spec, !Prim2SF_Num, Prim2SF_one by lia.
  replace (Z.of_nat (n - 1)) with (Z.of_nat n - 1) by lia.
  set (z := Z.of_nat n) in *. assert (Hz : 1 <= z) by lia. clearbody z. clear n Hn.
  rewrite (canonical_of_pos z) by lia.
  destruct (canonical_of_bounded z ltac:(lia)) as [Hpos Hb].
  pose proof (Zdigits2_pos z ltac:(lia)) as Hd.
  assert (Hd53 : Zdigits2 z <= 53) by (apply Zdigits2_le; lia).
  unfold SF64sub, SF_one. cbn [SFsub cond_Zopp].
  replace (Z.min (Zdigits2 z - 53) (-52)) with (-52) by lia.
  rewrite !shl_align_fst by lia. rewrite Z2Pos.id by done.
  replace (Zdigits2 z - 53 - -52) with (Zdigits2 z - 1) by lia.
  rewrite <- Z.mul_assoc, <- Z.pow_add_r by lia.
  replace (53 - Zdigits2 z + (Zdigits2 z - 1)) with 52 by lia.
  change (-52 - -52) with 0. change (2 ^ 0) with 1. change (2 ^ 52) with 4503599627370496.
  replace (z * 4503599627370496 - 4503599627370496 * 1) with ((z - 1) * 4503599627370496) by lia.
  destruct (Z.eq_dec z 1) as [->|Hne]; [done|].
  rewrite (canonical_of_pos (z - 1)) by lia.
  destruct (canonical_of_bounded (z - 1) ltac:(lia)) as [Hpos' Hb'].
  pose proof (Zdigits2_pos (z - 1) ltac:(lia)) as Hd'.
  assert (Hd53' : Zdigits2 (z - 1) <= 53) by (apply Zdigits2_le; lia).
  destruct ((z - 1) * 4503599627370496) as [|p|p] eqn:Ep; [lia| |lia].
  cbn [binary_normalize]. apply binary_round_exact; [done|].
  rewrite Z2Pos.id by done.
  replace (Z.min (-52) (Zdigits2 (z - 1) - 53)) with (-52) by lia.
  change (-52 - -52) with 0. change (2 ^ 0) with 1.
  replace (Zdigits2 (z - 1) - 53 - -52) with (Zdigits2 (z - 1) - 1) by lia.
  rewrite <- Z.mul_assoc, <- Z.pow_add_r by lia.
  replace (53 - Zdigits2 (z - 1) + (Zdigits2 (z - 1) - 1)) with 52 by lia.
  change (2 ^ 52) with 4503599627370496. lia.
Qed.

(** *** A fraction of a length, floored, is an index below it *)

Lemma SFmul_fraction_le (mc mp : positive) (ec ep : Z) :
  bounded prec emax mc ec = true -> ep <= 0 -> Zpos mp <= 2 ^ (- ep) ->
  let y := SFmul prec emax (S754_finite false mc ec) (S754_finite false mp ep) in
  SFleb (S754_zero false) y = true /\ SFleb y (S754_finite false mc ec) = true.
Proof.
  intros Hb Hep Hmp. cbn [SFmul xorb]. split; [apply binary_round_aux_nonneg; lia|].
  apply binary_round_aux_le; [lia | done | lia |].
  replace (ec - (ec + ep)) with (- ep) by lia. rewrite Pos2Z.inj_mul.
  destruct (Z.eq_dec (Zpos mp) (2 ^ (- ep))) as [Heq|Hne].
  - right. split; [by rewrite Heq | done].
  - left. nia.
Qed.

(** The integer part of a non-negative number. *)
Definition SF_floorZ (y : spec_float) : Z :=
  match y with
  | S754_finite false m e => if 0 <=? e then Zpos m * 2 ^ e else Zpos m / 2 ^ (- e)
  | _ => 0
  end.

Lemma array_index_canonical (q : Z) :
  0 <= q < 2 ^ 53 -> JsNumber.array_index (SF2Prim (canonical_of q)) = Some q.
Proof.
  intros [Hq Hlt]. unfold JsNumber.array_index.
  destruct (Z.eq_dec q 0) as [->|Hne]; [done|].
  destruct (canonical_of_bounded q ltac:(lia)) as [Hpos Hb].
  rewrite Prim2SF_SF2Prim by (rewrite canonical_of_pos by lia; exact Hb).
  rewrite canonical_of_pos by lia.
  pose proof (Zdigits2_pos q ltac:(lia)) as Hd.
  assert (Hd53 : Zdigits2 q <= 53) by (apply Zdigits2_le; lia).
  rewrite Z2Pos.id by done.
  destruct (Z.leb_spec 0 (Zdigits2 q - 53)) as [Hge|Hlt'].
  - replace (Zdigits2 q - 53) with 0 by lia.
    replace (53 - Zdigits2 q) with 0 by lia. rewrite Z.shiftl_0_r. f_equal. simpl. lia.
  - replace (- (Zdigits2 q - 53)) with (53 - Zdigits2 q) by lia.
    rewrite Z.shiftr_div_pow2, Z.div_mul by (try apply Z.pow_nonzero; lia).
    rewrite Z.shiftl_mul_pow2, Z.eqb_refl by lia. done.
Qed.

Lemma array_index_floor (x : float) :
  SFleb (S754_zero false) (Prim2SF x) = true ->
  is_infinity x = false -> SF_floorZ (Prim2SF x) < 2 ^ 53 ->
  JsNumber.array_index (JsNumber.Math_floor x) = Some (SF_floorZ (Prim2SF x)).
Proof.
  intros H0 Hinf Hlt. pose proof (Prim2SF_valid x) as Hvalid.
  unfold JsNumber.Math_floor.
  destruct (Prim2SF x) as [s|s| |s m e] eqn:Ex; try done.
  - cbn [JsNumber.SFfloor SF_floorZ]. rewrite <- Ex, SF2Prim_Prim2SF.
    unfold JsNumber.array_index. by rewrite Ex.
  - exfalso. assert (Hx : x = SF2Prim (S754_infinity s)) by (by rewrite <- Ex, SF2Prim_Prim2SF).
    subst x. by destruct s.
  - destruct s; [done|]. cbn [JsNumber.SFfloor SF_floorZ] in *.
    destruct (Z.leb_spec 0 e) as [He|He].
    + rewrite <- Ex, SF2Prim_Prim2SF. unfold JsNumber.array_index. rewrite Ex.
      destruct (Z.leb_spec 0 e); [|lia]. by rewrite Z.shiftl_mul_pow2.
    + rewrite Z.shiftr_div_pow2 by lia.
      assert (Hq : 0 <= Zpos m / 2 ^ (- e)).
      { apply Z.div_pos; [lia | apply Z.pow_pos_nonneg; lia]. }
      rewrite binary_normalize_exact by lia. by apply array_index_canonical.
Qed.

Lemma is_infinity_Prim2SF (x : float) :
  is_infinity x = true -> exists s, Prim2SF x = S754_infinity s.
Proof.
  unfold is_infinity. rewrite FloatAxioms.eqb_spec, FloatAxioms.abs_spec.
  change (Prim2SF infinity) with (S754_infinity false).
  destruct (Prim2SF x) as [s|s| |s m e]; try done. intros _. by exists s.
Qed.

(** For a fraction [0 < pct <= 1], the index [floor((n - 1) * pct)] is an
    index into an array of length [n]. *)
Lemma fraction_index (n : nat) (pct : float) (mp : positive) (ep : Z) :
  Prim2SF pct = S754_finite false mp ep -> ep <= 0 -> Zpos mp <= 2 ^ (- ep) ->
  (1 <= n)%nat -> Z.of_nat n < 2 ^ 53 ->
  exists i, JsNumber.array_index (JsNumber.Math_floor ((JsNumber.Num n - 1) * pct)%float) = Some i
            /\ 0 <= i < Z.of_nat n.
Proof.
  intros Hpct Hep Hmp Hn Hlt. rewrite Num_pred by done.
  set (x := (JsNumber.Num (n - 1) * pct)%float).
  pose proof (Prim2SF_valid x) as Hvalid.
  assert (Hx : Prim2SF x = SFmul prec emax (canonical_of (Z.of_nat (n - 1)))
                             (S754_finite false mp ep)).
  { unfold x. by rewrite FloatAxioms.mul_spec, Prim2SF_Num, Hpct by lia. }
  replace (Z.of_nat (n - 1)) with (Z.of_nat n - 1) in Hx by lia.
  set (k := Z.of_nat n - 1) in *. assert (Hk : 0 <= k < 2 ^ 53) by lia.
  assert (Hkn : k < Z.of_nat n) by lia. clearbody k.
  destruct (Z.eq_dec k 0) as [->|Hk0].
  { exists 0. split; [|lia]. cbn [canonical_of SFmul xorb] in Hx.
    unfold JsNumber.Math_floor. rewrite Hx. cbn [JsNumber.SFfloor].
    rewrite <- Hx, SF2Prim_Prim2SF. unfold JsNumber.array_index. by rewrite Hx. }
  rewrite canonical_of_pos in Hx by lia.
  destruct (canonical_of_bounded k ltac:(lia)) as [Hpos Hb].
  pose proof (Zdigits2_pos k ltac:(lia)) as Hd.
  pose proof (Zdigits2_bounds k ltac:(lia)) as [Hklo _].
  assert (Hd53 : Zdigits2 k <= 53) by (apply Zdigits2_le; lia).
  destruct (SFmul_fraction_le _ mp _ ep Hb Hep Hmp) as [H0 H1].
  rewrite <- Hx in H0, H1.
  assert (Hfloor : 0 <= SF_floorZ (Prim2SF x) <= k).
  { destruct (Prim2SF x) as [s|s| |s my ey]; cbn [SF_floorZ];
      [lia | by destruct s | done |].
    destruct s; [done|].
    cbn [valid_binary] in Hvalid. pose proof (bounded_digits my ey Hvalid) as (_ & Hmy & _).
    assert (Hle : ey < Zdigits2 k - 53
                  \/ (ey = Zdigits2 k - 53 /\ Zpos my <= k * 2 ^ (53 - Zdigits2 k))).
    { apply SFleb_finite_inv in H1. rewrite Z2Pos.id in H1 by done. exact H1. }
    destruct (Z.leb_spec 0 ey) as [Hey|Hey].
    - assert (ey = 0 /\ Zdigits2 k = 53) as [-> Hdk] by lia.
      destruct Hle as [|[_ Hle]]; [lia|]. rewrite Hdk in Hle.
      change (2 ^ (53 - 53)) with 1 in Hle. change (2 ^ 0) with 1. lia.
    - assert (Hp : 0 < 2 ^ (- ey)) by (apply Z.pow_pos_nonneg; lia).
      split; [apply Z.div_pos; lia|].
      destruct Hle as [Hlt'|[-> Hle]].
      + assert (Zpos my / 2 ^ (- ey) < 2 ^ (Zdigits2 k - 1)); [|lia].
        apply Z.div_lt_upper_bound; [lia|]. rewrite <- Z.pow_add_r by lia.
        assert (2 ^ 53 <= 2 ^ (- ey + (Zdigits2 k - 1))) by (apply Z.pow_le_mono_r; lia).
        lia.
      + replace (- (Zdigits2 k - 53)) with (53 - Zdigits2 k) by lia.
        apply Z.div_le_upper_bound; [apply Z.pow_pos_nonneg; lia|]. lia. }
  exists (SF_floorZ (Prim2SF x)). split; [|lia].
  apply array_index_floor; [done| |lia].
  destruct (is_infinity x) eqn:Hinf; [|done].
  apply is_infinity_Prim2SF in Hinf as [s Hs]. rewrite Hs in H0, H1. by destruct s.
Qed.

Lemma Prim2SF_095 : Prim2SF 0.95%float = S754_finite false 8556839292003942 (-53).
Proof. reflexivity. Qed.

(** The index that [percentile values 0.95] computes is an index of
    [values]. *)
Lemma p95_index (n : nat) :
  (1 <= n)%nat -> Z.of_nat n < 2 ^ 53 ->
  exists i, JsNumber.array_index (JsNumber.Math_floor ((JsNumber.Num n - 1) * 0.95)%float) = Some i
            /\ 0 <= i < Z.of_nat n.
Proof.
  intros Hn Hlt. eapply fraction_index; [apply Prim2SF_095 | lia | | done | done].
  change (2 ^ (- -53)) with 9007199254740992. lia.
Qed.

(** *** The order of numbers

    Every finite binary64 number is an integer multiple of [2^-1074];
    [SF_rank] is that integer, and the infinities are put beyond. *)

Definition SF_rank (x : spec_float) : Z :=
  match x with
  | S754_zero _ => 0
  | S754_finite s m e => cond_Zopp s (Zpos m * 2 ^ (e + 1074))
  | S754_infinity s => cond_Zopp s (2 ^ 2100)
  | S754_nan => 0
  end.

Definition SF_is_nan (x : spec_float) : bool :=
  match x with S754_nan => true | _ => false end.

Lemma finite_rank_bounds (m : positive) (e : Z) :
  bounded prec emax m e = true -> 0 < Zpos m * 2 ^ (e + 1074) < 2 ^ 2100.
Proof.
  intros Hb. pose proof (bounded_digits m e Hb) as (He & Hm & _).
  apply bounded_inv in Hb as [_ He'].
  assert (0 < 2 ^ (e + 1074)) by (apply Z.pow_pos_nonneg; lia).
  split; [nia|].
  assert (2 ^ (e + 1074) <= 2 ^ 2045) by (apply Z.pow_le_mono_r; lia).
  replace (2 ^ 2100) with (2 ^ 55 * 2 ^ 2045) by (by rewrite <- Z.pow_add_r).
  assert (0 < 2 ^ 2045) by (apply Z.pow_pos_nonneg; lia).
  assert (2 ^ 53 < 2 ^ 55) by (by apply Z.pow_lt_mono_r).
  nia.
Qed.

Lemma canonical_lt (m1 m2 : positive) (e1 e2 : Z) :
  bounded prec emax m1 e1 = true -> bounded prec emax m2 e2 = true -> e1 < e2 ->
  Zpos m1 * 2 ^ (e1 + 1074) < Zpos m2 * 2 ^ (e2 + 1074).
Proof.
  intros Hb1 Hb2 He.
  pose proof (bounded_digits m1 e1 Hb1) as (He1 & Hm1 & _).
  pose proof (bounded_digits m2 e2 Hb2) as (He2 & _ & Hm2). specialize (Hm2 ltac:(lia)).
  assert (Hp1 : 0 < 2 ^ (e1 + 1074)) by (apply Z.pow_pos_nonneg; lia).
  assert (Hle : 2 ^ (e1 + 1075) <= 2 ^ (e2 + 1074)) by (apply Z.pow_le_mono_r; lia).
  replace (e1 + 1075) with (Z.succ (e1 + 1074)) in Hle by lia.
  rewrite Z.pow_succ_r in Hle by lia.
  change (2 ^ 53) with (2 * 2 ^ 52) in Hm1.
  assert (0 < 2 ^ 52) by done.
  nia.
Qed.

Lemma finite_compare_rank (m1 m2 : positive) (e1 e2 : Z) :
  bounded prec emax m1 e1 = true -> bounded prec emax m2 e2 = true ->
  match e1 ?= e2 with
  | Lt => Lt
  | Gt => Gt
  | Eq => Pos.compare_cont Eq m1 m2
  end = (Zpos m1 * 2 ^ (e1 + 1074) ?= Zpos m2 * 2 ^ (e2 + 1074)).
Proof.
  intros Hb1 Hb2. destruct (Z.compare_spec e1 e2) as [->|Hlt|Hgt].
  - pose proof (bounded_digits m2 e2 Hb2) as (He2 & _ & _).
    assert (0 < 2 ^ (e2 + 1074)) by (apply Z.pow_pos_nonneg; lia).
    change (Pos.compare_cont Eq m1 m2) with (Zpos m1 ?= Zpos m2).
    symmetry. destruct (Z.compare_spec (Zpos m1) (Zpos m2)) as [Heq|?|?].
    + rewrite Heq. apply Z.compare_refl.
    + apply Z.compare_lt_iff. nia.
    + apply Z.compare_gt_iff. nia.
  - symmetry. apply Z.compare_lt_iff. by apply canonical_lt.
  - symmetry. apply Z.compare_gt_iff. by apply canonical_lt.
Qed.

Ltac solve_compare :=
  match goal with
  | |- Lt = (_ ?= _) => symmetry; apply Z.compare_lt_iff; lia
  | |- Gt = (_ ?= _) => symmetry; apply Z.compare_gt_iff; lia
  | |- Eq = (_ ?= _) => symmetry; apply Z.compare_eq_iff; lia
  end.

(** Comparison of numbers is comparison of their ranks. *)
Lemma SFcompare_rank (x y : spec_float) :
  valid_binary x = true -> valid_binary y = true ->
  SF_is_nan x = false -> SF_is_nan y = false ->
  SFcompare x y = Some (SF_rank x ?= SF_rank y).
Proof.
  intros Hx Hy Hnx Hny.
  assert (Hinf : 0 < 2 ^ 2100) by (by apply Z.pow_pos_nonneg).
  destruct x as [sx|sx| |sx mx ex], y as [sy|sy| |sy my ey]; try done;
    cbn [valid_binary] in Hx, Hy;
    try pose proof (finite_rank_bounds mx ex Hx);
    try pose proof (finite_rank_bounds my ey Hy);
    cbn [SFcompare SF_rank]; f_equal.
  - destruct sy; cbn [cond_Zopp]; solve_compare.
  - destruct sy; cbn [cond_Zopp]; solve_compare.
  - destruct sx; cbn [cond_Zopp]; solve_compare.
  - destruct sx, sy; cbn [cond_Zopp]; solve_compare.
  - destruct sx, sy; cbn [cond_Zopp]; solve_compare.
  - destruct sx; cbn [cond_Zopp]; solve_compare.
  - destruct sx, sy; cbn [cond_Zopp]; solve_compare.
  - destruct sx, sy; cbn [cond_Zopp]; try solve_compare.
    + rewrite Z.compare_opp, Z.compare_antisym, <- (finite_compare_rank my mx ey ex) by done.
      rewrite (Z.compare_antisym ex ey), (Pos.compare_cont_antisym mx my Eq).
      by destruct (ex ?= ey).
    + by apply finite_compare_rank.
Qed.

(** *** The sign of a difference *)

(** Rounding keeps the sign. *)
Lemma binary_round_aux_sign (s : bool) (mx ex : Z) (lx : location) :
  0 <= mx ->
  match binary_round_aux prec emax s mx ex lx with
  | S754_zero s' | S754_infinity s' | S754_finite s' _ _ => s' = s
  | S754_nan => False
  end.
Proof.
  intros Hm. unfold binary_round_aux.
  pose proof (shr_fexp_spec mx ex lx Hm) as H1. cbv zeta in H1.
  destruct (shr_fexp prec emax mx ex lx) as [mrs1 e1]. destruct H1 as (Hm1 & _ & _).
  set (m2 := round_nearest_even (shr_m mrs1) (loc_of_shr_record mrs1)).
  assert (Hm2 : 0 <= m2).
  { subst m2. destruct (round_nearest_even_cases (shr_m mrs1) (loc_of_shr_record mrs1))
      as [Hc _].
    assert (0 <= shr_m mrs1) by (rewrite Hm1; apply Z.div_pos; [lia | apply Z.pow_pos_nonneg; lia]).
    lia. }
  pose proof (shr_fexp_spec m2 e1 loc_Exact Hm2) as H3. cbv zeta in H3.
  destruct (shr_fexp prec emax m2 e1 loc_Exact) as [mrs3 e3]. destruct H3 as (Hm3 & _ & _).
  assert (0 <= shr_m mrs3) by (rewrite Hm3; apply Z.div_pos; [lia | apply Z.pow_pos_nonneg; lia]).
  destruct (shr_m mrs3) as [|p|p]; [done| |lia].
  by destruct (e3 <=? emax - prec).
Qed.

(** Above the least exponent, shifting never loses the whole mantissa. *)
Lemma shr_fexp_pos (m e : Z) (l : location) :
  0 < m -> -1074 <= e ->
  let '(mrs, e') := shr_fexp prec emax m e l in 0 < shr_m mrs /\ -1074 <= e'.
Proof.
  intros Hm He. pose proof (shr_fexp_spec m e l ltac:(lia)) as Hs. cbv zeta in Hs.
  destruct (shr_fexp prec emax m e l) as [mrs e']. destruct Hs as (Hm' & He' & _).
  split; [|lia]. rewrite Hm'. rewrite fexp_unfold.
  pose proof (Zdigits2_bounds m Hm) as [Hlo _]. pose proof (Zdigits2_pos m Hm) as Hd.
  destruct (Z.le_gt_cases (Z.max (Zdigits2 m + e - 53) (-1074) - e) 0) as [Hk|Hk].
  - replace (Z.max _ 0) with 0 by lia. change (2 ^ 0) with 1. rewrite Z.div_1_r. lia.
  - replace (Z.max (Z.max (Zdigits2 m + e - 53) (-1074) - e) 0) with (Zdigits2 m - 53) by lia.
    assert (Hp : 0 < 2 ^ (Zdigits2 m - 53)) by (apply Z.pow_pos_nonneg; lia).
    assert (2 ^ 52 <= m / 2 ^ (Zdigits2 m - 53)); [|lia].
    apply Z.div_le_lower_bound; [lia|]. rewrite <- Z.pow_add_r by lia.
    replace (Zdigits2 m - 53 + 52) with (Zdigits2 m - 1) by lia. done.
Qed.

Lemma binary_round_aux_pos (mx ex : Z) (lx : location) :
  0 < mx -> -1074 <= ex ->
  SFltb (S754_zero false) (binary_round_aux prec emax false mx ex lx) = true.
Proof.
  intros Hm He. unfold binary_round_aux.
  pose proof (shr_fexp_pos mx ex lx Hm He) as H1.
  destruct (shr_fexp prec emax mx ex lx) as [mrs1 e1]. destruct H1 as [Hm1 He1].
  set (m2 := round_nearest_even (shr_m mrs1) (loc_of_shr_record mrs1)).
  assert (Hm2 : 0 < m2).
  { subst m2. destruct (round_nearest_even_cases (shr_m mrs1) (loc_of_shr_record mrs1))
      as [Hc _]. lia. }
  pose proof (shr_fexp_pos m2 e1 loc_Exact Hm2 He1) as H3.
  destruct (shr_fexp prec emax m2 e1 loc_Exact) as [mrs3 e3]. destruct H3 as [Hm3 _].
  destruct (shr_m mrs3) as [|p|p]; [lia| |lia].
  by destruct (e3 <=? emax - prec).
Qed.

Lemma binary_round_pos (m : positive) (e : Z) :
  -1074 <= e -> SFltb (S754_zero false) (binary_round prec emax false m e) = true.
Proof.
  intros He. unfold binary_round.
  set (e' := fexp (Zpos (digits2_pos m) + e)).
  assert (He' : -1074 <= e') by (subst e'; rewrite fexp_unfold; lia).
  unfold shl_align. destruct (e' - e) as [|d|d] eqn:Hd;
    apply binary_round_aux_pos; lia.
Qed.

Lemma binary_round_neg (m : positive) (e : Z) :
  SFltb (S754_zero false) (binary_round prec emax true m e) = false.
Proof.
  unfold binary_round. destruct (shl_align m e _) as [mz ez].
  pose proof (binary_round_aux_sign true (Zpos mz) ez loc_Exact ltac:(lia)) as H.
  destruct (binary_round_aux prec emax true (Zpos mz) ez loc_Exact) as [s|s| |s m' e'];
    try done; by subst s.
Qed.

Definition SF_finite (x : spec_float) : bool :=
  match x with S754_zero _ | S754_finite _ _ _ => true | _ => false end.

(** For finite numbers, [x - y > 0] exactly when [x > y]. *)
Lemma SFsub_pos_iff (x y : spec_float) :
  valid_binary x = true -> valid_binary y = true ->
  SF_finite x = true -> SF_finite y = true ->
  SFltb (S754_zero false) (SFsub prec emax x y) = SFltb y x.
Proof.
  intros Hx Hy Hfx Hfy. unfold SFltb at 2.
  rewrite (SFcompare_rank y x) by (done || by destruct x, y).
  destruct x as [sx|sx| |sx mx ex], y as [sy|sy| |sy my ey]; try done;
    cbn [valid_binary] in Hx, Hy;
    repeat match goal with
    | H : bounded prec emax ?m ?e = true |- _ =>
        pose proof (finite_rank_bounds m e H); pose proof (bounded_digits m e H); revert H
    end; intros; cbn [SFsub SF_rank].
  - by destruct sx, sy.
  - destruct sy; cbn [negb cond_Zopp].
    + symmetry. replace (_ ?= 0) with Lt; [done|]. symmetry. apply Z.compare_lt_iff. lia.
    + symmetry. replace (_ ?= 0) with Gt; [done|]. symmetry. apply Z.compare_gt_iff. lia.
  - destruct sx; cbn [cond_Zopp].
    + symmetry. replace (0 ?= _) with Gt; [done|]. symmetry. apply Z.compare_gt_iff. lia.
    + symmetry. replace (0 ?= _) with Lt; [done|]. symmetry. apply Z.compare_lt_iff. lia.
  - set (ez := Z.min ex ey).
    rewrite !shl_align_fst by (subst ez; lia).
    set (D := cond_Zopp sx (Zpos mx * 2 ^ (ex - ez)) - cond_Zopp sy (Zpos my * 2 ^ (ey - ez))).
    assert (Hpz : 0 < 2 ^ (ez + 1074)) by (apply Z.pow_pos_nonneg; subst ez; lia).
    assert (HD : cond_Zopp sx (Zpos mx * 2 ^ (ex + 1074)) - cond_Zopp sy (Zpos my * 2 ^ (ey + 1074))
                 = D * 2 ^ (ez + 1074)).
    { assert (Ex : 2 ^ (ex + 1074) = 2 ^ (ex - ez) * 2 ^ (ez + 1074)).
      { rewrite <- Z.pow_add_r by (subst ez; lia). f_equal. lia. }
      assert (Ey : 2 ^ (ey + 1074) = 2 ^ (ey - ez) * 2 ^ (ez + 1074)).
      { rewrite <- Z.pow_add_r by (subst ez; lia). f_equal. lia. }
      subst D. rewrite Ex, Ey. destruct sx, sy; cbn [cond_Zopp]; lia. }
    destruct D as [|p|p] eqn:ED; cbn [binary_normalize].
    + replace (_ ?= _) with Eq; [done|]. symmetry. apply Z.compare_eq_iff. lia.
    + rewrite binary_round_pos by (subst ez; lia).
      replace (_ ?= _) with Lt; [done|]. symmetry. apply Z.compare_lt_iff. lia.
    + rewrite binary_round_neg.
      replace (_ ?= _) with Gt; [done|]. symmetry. apply Z.compare_gt_iff. lia.
Qed.

End Binary64.

(** ** Sorting the samples and [percentile] *)

Module Timing.

Import JsNumber Scorer Binary64.

(** The comparison function [(a, b) => a - b]. *)
Definition by_difference (a b : float) : float := (a - b)%float.

(** Ascending order of numbers. *)
Definition num_le (a b : float) : Prop := (a <=? b)%float = true.

Lemma sort_insert_perm (compareFn : float -> float -> float) (x : float) (l : list float) :
  Permutation (sort_insert compareFn x l) (x :: l).
Proof.
  induction l as [|y l IH]; simpl; [done|].
  destruct (0 <? compareFn x y)%float; [|done].
  rewrite IH. apply perm_swap.
Qed.

Lemma Array_sort_perm (compareFn : float -> float -> float) (l : list float) :
  Permutation (Array_sort compareFn l) l.
Proof.
  induction l as [|x l IH]; simpl; [done|].
  rewrite sort_insert_perm. by constructor.
Qed.

Lemma Array_sort_length (compareFn : float -> float -> float) (l : list float) :
  length (Array_sort compareFn l) = length l.
Proof. apply Permutation_length, Array_sort_perm. Qed.

Lemma finite_SF (x : float) : finite x = true -> SF_finite (Prim2SF x) = true.
Proof.
  unfold finite, is_nan, is_infinity.
  rewrite !FloatAxioms.eqb_spec, FloatAxioms.abs_spec.
  change (Prim2SF infinity) with (S754_infinity false).
  destruct (Prim2SF x) as [s|s| |s m e]; try done. by destruct s.
Qed.

Lemma SF_finite_not_nan (x : spec_float) : SF_finite x = true -> SF_is_nan x = false.
Proof. by destruct x. Qed.

(** On finite numbers the comparison function is positive exactly when
    its first argument is the larger one. *)
Lemma by_difference_pos (x y : float) :
  finite x = true -> finite y = true ->
  (0 <? by_difference x y)%float = (y <? x)%float.
Proof.
  intros Hx Hy. unfold by_difference.
  rewrite !FloatAxioms.ltb_spec, FloatAxioms.sub_spec.
  apply SFsub_pos_iff; auto using Prim2SF_valid, finite_SF.
Qed.

Lemma ltb_num_le (x y : float) :
  finite x = true -> finite y = true -> (y <? x)%float = true -> num_le y x.
Proof.
  intros Hx%finite_SF Hy%finite_SF. unfold num_le.
  rewrite FloatAxioms.ltb_spec, FloatAxioms.leb_spec. unfold SFltb, SFleb.
  rewrite SFcompare_rank by auto using Prim2SF_valid, SF_finite_not_nan.
  by destruct (_ ?= _)%Z.
Qed.

Lemma not_ltb_num_le (x y : float) :
  finite x = true -> finite y = true -> (y <? x)%float = false -> num_le x y.
Proof.
  intros Hx%finite_SF Hy%finite_SF. unfold num_le.
  rewrite FloatAxioms.ltb_spec, FloatAxioms.leb_spec. unfold SFltb, SFleb.
  rewrite !SFcompare_rank by auto using Prim2SF_valid, SF_finite_not_nan.
  rewrite (Z.compare_antisym (SF_rank (Prim2SF y))). by destruct (_ ?= _)%Z.
Qed.

Lemma sort_insert_sorted (x : float) (l : list float) :
  finite x = true -> Forall (fun v => finite v = true) l ->
  Sorted num_le l -> Sorted num_le (sort_insert by_difference x l).
Proof.
  intros Hx Hl Hs. induction l as [|y l IH]; simpl.
  - by repeat constructor.
  - inversion Hl as [|? ? Hy Hl']; subst. inversion Hs as [|? ? Hs' Hhd]; subst.
    rewrite by_difference_pos by done.
    destruct (y <? x)%float eqn:Hlt.
    + constructor; [by apply IH|].
      destruct l as [|z l]; simpl.
      * constructor. by apply ltb_num_le.
      * rewrite by_difference_pos by (done || by inversion Hl').
        destruct (z <? x)%float; constructor; [by inversion Hhd | by apply ltb_num_le].
    + constructor; [done|]. constructor. by apply not_ltb_num_le.
Qed.

Lemma Array_sort_finite (l : list float) :
  Forall (fun v => finite v = true) l ->
  Forall (fun v => finite v = true) (Array_sort by_difference l).
Proof.
  intros Hl. eapply Permutation_Forall; [|exact Hl]. symmetry. apply Array_sort_perm.
Qed.

(** Finite samples come out in ascending order. *)
Lemma Array_sort_sorted (l : list float) :
  Forall (fun v => finite v = true) l -> Sorted num_le (Array_sort by_difference l).
Proof.
  induction 1 as [|x l Hx Hl IH]; simpl; [constructor|].
  apply sort_insert_sorted; [done | by apply Array_sort_finite | done].
Qed.

(** C7. The 95th percentile of the samples is the element of their
    ascending sort at the index [floor((count - 1) * 0.95)], and 0 when
    there is no sample; for the samples 10 and 30 that index is 0 and
    the percentile is 10.  Samples are finite numbers, and an array has
    fewer than [2^53] elements. *)
Theorem percentile_p95 (values : list float) :
  Forall (fun v => finite v = true) values ->
  (Z.of_nat (length values) < 2 ^ 53)%Z ->
  let sorted := Array_sort by_difference values in
  let idx := Math_floor ((Num (length values) - 1) * 0.95)%float in
  Permutation sorted values /\ Sorted num_le sorted
  /\ (values = [] -> percentile values 0.95 = 0%float)
  /\ (values <> [] ->
      exists i v, array_index idx = Some i /\ (0 <= i < Z.of_nat (length values))%Z
                  /\ nth_error sorted (Z.to_nat i) = Some v
                  /\ percentile values 0.95 = v)
  /\ array_index (Math_floor ((Num 2 - 1) * 0.95)%float) = Some 0%Z
  /\ percentile [10; 30]%float 0.95 = 10%float.
Proof.
  intros Hfin Hlen sorted idx.
  split; [apply Array_sort_perm|]. split; [by apply Array_sort_sorted|].
  split; [by intros ->|]. split; [|split; reflexivity].
  intros Hne.
  assert (Hn : (1 <= length values)%nat) by (destruct values; [done | simpl; lia]).
  destruct (p95_index (length values) Hn Hlen) as (i & Hi & Hrange).
  fold idx in Hi.
  assert (Hlt : (Z.to_nat i < length sorted)%nat).
  { unfold sorted. rewrite Array_sort_length. lia. }
  destruct (nth_error sorted (Z.to_nat i)) as [v|] eqn:Hv.
  2:{ apply nth_error_None in Hv. lia. }
  exists i, v. repeat split; try done; try lia.
  unfold percentile. destruct values as [|v0 values']; [done|].
  fold by_difference. fold sorted.
  replace (length sorted) with (length (v0 :: values'))
    by (unfold sorted; by rewrite Array_sort_length).
  fold idx. unfold array_get. rewrite Hi.
  replace (i <? Z.of_nat (length sorted))%Z with true; [by rewrite Hv|].
  symmetry. apply Z.ltb_lt. lia.
Qed.

End Timing.

(** ** The metrics of a run *)

Module Metrics.

Import JsString JsNumber Scorer Normalisation Classification Runs Binary64 Timing.

(** Clamping to an interval, in the words of the specification: the
    bound that is passed, otherwise the value itself (NaN stays NaN). *)
Definition clamp (x lo hi : float) : float :=
  if is_nan x then nan
  else if (hi <? x)%float then hi
  else if (lo <? x)%float then x
  else lo.

Lemma Math_max_min_clamp (x : float) :
  Math_max 0 (Math_min 100 x) = clamp x 0 100.
Proof.
  unfold clamp, Math_min.
  change (is_nan 100) with false. change (get_sign 100) with false. cbn [orb].
  destruct (is_nan x) eqn:Hnan; [done|].
  destruct (100 <? x)%float eqn:H100; [done|].
  assert (Hy : (if (x <? 100)%float then x else x) = x) by (by destruct (x <? 100)%float).
  rewrite Hy. unfold Math_max.
  change (is_nan 0) with false. change (get_sign 0) with false. cbn [orb]. rewrite Hnan.
  destruct (0 <? x)%float; [done|]. by destruct (x <? 0)%float.
Qed.

Section Run.

Context {unknown S : Type}.
Variable elements : unknown -> option (list unknown).
Variable ToString : unknown -> string.
Variable submission : Submission unknown S.

Lemma length_filter_le {A} (f : A -> bool) (l : list A) :
  (length (List.filter f l) <= length l)%nat.
Proof. rewrite (length_filter_split f l). lia. Qed.

(** The hits of a case are no more than its expected ids, and no more
    than the returned ids when the expected ids have no duplicates. *)
Lemma hitIds_length (rows : list RecordRow) (timeoutMs : Z) (testCase : TestCase)
    (obs : Observation unknown) :
  let r := evaluate elements ToString (index_rows rows) timeoutMs testCase obs in
  (length (hitIds r) <= length (expectedIds testCase))%nat
  /\ (NoDup (expectedIds testCase) -> (length (hitIds r) <= length (returnedIds r))%nat).
Proof.
  intros r. subst r. rewrite evaluate_hitIds. split; [apply length_filter_le|].
  intros Hnd. rewrite length_filter_includes by (done || apply returnedIds_NoDup).
  apply length_filter_le.
Qed.

Lemma tally_hits_bounded (rows : list RecordRow) (timeoutMs : Z)
    (testCases : list TestCase) (os : list (Observation unknown))
    (st : Counters * list CaseReport) :
  Forall (fun tc => NoDup (expectedIds tc)) testCases ->
  (expectedHits st.1 <= expectedTotal st.1)%nat ->
  (expectedHits st.1 <= returnedTotal st.1)%nat ->
  let st' := tally elements ToString (index_rows rows) timeoutMs testCases os st in
  (expectedHits st'.1 <= expectedTotal st'.1)%nat
  /\ (expectedHits st'.1 <= returnedTotal st'.1)%nat.
Proof.
  intros Hnd H1 H2.
  apply (tally_ind elements ToString
           (fun st => (expectedHits st.1 <= expectedTotal st.1)%nat
                      /\ (expectedHits st.1 <= returnedTotal st.1)%nat)); [done|].
  intros st0 tc o Hin [Ha Hb]. unfold tally_step. cbn [fst snd accumulate expectedHits
    expectedTotal returnedTotal].
  rewrite Forall_forall in Hnd.
  destruct (hitIds_length rows timeoutMs tc o) as [Hc Hd].
  specialize (Hd (Hnd tc Hin)). lia.
Qed.


(** C6. The recall, precision and F1 of a finished run are the
    formulas of the specification over the run's counters, evaluated in
    binary64 arithmetic in the order written. *)
Theorem metrics_formulas (args : Args) (env : Env) (s0 : S) (w : World S)
    (summary : Summary) :
  run elements ToString submission args env s0 = (w, Returned summary) ->
  let c := counters summary in
  recall summary =
    (if Nat.eqb (expectedTotal c) 0 then 100
     else Num (expectedHits c) / Num (expectedTotal c) * 100)%float
  /\ precision summary =
       (if Nat.eqb (returnedTotal c) 0 then 0
        else Num (expectedHits c) / Num (returnedTotal c) * 100)%float
  /\ f1 summary =
       (if (recall summary + precision summary =? 0) then 0
        else (2 * recall summary * precision summary)
             / (recall summary + precision summary))%float.
Proof.
  intros Hrun. apply run_Returned_inv in Hrun as (suite & rows & os & _ & _ & _ & _ & ->).
  done.
Qed.


(** C8. In a run over a suite whose cases have duplicate-free expected
    ids, after every case the hits counted so far are at most the
    expected ids counted and at most the returned ids counted; so the
    recall of the summary lies between 0 and 100 and is 100 when
    nothing was expected, and the precision lies between 0 and 100 and
    is 0 when nothing was returned.  The counters are below [2^53], as
    every integer a number holds exactly is. *)
Theorem recall_precision_range (args : Args) (env : Env) (s0 : S) (w : World S)
    (summary : Summary) (suite : TestSuite) :
  run elements ToString submission args env s0 = (w, Returned summary) ->
  read_suite env (suitePath args) = Returned suite ->
  Forall (fun tc => NoDup (expectedIds tc)) (cases suite) ->
  (Z.of_nat (expectedTotal (counters summary)) < 2 ^ 53)%Z ->
  (Z.of_nat (returnedTotal (counters summary)) < 2 ^ 53)%Z ->
  let c := counters summary in
  (exists rows os,
     loadDataset env (datasetPath args env) = Returned rows
     /\ length os = length (cases suite)
     /\ c = (tally elements ToString (index_rows rows) (timeoutMs args) (cases suite) os
               (Counters_init, [])).1
     /\ forall k,
          let st := tally elements ToString (index_rows rows) (timeoutMs args)
                      (take k (cases suite)) (take k os) (Counters_init, []) in
          (expectedHits st.1 <= expectedTotal st.1)%nat
          /\ (expectedHits st.1 <= returnedTotal st.1)%nat)
  /\ (0 <=? recall summary)%float = true /\ (recall summary <=? 100)%float = true
  /\ (expectedTotal c = 0%nat -> recall summary = 100%float)
  /\ (0 <=? precision summary)%float = true /\ (precision summary <=? 100)%float = true
  /\ (returnedTotal c = 0%nat -> precision summary = 0%float).
Proof.
  intros Hrun Hsuite Hnd.
  apply run_Returned_inv in Hrun as (suite' & rows & os & Hs & _ & Hrows & Hlen & ->).
  rewrite Hsuite in Hs. injection Hs as <-.
  cbv zeta. set (st := tally _ _ _ _ _ _ _).
  cbn [counters finalize recall precision]. intros Ht Hr.
  destruct (tally_hits_bounded rows (timeoutMs args) (cases suite) os
              (Counters_init, []) Hnd (le_n _) (le_n _)) as [H1 H2].
  fold st in H1, H2.
  split; [|repeat split].
  - exists rows, os. repeat split; try done;
      apply (tally_hits_bounded rows (timeoutMs args)
               (take k (cases suite)) (take k os) (Counters_init, []));
      try apply le_n; by apply Forall_take.
  - destruct (Nat.eqb_spec (expectedTotal st.1) 0); [done|]. apply percent_range; lia.
  - destruct (Nat.eqb_spec (expectedTotal st.1) 0); [done|]. apply percent_range; lia.
  - by intros ->.
  - destruct (Nat.eqb_spec (returnedTotal st.1) 0); [done|]. apply percent_range; lia.
  - destruct (Nat.eqb_spec (returnedTotal st.1) 0); [done|]. apply percent_range; lia.
  - by intros ->.
Qed.

End Run.

End Metrics.

(** ** A concrete candidate and suite: the scenarios of the specification *)

Module Scenarios.

Import JsString JsNumber Scorer Normalisation Classification Runs Binary64 Timing Metrics.

(** A few kinds of values a candidate may hand back. *)
Inductive JsValue :=
| JsUndefined
| JsNull
| JsText (s : string)
| JsArray (items : list JsValue).

Definition elements (v : JsValue) : option (list JsValue) :=
  match v with JsArray items => Some items | _ => None end.

(** [String(v)]: an array joins its elements with commas, [null] and
    [undefined] elements giving the empty string. *)
Fixpoint ToString (v : JsValue) : string :=
  match v with
  | JsUndefined => "undefined"
  | JsNull => "null"
  | JsText s => s
  | JsArray items =>
      (fix join (l : list JsValue) : string :=
         match l with
         | [] => ""
         | x :: l' =>
             let sx := match x with JsUndefined | JsNull => "" | _ => ToString x end in
             match l' with [] => sx | _ => sx ++ "," ++ join l' end
         end) items
  end.

Definition ids (l : list string) : JsValue := JsArray (map JsText l).

Definition rows : list RecordRow :=
  [ {| row_id := "1"; row_name := "Ada" |}; {| row_id := "2"; row_name := "Bea" |};
    {| row_id := "3"; row_name := "Cy" |}; {| row_id := "4"; row_name := "Di" |};
    {| row_id := "5"; row_name := "Ed" |} ].

Definition mkCase (name q : string) (expected fps : list string) : TestCase :=
  {| case_id := name; case_dataset := small; query := q; expectedIds := expected;
     falsePositiveIds := fps; tags := []; notes := "" |}.

Definition case1 : TestCase := mkCase "c1" "q1" ["1"; "2"] ["3"].
Definition case2 : TestCase := mkCase "c2" "q2" ["1"; "2"] [].
Definition case3 : TestCase := mkCase "c3" "q3" ["1"] [].
Definition case4 : TestCase := mkCase "c4" "q4" ["1"; "2"] [].
Definition case5 : TestCase := mkCase "c5" "q5" [] [].

(** The candidate counts its calls; what it answers depends on the query. *)
Definition answer (q : string) : SearchCall JsValue :=
  if String.eqb q "q1" then
    Returns (SettlesFirst (Fulfilled
      (JsArray [JsText "1"; JsText " 3 "; JsText "4"; JsText "1"; JsText "  "])))
  else if String.eqb q "q2" then Returns (SettlesFirst (Fulfilled (ids ["1"; "2"])))
  else if String.eqb q "q3" then Returns (SettlesFirst (Fulfilled (ids ["99"])))
  else if String.eqb q "q4" then Returns StillPending
  else if String.eqb q "q5" then Throws (ErrorObject "boom")
  else Returns (SettlesFirst (Fulfilled JsUndefined)).

Definition candidate : Submission JsValue nat :=
  {| setup := Some (fun _ n => (n, None));
     search := fun q n => (Datatypes.S n, {| call := answer q; elapsed := 10%float |});
     cleanup := Some (fun n => (n, None)) |}.

Definition suite_of (testCases : list TestCase) : TestSuite :=
  {| suite_name := "public"; suite_dataset := small; seed := 7%Z; cases := testCases |}.

Definition env_of (suite : TestSuite) : Env :=
  {| resolve := fun path => "/work/" ++ path;
     read_suite := fun _ => Returned suite;
     loadDataset := fun _ => Returned rows |}.

Definition args_small : Args :=
  {| dataset := small; suitePath := "tests/public_small.json"; verbose := false;
     timeoutMs := 2000%Z |}.

Definition args_large : Args :=
  {| dataset := large; suitePath := "tests/public_small.json"; verbose := false;
     timeoutMs := 2000%Z |}.

Definition report (tc : TestCase) : CaseReport :=
  evaluate elements ToString (index_rows rows) 2000 tc
    {| call := answer (query tc); elapsed := 10%float |}.

(** Scenario 1: a hit, a miss, a listed false positive and an unscored
    extra; the returned ids are trimmed and deduplicated first. *)
Example scenario_1 :
  returnedIds (report case1) = ["1"; "3"; "4"]
  /\ hitIds (report case1) = ["1"] /\ missingIds (report case1) = ["2"]
  /\ fpHits (report case1) = ["3"] /\ invalidIds (report case1) = []
  /\ extrasUnscored (report case1) = ["4"] /\ pass (report case1) = false.
Proof. vm_compute. repeat split. Qed.

Example scenario_2 :
  hitIds (report case2) = ["1"; "2"] /\ missingIds (report case2) = []
  /\ fpHits (report case2) = [] /\ invalidIds (report case2) = []
  /\ extrasUnscored (report case2) = [] /\ pass (report case2) = true.
Proof. vm_compute. repeat split. Qed.

Example scenario_3 : invalidIds (report case3) = ["99"] /\ pass (report case3) = false.
Proof. vm_compute. repeat split. Qed.

Example scenario_4 :
  returnedIds (report case4) = []
  /\ runtimeError (report case4) = Some "search timed out after 2000ms"
  /\ missingIds (report case4) = ["1"; "2"] /\ pass (report case4) = false.
Proof. vm_compute. repeat split. Qed.

(** A case that expects nothing and gets nothing still fails when the
    search threw. *)
Example scenario_throw :
  returnedIds (report case5) = [] /\ runtimeError (report case5) = Some "boom"
  /\ missingIds (report case5) = [] /\ pass (report case5) = false.
Proof. vm_compute. repeat split. Qed.

(** *** Two runs *)

(** Scenarios 1, 2, 4 and the throwing case: no invalid id. *)
Definition suite_a : TestSuite := suite_of [case1; case2; case4; case5].

(** The same with scenario 3, which returns an id the dataset lacks. *)
Definition suite_b : TestSuite := suite_of [case1; case2; case3; case4; case5].

Definition run_a : World nat * Outcome Summary :=
  run elements ToString candidate args_small (env_of suite_a) 0%nat.

Definition run_b : World nat * Outcome Summary :=
  run elements ToString candidate args_small (env_of suite_b) 0%nat.

Definition summary_of (r : World nat * Outcome Summary) : Summary :=
  match r.2 with
  | Returned summary => summary
  | Threw _ => finalize Counters_init [] 0
  end.

Definition summary_a : Summary := Eval vm_compute in summary_of run_a.
Definition summary_b : Summary := Eval vm_compute in summary_of run_b.
Definition world_a : World nat := Eval vm_compute in run_a.1.

Lemma run_a_returns : run_a = (world_a, Returned summary_a).
Proof. vm_compute. reflexivity. Qed.


(** The lifecycle of a run: one [setup], one [search] per case in the
    order of the suite, one [cleanup]. *)
Example run_a_calls :
  calls world_a =
  [SetupCalled "/work/data/datasets/small/names.csv"; SearchCalled "q1"; SearchCalled "q2";
   SearchCalled "q4"; SearchCalled "q5"; CleanupCalled]
  /\ candidate_state world_a = 4%nat.
Proof. split; reflexivity. Qed.

Example run_a_counters :
  expectedTotal (counters summary_a) = 6%nat /\ expectedHits (counters summary_a) = 3%nat
  /\ returnedTotal (counters summary_a) = 5%nat
  /\ listedFalsePositiveCount (counters summary_a) = 1%nat
  /\ unexpectedExtraCount (counters summary_a) = 1%nat
  /\ invalidIdCount (counters summary_a) = 0%nat /\ passCases (counters summary_a) = 1%nat.
Proof. repeat split. Qed.

Example run_a_metrics :
  recall summary_a = 50%float /\ precision summary_a = 60%float
  /\ penaltyPoints summary_a = (0.02 + 0.05)%float
  /\ score summary_a = (50 - (0.02 + 0.05))%float
  /\ avgMs summary_a = 10%float /\ p95Ms summary_a = 10%float.
Proof. vm_compute. repeat split. Qed.

(** Scenario 3 in the suite: recall and precision are still computed,
    the score is 0. *)
Example run_b_metrics :
  invalidIdCount (counters summary_b) = 1%nat
  /\ recall summary_b = (Num 3 / Num 7 * 100)%float /\ score summary_b = 0%float.
Proof. vm_compute. repeat split. Qed.

(** *** The theorems at these inputs *)

Lemma classification_partition_witness :
  length (returnedIds (report case1)) =
  (length (hitIds (report case1)) + length (fpHits (report case1))
   + length (extrasUnscored (report case1)) + length (invalidIds (report case1)))%nat.
Proof.
  apply (classification_partition elements ToString rows 2000 case1
           {| call := answer (query case1); elapsed := 10%float |}).
  - compute_done.
  - compute_done.
  - apply Forall_forall. compute_done.
  - apply Forall_forall. compute_done.
  - apply Forall_forall. compute_done.
Defined.

Lemma dataset_mismatch_fatal_witness :
  run elements ToString candidate args_large (env_of suite_a) 0%nat =
  ({| candidate_state := 0%nat; calls := [] |},
   Threw "Suite dataset mismatch: suite=small, arg=large").
Proof.
  apply (dataset_mismatch_fatal elements ToString candidate args_large (env_of suite_a) 0%nat
           suite_a); [reflexivity | discriminate].
Defined.

Lemma metrics_formulas_witness :
  recall summary_a = (Num 3 / Num 6 * 100)%float
  /\ precision summary_a = (Num 3 / Num 5 * 100)%float
  /\ f1 summary_a =
       ((2 * recall summary_a * precision summary_a)
        / (recall summary_a + precision summary_a))%float.
Proof.
  exact (metrics_formulas elements ToString candidate args_small (env_of suite_a) 0%nat
           world_a summary_a run_a_returns).
Defined.


Lemma recall_precision_range_witness :
  (0 <=? recall summary_a)%float = true /\ (recall summary_a <=? 100)%float = true.
Proof.
  assert (Hnd : Forall (fun tc => NoDup (expectedIds tc)) (cases suite_a)).
  { repeat constructor; compute_done. }
  destruct (recall_precision_range elements ToString candidate args_small (env_of suite_a)
              0%nat world_a summary_a suite_a run_a_returns eq_refl Hnd
              ltac:(reflexivity) ltac:(reflexivity)) as (_ & H0 & H100 & _).
  exact (conj H0 H100).
Defined.

Lemma percentile_p95_witness :
  Sorted num_le (Array_sort by_difference [30; 10]%float)
  /\ percentile [30; 10]%float 0.95 = 10%float.
Proof.
  assert (Hfin : Forall (fun v => finite v = true) [30; 10]%float)
    by (repeat constructor).
  destruct (percentile_p95 [30; 10]%float Hfin ltac:(reflexivity)) as (_ & Hs & _ & Hv & _).
  split; [exact Hs|].
  destruct (Hv ltac:(discriminate)) as (i & v & _ & _ & _ & Hp). rewrite Hp.
  vm_compute in Hp. congruence.
Defined.

End Scenarios.

(** ** The ids a search returns *)

Module IdFacts.

Import JsString Scorer Normalisation.

Lemma trimEnd_idem (s : string) : trimEnd (trimEnd s) = trimEnd s.
Proof.
  induction s as [|c s IH]; [done|]. cbn [trimEnd].
  destruct (trimEnd s) as [|d t] eqn:E.
  - destruct (is_white_space c) eqn:Hc; [done|]. cbn [trimEnd]. by rewrite Hc.
  - change (trimEnd (String c (String d t)))
      with (match trimEnd (String d t) with
            | EmptyString => if is_white_space c then EmptyString else String c EmptyString
            | String a u => String c (String a u)
            end).
    by rewrite IH.
Qed.

Lemma trimStart_head (s : string) :
  trimStart s = "" \/ exists d t, trimStart s = String d t /\ is_white_space d = false.
Proof.
  induction s as [|c s IH]; [by left|]. cbn [trimStart].
  destruct (is_white_space c) eqn:Hc; [done|]. right. by exists c, s.
Qed.

(** Trimming a trimmed string changes nothing. *)
Lemma trim_idem (s : string) : trim (trim s) = trim s.
Proof.
  unfold trim. destruct (trimStart_head s) as [->|(d & t & -> & Hd)]; [done|].
  assert (Hs : trimStart (trimEnd (String d t)) = trimEnd (String d t)).
  { cbn [trimEnd]. destruct (trimEnd t); rewrite ?Hd; cbn [trimStart]; by rewrite Hd. }
  by rewrite Hs, trimEnd_idem.
Qed.

Section Ids.

Context {unknown : Type}.
Variable elements : unknown -> option (list unknown).
Variable ToString : unknown -> string.

(** What [toUniqueIds] hands to the scorer is clean: no id twice, no
    empty id, no id with white space around it; every id comes from an
    element of the returned array, and nothing comes from a value that
    is not an array. *)
Theorem toUniqueIds_clean (raw : unknown) :
  NoDup (toUniqueIds elements ToString raw)
  /\ (forall id, id ∈ toUniqueIds elements ToString raw ->
        id <> "" /\ trim id = id
        /\ exists values value, elements raw = Some values /\ value ∈ values
                                /\ id = trim (ToString value))
  /\ (elements raw = None -> toUniqueIds elements ToString raw = []).
Proof.
  split; [apply toUniqueIds_NoDup|]. split.
  - intros id (values & value & Hraw & Hin & -> & Hne)%elem_of_toUniqueIds.
    split; [done|]. split; [apply trim_idem|]. by exists values, value.
  - intros Hraw. unfold toUniqueIds. by rewrite Hraw.
Qed.

End Ids.

End IdFacts.

(** ** More about one case *)

Module CaseFacts.

Import JsString JsNumber Scorer Normalisation Classification.


Lemma filter_sublist {A} (f : A -> bool) (l : list A) : sublist (List.filter f l) l.
Proof.
  induction l as [|a l IH]; simpl; [constructor|].
  destruct (f a); [by apply sublist_skip | by apply sublist_cons].
Qed.

Section Case.

Context {unknown : Type}.
Variable elements : unknown -> option (list unknown).
Variable ToString : unknown -> string.
Variable rows : list RecordRow.
Variable timeoutMs : Z.
Variable testCase : TestCase.
Variable obs : Observation unknown.

Let r : CaseReport := evaluate elements ToString (index_rows rows) timeoutMs testCase obs.

(** The hits and the missing ids split the expected ids: each expected
    id (with its repetitions) is in exactly one of the two lists, both
    keep the order of the suite, and the lengths add up. *)
Theorem hit_missing_split :
  (length (hitIds r) + length (missingIds r))%nat = length (expectedIds testCase)
  /\ sublist (hitIds r) (expectedIds testCase)
  /\ sublist (missingIds r) (expectedIds testCase)
  /\ (forall id, id ∈ hitIds r -> id ∉ missingIds r)
  /\ (forall id, id ∈ expectedIds testCase -> id ∈ hitIds r \/ id ∈ missingIds r).
Proof.
  subst r. rewrite evaluate_hitIds, evaluate_missingIds.
  set (ret := returnedIds _). repeat split.
  - symmetry. apply length_filter_split.
  - apply filter_sublist.
  - apply filter_sublist.
  - intros id. rewrite !elem_of_filter_bool. intros [_ H1] [_ H2]. by rewrite H1 in H2.
  - intros id Hid. rewrite !elem_of_filter_bool.
    destruct (Array_includes ret id); [left | right]; done.
Qed.



End Case.

End CaseFacts.

(** ** More about whole runs *)

Module RunFacts.

Import JsString JsNumber Scorer Normalisation Classification Runs Binary64 Timing Metrics.

Section Run.

Context {unknown S : Type}.
Variable elements : unknown -> option (list unknown).
Variable ToString : unknown -> string.
Variable submission : Submission unknown S.

(** The events the lifecycle calls leave when they are exported. *)
Definition setup_events (path : string) : list Event :=
  match setup submission with Some _ => [SetupCalled path] | None => [] end.

Definition cleanup_events : list Event :=
  match cleanup submission with Some _ => [CleanupCalled] | None => [] end.

Lemma setup_result_events path s :
  (setup_result submission path s).2 = setup_events path.
Proof.
  unfold setup_result, setup_events. destruct (setup submission) as [f|]; [|done].
  by destruct (f path s).
Qed.

Lemma cleanup_result_events s : (cleanup_result submission s).2 = cleanup_events.
Proof.
  unfold cleanup_result, cleanup_events. destruct (cleanup submission) as [g|]; [|done].
  by destruct (g s).
Qed.

(** What the loop adds to the counters, case by case. *)
Lemma tally_sums byId timeoutMs (testCases : list TestCase) (os : list (Observation unknown))
    (st : Counters * list CaseReport) :
  length os = length testCases ->
  let st' := tally elements ToString byId timeoutMs testCases os st in
  let new := zip_with (evaluate elements ToString byId timeoutMs) testCases os in
  st'.2 = (st.2 ++ new)%list
  /\ length new = length testCases
  /\ expectedTotal st'.1
     = (expectedTotal st.1 + sum_list ((fun tc => length (expectedIds tc)) <$> testCases))%nat
  /\ expectedHits st'.1
     = (expectedHits st.1 + sum_list ((fun r => length (hitIds r)) <$> new))%nat
  /\ listedFalsePositiveCount st'.1
     = (listedFalsePositiveCount st.1 + sum_list ((fun r => length (fpHits r)) <$> new))%nat
  /\ unexpectedExtraCount st'.1
     = (unexpectedExtraCount st.1
        + sum_list ((fun r => length (extrasUnscored r)) <$> new))%nat
  /\ invalidIdCount st'.1
     = (invalidIdCount st.1 + sum_list ((fun r => length (invalidIds r)) <$> new))%nat
  /\ returnedTotal st'.1
     = (returnedTotal st.1 + sum_list ((fun r => length (returnedIds r)) <$> new))%nat
  /\ passCases st'.1 = (passCases st.1 + length (List.filter pass new))%nat
  /\ timesMs st'.1 = (timesMs st.1 ++ (elapsedMs <$> new))%list.
Proof.
  unfold tally. revert os st.
  induction testCases as [|tc tcs IH]; intros [|o os] st Hlen; try done.
  - cbn. rewrite !app_nil_r, !Nat.add_0_r. repeat split; done.
  - cbn [zip_with fold_left]. simpl in Hlen. injection Hlen as Hlen.
    destruct (IH os (tally_step elements ToString byId timeoutMs st (tc, o)) Hlen)
      as (H1 & H2 & H3 & H4 & H5 & H6 & H7 & H8 & H9 & H10).
    cbv zeta. rewrite H1, H3, H4, H5, H6, H7, H8, H9, H10.
    unfold tally_step. cbn [fst snd accumulate expectedTotal expectedHits
      listedFalsePositiveCount unexpectedExtraCount invalidIdCount returnedTotal passCases
      timesMs fmap list_fmap sum_list sum_list_with length List.filter].
    rewrite <- !app_assoc. cbn [app length]. rewrite H2. clear.
    set (r := evaluate elements ToString byId timeoutMs tc o).
    set (new := zip_with _ tcs os).
    unfold id. repeat split; try lia.
    destruct (pass r); simpl; lia.
Qed.

(** A finished run has one report per case of its suite, in order; each
    counter is the sum over the cases or their reports, the passed
    cases are the reports that pass, and there is one timing sample per
    report. *)
Theorem counters_are_sums (args : Args) (env : Env) (s0 : S) (w : World S)
    (summary : Summary) (suite : TestSuite) :
  run elements ToString submission args env s0 = (w, Returned summary) ->
  read_suite env (suitePath args) = Returned suite ->
  let c := counters summary in
  let rs := reports summary in
  length rs = length (cases suite)
  /\ expectedTotal c = sum_list ((fun tc => length (expectedIds tc)) <$> cases suite)
  /\ expectedHits c = sum_list ((fun r => length (hitIds r)) <$> rs)
  /\ listedFalsePositiveCount c = sum_list ((fun r => length (fpHits r)) <$> rs)
  /\ unexpectedExtraCount c = sum_list ((fun r => length (extrasUnscored r)) <$> rs)
  /\ invalidIdCount c = sum_list ((fun r => length (invalidIds r)) <$> rs)
  /\ returnedTotal c = sum_list ((fun r => length (returnedIds r)) <$> rs)
  /\ passCases c = length (List.filter pass rs)
  /\ timesMs c = elapsedMs <$> rs.
Proof.
  intros Hrun Hsuite.
  apply run_Returned_inv in Hrun as (suite' & rows & os & Hs & _ & _ & Hlen & ->).
  rewrite Hsuite in Hs. injection Hs as <-.
  destruct (tally_sums (index_rows rows) (timeoutMs args) (cases suite) os
              (Counters_init, []) Hlen) as (H1 & H2 & H3 & H4 & H5 & H6 & H7 & H8 & H9 & H10).
  cbv zeta. cbn [counters reports finalize]. cbn [fst snd app] in *.
  rewrite H1, H3, H4, H5, H6, H7, H8, H9, H10. repeat split; done.
Qed.

Lemma run_Returned_calls (args : Args) (env : Env) (s0 : S) (w : World S)
    (summary : Summary) (suite : TestSuite) :
  run elements ToString submission args env s0 = (w, Returned summary) ->
  read_suite env (suitePath args) = Returned suite ->
  calls w =
  (setup_events (datasetPath args env)
   ++ map SearchCalled (map query (cases suite)) ++ cleanup_events)%list.
Proof.
  rewrite run_unfold. cbv zeta. intros Hrun Hsuite. rewrite Hsuite in Hrun.
  destruct (negb _); [done|].
  destruct (loadDataset env (datasetPath args env)) as [rows|]; [|done].
  pose proof (setup_result_events (datasetPath args env) s0) as He1.
  destruct (setup_result _ _ _) as [[s1 [error|]] ev1]; [done|]. cbn [snd] in He1.
  destruct (observe _ _ s1) as [os s2].
  pose proof (cleanup_result_events s2) as He3.
  destruct (cleanup_result _ s2) as [[s3 [error|]] ev3]; [done|]. cbn [snd] in He3.
  injection Hrun as <- _. cbn [calls]. by rewrite He1, He3.
Qed.

(** In a run that returns a summary, [setup] is called once, before any
    search, when the submission exports it; [search] is called once per
    case, in the order of the suite; [cleanup] is called once, after the
    last search, when it is exported; and nothing else is called. *)
Theorem lifecycle_order (args : Args) (env : Env) (s0 : S) (w : World S)
    (summary : Summary) (suite : TestSuite) :
  run elements ToString submission args env s0 = (w, Returned summary) ->
  read_suite env (suitePath args) = Returned suite ->
  calls w =
  (setup_events (datasetPath args env)
   ++ map SearchCalled (map query (cases suite)) ++ cleanup_events)%list.
Proof. apply run_Returned_calls. Qed.


(** When [setup] throws, [main] throws with the message of that error:
    no search is made and [cleanup] is not called. *)
Theorem setup_failure_fatal (args : Args) (env : Env) (s0 s1 : S) (suite : TestSuite)
    (rows : list RecordRow) f (error : Thrown unknown) :
  read_suite env (suitePath args) = Returned suite ->
  suite_dataset suite = dataset args ->
  loadDataset env (datasetPath args env) = Returned rows ->
  setup submission = Some f ->
  f (datasetPath args env) s0 = (s1, Some error) ->
  run elements ToString submission args env s0 =
  ({| candidate_state := s1; calls := [SetupCalled (datasetPath args env)] |},
   Threw (error_text ToString error)).
Proof.
  intros Hsuite Heq Hrows Hsetup Hf. rewrite run_unfold. cbv zeta.
  rewrite Hsuite, Hrows. apply DatasetName_eqb_eq in Heq. rewrite Heq. cbn [negb].
  unfold setup_result. by rewrite Hsetup, Hf.
Qed.

(** When [cleanup] throws, every case has been searched, yet [main]
    throws and no summary is returned. *)
Theorem cleanup_failure_fatal (args : Args) (env : Env) (s0 s3 : S) (suite : TestSuite)
    (rows : list RecordRow) g (error : Thrown unknown) :
  read_suite env (suitePath args) = Returned suite ->
  suite_dataset suite = dataset args ->
  loadDataset env (datasetPath args env) = Returned rows ->
  (setup_result submission (datasetPath args env) s0).1.2 = None ->
  cleanup submission = Some g ->
  g (observe submission (map query (cases suite))
       (setup_result submission (datasetPath args env) s0).1.1).2 = (s3, Some error) ->
  run elements ToString submission args env s0 =
  ({| candidate_state := s3;
      calls := (setup_events (datasetPath args env)
                ++ map SearchCalled (map query (cases suite)) ++ [CleanupCalled])%list |},
   Threw (error_text ToString error)).
Proof.
  intros Hsuite Heq Hrows Hsetup Hcleanup Hg. rewrite run_unfold. cbv zeta.
  rewrite Hsuite, Hrows. apply DatasetName_eqb_eq in Heq. rewrite Heq. cbn [negb].
  pose proof (setup_result_events (datasetPath args env) s0) as He1.
  destruct (setup_result _ _ _) as [[s1 thrown1] ev1]. cbn [fst snd] in *. subst thrown1.
  destruct (observe _ _ s1) as [os s2]. cbn [snd] in Hg.
  unfold cleanup_result. by rewrite Hcleanup, Hg, He1.
Qed.

(** A suite file or a dataset that cannot be read makes [main] throw
    before anything is called: no [setup], no [search], no [cleanup]. *)
Theorem load_failure_fatal (args : Args) (env : Env) (s0 : S) (message : string) :
  (read_suite env (suitePath args) = Threw message ->
   run elements ToString submission args env s0 =
   ({| candidate_state := s0; calls := [] |}, Threw message))
  /\ (forall suite,
        read_suite env (suitePath args) = Returned suite ->
        suite_dataset suite = dataset args ->
        loadDataset env (datasetPath args env) = Threw message ->
        run elements ToString submission args env s0 =
        ({| candidate_state := s0; calls := [] |}, Threw message)).
Proof.
  split.
  - intros Hsuite. rewrite run_unfold. cbv zeta. by rewrite Hsuite.
  - intros suite Hsuite Heq Hrows. rewrite run_unfold. cbv zeta.
    rewrite Hsuite, Hrows. apply DatasetName_eqb_eq in Heq. by rewrite Heq.
Qed.

(** A suite without cases: nothing is searched, and the summary has
    recall 100, precision 0, F1 0, no penalty, score 100, pass rate 100
    and all timings 0. *)
Theorem empty_suite_summary (args : Args) (env : Env) (s0 : S) (w : World S)
    (summary : Summary) (suite : TestSuite) :
  run elements ToString submission args env s0 = (w, Returned summary) ->
  read_suite env (suitePath args) = Returned suite ->
  cases suite = [] ->
  summary = finalize Counters_init [] 0
  /\ recall summary = 100%float /\ precision summary = 0%float /\ f1 summary = 0%float
  /\ penaltyPoints summary = 0%float /\ score summary = 100%float
  /\ passRate summary = 100%float /\ totalMs summary = 0%float
  /\ avgMs summary = 0%float /\ p95Ms summary = 0%float /\ qps summary = 0%float
  /\ calls w = (setup_events (datasetPath args env) ++ cleanup_events)%list.
Proof.
  intros Hrun Hsuite Hcases.
  pose proof (run_Returned_calls args env s0 w summary suite Hrun Hsuite) as Hcalls.
  rewrite Hcases in Hcalls. cbn [map app] in Hcalls.
  apply run_Returned_inv in Hrun as (suite' & rows & os & Hs & _ & _ & Hlen & ->).
  rewrite Hsuite in Hs. injection Hs as <-. rewrite Hcases in *.
  destruct os; [|done]. cbv zeta. cbn [tally zip_with fold_left fst snd length].
  split; [done|]. split; [|done]. vm_compute. repeat split.
Qed.

End Run.

End RunFacts.

(** ** Numbers that are never NaN *)

Module NumberFacts.

Import JsNumber Scorer Binary64 Timing Metrics.

Local Open Scope Z_scope.

(** Zero of either sign, a positive finite number or [+Infinity]. *)
Definition SF_nonneg (x : spec_float) : bool :=
  match x with
  | S754_zero _ => true
  | S754_finite s _ _ | S754_infinity s => negb s
  | S754_nan => false
  end.

Lemma is_nan_SF (x : float) : is_nan x = SF_is_nan (Prim2SF x).
Proof.
  unfold is_nan. rewrite FloatAxioms.eqb_spec. unfold SFeqb.
  pose proof (Prim2SF_valid x) as Hv.
  destruct (SF_is_nan (Prim2SF x)) eqn:Hn.
  - by destruct (Prim2SF x).
  - rewrite SFcompare_rank by done. by rewrite Z.compare_refl.
Qed.

Lemma binary_round_sign (s : bool) (m : positive) (e : Z) :
  match binary_round prec emax s m e with
  | S754_zero s' | S754_infinity s' | S754_finite s' _ _ => s' = s
  | S754_nan => False
  end.
Proof.
  unfold binary_round. destruct (shl_align m e _) as [mz ez].
  apply binary_round_aux_sign. lia.
Qed.

Lemma binary_round_nonneg (m : positive) (e : Z) :
  SF_nonneg (binary_round prec emax false m e) = true.
Proof.
  pose proof (binary_round_sign false m e) as H.
  destruct (binary_round prec emax false m e); try done; by subst.
Qed.

Lemma binary_round_not_nan (s : bool) (m : positive) (e : Z) :
  SF_is_nan (binary_round prec emax s m e) = false.
Proof.
  pose proof (binary_round_sign s m e) as H.
  by destruct (binary_round prec emax s m e).
Qed.

Lemma Num_nonneg (n : nat) : SF_nonneg (Prim2SF (Num n)) = true.
Proof.
  unfold Num. rewrite of_uint63_spec.
  pose proof (Uint63.to_Z_bounded (Uint63.of_Z (Z.of_nat n))) as [Hz _].
  destruct (Uint63.to_Z _) as [|p|p]; [done| |lia].
  apply binary_round_nonneg.
Qed.

Lemma SFmul_nonneg (x : spec_float) (m : positive) (e : Z) :
  SF_nonneg x = true ->
  SF_nonneg (SFmul prec emax x (S754_finite false m e)) = true.
Proof.
  destruct x as [s|s| |s mx ex]; try done; cbn [SFmul SF_nonneg xorb].
  - by destruct s.
  - intros Hs. apply negb_true_iff in Hs. subst s. cbn [xorb].
    pose proof (binary_round_aux_sign false (Zpos (mx * m)) (ex + e) loc_Exact ltac:(lia)) as H.
    destruct (binary_round_aux _ _ _ _ _ _); try done; by subst.
Qed.

Lemma SFadd_nonneg (x y : spec_float) :
  SF_nonneg x = true -> SF_nonneg y = true -> SF_nonneg (SFadd prec emax x y) = true.
Proof.
  destruct x as [sx|sx| |sx mx ex], y as [sy|sy| |sy my ey]; try done;
    cbn [SF_nonneg SFadd]; intros Hx Hy;
    try (apply negb_true_iff in Hx; subst sx); try (apply negb_true_iff in Hy; subst sy);
    try done.
  - by destruct sx, sy.
  - cbn [cond_Zopp]. destruct (Zpos _ + Zpos _) as [|p|p] eqn:E; [done| |lia].
    apply binary_round_nonneg.
Qed.

Lemma SFsub_not_nan (x y : spec_float) :
  SF_finite x = true -> SF_nonneg y = true -> SF_is_nan (SFsub prec emax x y) = false.
Proof.
  destruct x as [sx|sx| |sx mx ex], y as [sy|sy| |sy my ey]; try done;
    cbn [SF_nonneg SFsub]; intros _ Hy.
  - by destruct sx, sy.
  - destruct (_ - _) as [|p|p]; [done|apply binary_round_not_nan..].
Qed.

(** Comparisons of numbers that are not NaN. *)
Lemma ltb_leb (x y : float) :
  is_nan x = false -> is_nan y = false -> (x <? y)%float = true -> (x <=? y)%float = true.
Proof.
  rewrite !is_nan_SF. intros Hx Hy.
  rewrite FloatAxioms.ltb_spec, FloatAxioms.leb_spec. unfold SFltb, SFleb.
  rewrite SFcompare_rank by auto using Prim2SF_valid. by destruct (_ ?= _).
Qed.

Lemma not_ltb_leb (x y : float) :
  is_nan x = false -> is_nan y = false -> (y <? x)%float = false -> (x <=? y)%float = true.
Proof.
  rewrite !is_nan_SF. intros Hx Hy.
  rewrite FloatAxioms.ltb_spec, FloatAxioms.leb_spec. unfold SFltb, SFleb.
  rewrite !SFcompare_rank by auto using Prim2SF_valid.
  rewrite (Z.compare_antisym (SF_rank (Prim2SF y))). by destruct (_ ?= _).
Qed.

(** Clamping a number that is not NaN gives a number between the bounds. *)
Lemma clamp_range (x : float) :
  is_nan x = false ->
  (0 <=? clamp x 0 100)%float = true /\ (clamp x 0 100 <=? 100)%float = true.
Proof.
  intros Hx. unfold clamp. rewrite Hx.
  destruct (100 <? x)%float eqn:H100; [done|].
  destruct (0 <? x)%float eqn:H0; [|done].
  split; [by apply ltb_leb | by apply not_ltb_leb].
Qed.

End NumberFacts.

(** ** Ranges of the reported numbers *)

Module RangeFacts.

Import JsString JsNumber Scorer Normalisation Classification Runs Binary64 Timing Metrics.
Import RunFacts NumberFacts.

Lemma SF_between_finite (x : spec_float) :
  SFleb (S754_zero false) x = true -> SFleb x SF_100 = true -> SF_finite x = true.
Proof. destruct x as [s|s| |s m e]; try done. by destruct s. Qed.

Lemma Prim2SF_penalties :
  (exists m e, Prim2SF PENALTY_LISTED_FP = S754_finite false m e)
  /\ (exists m e, Prim2SF PENALTY_UNEXPECTED_EXTRA = S754_finite false m e).
Proof. split; eexists _, _; reflexivity. Qed.

(** The raw score of a finished run is a number, not NaN, when its
    recall lies between 0 and 100. *)
Lemma scoreRaw_not_nan (rec : float) (a b : nat) :
  (0 <=? rec)%float = true -> (rec <=? 100)%float = true ->
  is_nan (rec - (Num a * PENALTY_LISTED_FP + Num b * PENALTY_UNEXPECTED_EXTRA))%float = false.
Proof.
  rewrite !FloatAxioms.leb_spec, Prim2SF_100, Prim2SF_zero. intros H0 H100.
  rewrite is_nan_SF, FloatAxioms.sub_spec, FloatAxioms.add_spec, !FloatAxioms.mul_spec.
  destruct Prim2SF_penalties as [(m1 & e1 & ->) (m2 & e2 & ->)].
  apply SFsub_not_nan; [by apply SF_between_finite|].
  apply SFadd_nonneg; apply SFmul_nonneg, Num_nonneg.
Qed.

Section Run.

Context {unknown S : Type}.
Variable elements : unknown -> option (list unknown).
Variable ToString : unknown -> string.
Variable submission : Submission unknown S.

Lemma tally_hits_le_expected (rows : list RecordRow) (timeoutMs : Z)
    (testCases : list TestCase) (os : list (Observation unknown)) :
  let st := tally elements ToString (index_rows rows) timeoutMs testCases os
              (Counters_init, []) in
  (expectedHits st.1 <= expectedTotal st.1)%nat.
Proof.
  apply (tally_ind elements ToString
           (fun st => (expectedHits st.1 <= expectedTotal st.1)%nat)); [done|].
  intros st0 tc o _ IH. unfold tally_step.
  cbn [fst snd accumulate expectedHits expectedTotal].
  destruct (hitIds_length elements ToString rows timeoutMs tc o) as [Hc _]. lia.
Qed.

Lemma run_recall_range (rows : list RecordRow) (timeoutMs : Z)
    (testCases : list TestCase) (os : list (Observation unknown)) (n : nat) :
  let st := tally elements ToString (index_rows rows) timeoutMs testCases os
              (Counters_init, []) in
  (Z.of_nat (expectedTotal st.1) < 2 ^ 53)%Z ->
  (0 <=? recall (finalize st.1 st.2 n))%float = true
  /\ (recall (finalize st.1 st.2 n) <=? 100)%float = true.
Proof.
  intros st Hlt. pose proof (tally_hits_le_expected rows timeoutMs testCases os) as Hle.
  cbv zeta in Hle. fold st in Hle. cbn [recall finalize].
  destruct (Nat.eqb_spec (expectedTotal st.1) 0); [done|]. apply percent_range; lia.
Qed.

(** The recall of every finished run lies between 0 and 100, whether or
    not the expected ids of its cases have duplicates. *)
Theorem recall_range_always (args : Args) (env : Env) (s0 : S) (w : World S)
    (summary : Summary) :
  run elements ToString submission args env s0 = (w, Returned summary) ->
  (Z.of_nat (expectedTotal (counters summary)) < 2 ^ 53)%Z ->
  (0 <=? recall summary)%float = true /\ (recall summary <=? 100)%float = true.
Proof.
  intros Hrun. apply run_Returned_inv in Hrun as (suite & rows & os & _ & _ & _ & _ & ->).
  cbv zeta. cbn [counters finalize]. apply run_recall_range.
Qed.

(** The score of every finished run is a number between 0 and 100. *)
Theorem score_range (args : Args) (env : Env) (s0 : S) (w : World S)
    (summary : Summary) :
  run elements ToString submission args env s0 = (w, Returned summary) ->
  (Z.of_nat (expectedTotal (counters summary)) < 2 ^ 53)%Z ->
  (0 <=? score summary)%float = true /\ (score summary <=? 100)%float = true.
Proof.
  intros Hrun. apply run_Returned_inv in Hrun as (suite & rows & os & _ & _ & _ & _ & ->).
  cbv zeta. cbn [counters finalize]. intros Hlt.
  destruct (run_recall_range rows (timeoutMs args) (cases suite) os (length (cases suite))
              Hlt) as [H0 H100].
  cbn [recall finalize] in H0, H100. cbn [score finalize].
  destruct (0 <? invalidIdCount _)%nat; [done|].
  rewrite Math_max_min_clamp. apply clamp_range. by apply scoreRaw_not_nan.
Qed.

(** No more cases pass than the suite has, and the pass rate lies
    between 0 and 100. *)
Theorem pass_rate_range (args : Args) (env : Env) (s0 : S) (w : World S)
    (summary : Summary) (suite : TestSuite) :
  run elements ToString submission args env s0 = (w, Returned summary) ->
  read_suite env (suitePath args) = Returned suite ->
  (Z.of_nat (length (cases suite)) < 2 ^ 53)%Z ->
  (passCases (counters summary) <= length (cases suite))%nat
  /\ (0 <=? passRate summary)%float = true /\ (passRate summary <=? 100)%float = true.
Proof.
  intros Hrun Hsuite Hlt.
  apply run_Returned_inv in Hrun as (suite' & rows & os & Hs & _ & _ & Hlen & ->).
  rewrite Hsuite in Hs. injection Hs as <-.
  destruct (tally_sums elements ToString (index_rows rows) (timeoutMs args) (cases suite) os
              (Counters_init, []) Hlen) as (_ & H2 & _ & _ & _ & _ & _ & _ & H9 & _).
  cbv zeta. cbn [counters finalize passRate].
  set (st := tally _ _ _ _ _ _ _) in *. cbn [fst passCases Counters_init] in H9.
  assert (Hle : (passCases st.1 <= length (cases suite))%nat).
  { rewrite H9, <- H2. apply length_filter_le. }
  split; [done|].
  destruct (Nat.eqb_spec (length (cases suite)) 0); [done|]. apply percent_range; lia.
Qed.

End Run.

(** *** The percentile is one of the samples *)

Lemma fraction_index_zero (n : nat) (pct : float) (s : bool) :
  Prim2SF pct = S754_zero s -> (1 <= n)%nat -> (Z.of_nat n < 2 ^ 53)%Z ->
  array_index (Math_floor ((Num n - 1) * pct)%float) = Some 0%Z.
Proof.
  intros Hpct Hn Hlt. rewrite Num_pred by done.
  set (x := (Num (n - 1) * pct)%float).
  assert (Hx : exists s', Prim2SF x = S754_zero s').
  { unfold x. rewrite FloatAxioms.mul_spec, Prim2SF_Num, Hpct by lia.
    destruct (Z.of_nat (n - 1)) as [|p|p]; cbn [canonical_of SF64mul SFmul]; by eexists. }
  destruct Hx as [s' Hx]. unfold Math_floor. rewrite Hx. cbn [SFfloor].
  rewrite <- Hx, SF2Prim_Prim2SF. unfold array_index. by rewrite Hx.
Qed.

(** For a fraction between 0 and 1, the percentile of a non-empty array
    is one of its elements: the fall-back value 0 is never used. *)
Theorem percentile_is_a_sample (values : list float) (pct : float) :
  values <> [] -> (Z.of_nat (length values) < 2 ^ 53)%Z ->
  (0 <=? pct)%float = true -> (pct <=? 1)%float = true ->
  percentile values pct ∈ values.
Proof.
  intros Hne Hlen H0 H1.
  assert (Hn : (1 <= length values)%nat) by (destruct values; [done | simpl; lia]).
  assert (Hidx : exists i, array_index (Math_floor ((Num (length values) - 1) * pct)%float)
                           = Some i /\ (0 <= i < Z.of_nat (length values))%Z).
  { pose proof (Prim2SF_valid pct) as Hvalid.
    rewrite FloatAxioms.leb_spec, Prim2SF_zero in H0.
    rewrite FloatAxioms.leb_spec, Prim2SF_one in H1.
    destruct (Prim2SF pct) as [s|s| |s mp ep] eqn:Hpct; try done.
    - exists 0%Z. split; [by eapply fraction_index_zero | lia].
    - by destruct s.
    - destruct s; [done|]. cbn [valid_binary] in Hvalid.
      pose proof (bounded_digits mp ep Hvalid) as (_ & Hmp & _).
      apply SFleb_finite_inv in H1.
      eapply fraction_index; [exact Hpct | lia | | done | done].
      destruct H1 as [Hlt|[-> Hle]]; [|exact Hle].
      assert (2 ^ 53 <= 2 ^ (- ep))%Z by (apply Z.pow_le_mono_r; lia). lia. }
  destruct Hidx as (i & Hi & Hrange).
  set (sorted := Array_sort by_difference values).
  assert (Hlt : (Z.to_nat i < length sorted)%nat).
  { unfold sorted. rewrite Array_sort_length. lia. }
  destruct (nth_error sorted (Z.to_nat i)) as [v|] eqn:Hv.
  2:{ apply nth_error_None in Hv. lia. }
  assert (Hp : percentile values pct = v).
  { unfold percentile. destruct values as [|v0 values']; [done|].
    fold by_difference. fold sorted.
    replace (length sorted) with (length (v0 :: values'))
      by (unfold sorted; by rewrite Array_sort_length).
    unfold array_get. rewrite Hi.
    replace (i <? Z.of_nat (length sorted))%Z with true; [by rewrite Hv|].
    symmetry. apply Z.ltb_lt. lia. }
  rewrite Hp. apply nth_error_In in Hv. apply list_elem_of_In.
  eapply Permutation_in; [apply Array_sort_perm | exact Hv].
Qed.

End RangeFacts.

(** ** The order of the cases *)

Module OrderFacts.

Import JsString JsNumber Scorer Normalisation Classification Runs RunFacts.

Lemma sum_list_perm {A} (f : A -> nat) (l l' : list A) :
  l ≡ₚ l' -> sum_list (f <$> l) = sum_list (f <$> l').
Proof.
  induction 1 as [|x l l' _ IH|x y l|l l' l'' _ IH1 _ IH2]; cbn; [done|lia|lia|congruence].
Qed.

Lemma length_filter_perm {A} (f : A -> bool) (l l' : list A) :
  l ≡ₚ l' -> length (List.filter f l) = length (List.filter f l').
Proof.
  induction 1 as [|x l l' _ IH|x y l|l l' l'' _ IH1 _ IH2]; cbn; [done| | |congruence].
  - destruct (f x); cbn; lia.
  - destruct (f x), (f y); cbn; lia.
Qed.

Section Order.

Context {unknown : Type}.
Variable elements : unknown -> option (list unknown).
Variable ToString : unknown -> string.
Variable byId : gmap string RecordRow.
Variable timeoutMs : Z.

(** The summary of cases searched in a given order with given
    outcomes. *)
Definition summary_of_cases (pairs : list (TestCase * Observation unknown)) : Summary :=
  let st := tally elements ToString byId timeoutMs pairs.*1 pairs.*2 (Counters_init, []) in
  finalize st.1 st.2 (length pairs).

(** The counters after the loop, without the timing samples. *)
Definition totals (c : Counters) : list nat :=
  [expectedTotal c; expectedHits c; listedFalsePositiveCount c; unexpectedExtraCount c;
   invalidIdCount c; returnedTotal c; passCases c].

Lemma totals_sums (pairs : list (TestCase * Observation unknown)) :
  let rs := (fun p => evaluate elements ToString byId timeoutMs p.1 p.2) <$> pairs in
  totals (counters (summary_of_cases pairs)) =
  [sum_list ((fun p => length (expectedIds p.1)) <$> pairs);
   sum_list ((fun r => length (hitIds r)) <$> rs);
   sum_list ((fun r => length (fpHits r)) <$> rs);
   sum_list ((fun r => length (extrasUnscored r)) <$> rs);
   sum_list ((fun r => length (invalidIds r)) <$> rs);
   sum_list ((fun r => length (returnedIds r)) <$> rs);
   length (List.filter pass rs)].
Proof.
  assert (Hlen : length pairs.*2 = length pairs.*1) by (by rewrite !length_fmap).
  destruct (tally_sums elements ToString byId timeoutMs pairs.*1 pairs.*2 (Counters_init, [])
              Hlen) as (_ & _ & H3 & H4 & H5 & H6 & H7 & H8 & H9 & _).
  cbv zeta in *. unfold summary_of_cases, totals. cbv zeta.
  change (counters (finalize ?c ?r ?n)) with c.
  rewrite H3, H4, H5, H6, H7, H8, H9. cbn [fst Counters_init expectedTotal expectedHits
    listedFalsePositiveCount unexpectedExtraCount invalidIdCount returnedTotal passCases
    Nat.add].
  assert (Hzip : zip_with (evaluate elements ToString byId timeoutMs) pairs.*1 pairs.*2
                 = (fun p => evaluate elements ToString byId timeoutMs p.1 p.2) <$> pairs).
  { clear. induction pairs as [|[tc o] l IH]; [done|]. cbn. by rewrite IH. }
  rewrite Hzip, <- list_fmap_compose. done.
Qed.

(** The order in which the cases are searched does not matter for the
    result: with the same outcome for each case, every counter and
    the recall, precision, F1, penalty, score and pass rate are the same
    in any order. (Only the order of the timing samples changes.) *)
Theorem case_order_irrelevant (pairs pairs' : list (TestCase * Observation unknown)) :
  pairs ≡ₚ pairs' ->
  let s := summary_of_cases pairs in
  let s' := summary_of_cases pairs' in
  totals (counters s) = totals (counters s')
  /\ recall s = recall s' /\ precision s = precision s' /\ f1 s = f1 s'
  /\ penaltyPoints s = penaltyPoints s' /\ scoreRaw s = scoreRaw s'
  /\ score s = score s' /\ passRate s = passRate s'.
Proof.
  intros Hperm. cbv zeta.
  assert (Ht : totals (counters (summary_of_cases pairs))
               = totals (counters (summary_of_cases pairs'))).
  { rewrite !totals_sums. cbv zeta.
    assert (Hrs : (fun p => evaluate elements ToString byId timeoutMs p.1 p.2) <$> pairs
                  ≡ₚ (fun p => evaluate elements ToString byId timeoutMs p.1 p.2) <$> pairs')
      by (by apply fmap_Permutation).
    rewrite (sum_list_perm _ _ _ Hperm).
    rewrite !(sum_list_perm _ _ _ Hrs). by rewrite (length_filter_perm _ _ _ Hrs). }
  split; [exact Ht|].
  assert (Hn : length pairs = length pairs') by (by apply Permutation_length).
  unfold summary_of_cases, totals in *. cbv zeta in *.
  change (counters (finalize ?c ?r ?n)) with c in Ht.
  injection Ht as H1 H2 H3 H4 H5 H6 H7.
  unfold finalize. cbn [recall precision f1 penaltyPoints scoreRaw score passRate].
  rewrite H1, H2, H3, H4, H5, H6, H7, Hn. repeat split.
Qed.

(** The summary of a finished run is the summary of its cases with the
    outcomes the run observed. *)
Lemma run_summary_of_cases {S : Type} (submission : Submission unknown S)
    (args : Args) (env : Env) (s0 : S) (w : World S) (summary : Summary) (suite : TestSuite)
    (rows : list RecordRow) :
  byId = index_rows rows -> timeoutMs = Scorer.timeoutMs args ->
  run elements ToString submission args env s0 = (w, Returned summary) ->
  read_suite env (suitePath args) = Returned suite ->
  loadDataset env (datasetPath args env) = Returned rows ->
  exists os, length os = length (cases suite)
             /\ summary = summary_of_cases (zip (cases suite) os).
Proof.
  intros HbyId Htimeout Hrun Hsuite Hrows.
  apply run_Returned_inv in Hrun as (suite' & rows' & os & Hs & _ & Hr & Hlen & ->).
  rewrite Hsuite in Hs. injection Hs as <-. rewrite Hrows in Hr. injection Hr as <-.
  exists os. split; [done|]. unfold summary_of_cases. cbv zeta.
  rewrite fst_zip, snd_zip, length_zip by lia.
  replace (length (cases suite) `min` length os)%nat with (length (cases suite)) by lia.
  by rewrite HbyId, Htimeout.
Qed.

End Order.

End OrderFacts.

(** ** Reading the dataset: [parseCsvLine] and [loadDataset] *)

Module Csv.

Import JsString Scorer.

Definition quote_char : ascii := ascii_of_nat 34.
Definition comma_char : ascii := ascii_of_nat 44.
Definition LF : ascii := ascii_of_nat 10.
Definition CR : ascii := ascii_of_nat 13.

(** [s.indexOf(c)] for a one-character string [c]: [None] stands for -1. *)
Fixpoint indexOf (c : ascii) (s : string) : option nat :=
  match s with
  | EmptyString => None
  | String d s' => if Ascii.eqb d c then Some 0%nat else option_map Datatypes.S (indexOf c s')
  end.

Fixpoint drop_chars (n : nat) (s : string) : string :=
  match n, s with
  | Datatypes.S n', String _ s' => drop_chars n' s'
  | _, _ => s
  end.

Fixpoint take_chars (n : nat) (s : string) : string :=
  match n, s with
  | Datatypes.S n', String c s' => String c (take_chars n' s')
  | _, _ => EmptyString
  end.

(** [s.slice(start, stop)]: a negative index counts from the end, and
    both are clamped to the string; [None] is a missing [stop]. *)
Definition slice (start : Z) (stop : option Z) (s : string) : string :=
  let len := Z.of_nat (String.length s) in
  let rel i := if (i <? 0)%Z then Z.max (len + i) 0 else Z.min i len in
  let from := rel start in
  let to := match stop with Some e => rel e | None => len end in
  take_chars (Z.to_nat (to - from)) (drop_chars (Z.to_nat from) s).

Definition startsWith (c : ascii) (s : string) : bool :=
  match s with
  | String d _ => Ascii.eqb d c
  | EmptyString => false
  end.

Fixpoint endsWith (c : ascii) (s : string) : bool :=
  match s with
  | EmptyString => false
  | String d EmptyString => Ascii.eqb d c
  | String _ s' => endsWith c s'
  end.

(** [s.replace(/QQ/g, Q)] where [Q] is the double quote character: every
    pair of quotes, found from left to right, becomes one quote. *)
Fixpoint replace_doubled_quotes (s : string) : string :=
  match s with
  | EmptyString => EmptyString
  | String a s' =>
      match s' with
      | String b s'' =>
          if Ascii.eqb a quote_char && Ascii.eqb b quote_char
          then String quote_char (replace_doubled_quotes s'')
          else String a (replace_doubled_quotes s')
      | EmptyString => String a EmptyString
      end
  end.

Definition parseCsvLine (line : string) : Outcome (string * string) :=
  match indexOf comma_char line with
  | None => Threw ("Invalid CSV row: " ++ line)
  | Some firstComma =>
      let id := trim (slice 0 (Some (Z.of_nat firstComma)) line) in
      let name := trim (slice (Z.of_nat firstComma + 1) None line) in
      let name :=
        if startsWith quote_char name && endsWith quote_char name
        then replace_doubled_quotes (slice 1 (Some (-1)%Z) name)
        else name in
      Returned (id, name)
  end.

(** [text.split(/\r?\n/)]: a line ends at a line feed, and a carriage
    return right before it belongs to the separator. *)
Fixpoint split_lines_from (s : string) (cur : string) : list string :=
  match s with
  | EmptyString => [cur]
  | String c rest =>
      if Ascii.eqb c LF then cur :: split_lines_from rest EmptyString
      else if Ascii.eqb c CR then
        match rest with
        | String d rest' =>
            if Ascii.eqb d LF then cur :: split_lines_from rest' EmptyString
            else split_lines_from rest (cur ++ String c EmptyString)
        | EmptyString => split_lines_from rest (cur ++ String c EmptyString)
        end
      else split_lines_from rest (cur ++ String c EmptyString)
  end.

Definition split_lines (text : string) : list string := split_lines_from text EmptyString.

(** [line.trim().length > 0] *)
Definition nonblank (line : string) : bool :=
  negb (Nat.eqb (String.length (trim line)) 0).

(** The loop over the lines after the header: the first line that does
    not parse throws. *)
Fixpoint parse_rows (lines : list string) : Outcome (list RecordRow) :=
  match lines with
  | [] => Returned []
  | line :: lines' =>
      match parseCsvLine line with
      | Threw message => Threw message
      | Returned (id, name) =>
          match parse_rows lines' with
          | Threw message => Threw message
          | Returned rows => Returned ({| row_id := id; row_name := name |} :: rows)
          end
      end
  end.

(** [loadDataset] on the text of the file: the first non-blank line is
    the header and is skipped. *)
Definition loadDataset_text (text : string) : Outcome (list RecordRow) :=
  parse_rows (tail (List.filter nonblank (split_lines text))).

(** [loadDataset(path)], reading the file through [file_text]. *)
Definition loadDataset (file_text : string -> Outcome string) (path : string)
  : Outcome (list RecordRow) :=
  match file_text path with
  | Threw message => Threw message
  | Returned text => loadDataset_text text
  end.

Example parseCsvLine_plain :
  parseCsvLine " 17 , Ada Lovelace " = Returned ("17", "Ada Lovelace").
Proof. reflexivity. Qed.

Example parseCsvLine_commas :
  parseCsvLine "17,Lovelace, Ada" = Returned ("17", "Lovelace, Ada").
Proof. reflexivity. Qed.

Example parseCsvLine_no_comma : parseCsvLine "17" = Threw "Invalid CSV row: 17".
Proof. reflexivity. Qed.

Example split_lines_mixed :
  split_lines (String "a" (String CR (String LF (String "b" (String LF EmptyString)))))
  = ["a"; "b"; ""].
Proof. reflexivity. Qed.

End Csv.

Module CsvFacts.

Import JsString Scorer Csv.

(** *** Strings *)

Lemma str_app_nil_l (s : string) : "" ++ s = s.
Proof. reflexivity. Qed.

Lemma str_app_cons (c : ascii) (s t : string) : String c s ++ t = String c (s ++ t).
Proof. reflexivity. Qed.

Ltac push_app := rewrite ?str_app_cons, ?str_app_nil_l.

Lemma str_app_nil_r (s : string) : s ++ "" = s.
Proof. induction s as [|c s IH]; push_app; [done | by rewrite IH]. Qed.

Lemma str_app_assoc (a b c : string) : (a ++ b) ++ c = a ++ (b ++ c).
Proof. induction a as [|x a IH]; push_app; [done | by rewrite IH]. Qed.

Lemma str_length_app (a b : string) :
  String.length (a ++ b) = (String.length a + String.length b)%nat.
Proof.
  induction a as [|x a IH]; push_app; cbn [String.length Nat.add]; [done | by rewrite IH].
Qed.

Lemma drop_chars_app (a b : string) : drop_chars (String.length a) (a ++ b) = b.
Proof.
  induction a as [|x a IH]; push_app; cbn [String.length drop_chars]; [by destruct b | done].
Qed.

Lemma drop_chars_app_cons (a b : string) (c : ascii) :
  drop_chars (Datatypes.S (String.length a)) (a ++ String c b) = b.
Proof.
  induction a as [|x a IH]; push_app; cbn [String.length drop_chars]; [by destruct b | done].
Qed.

Lemma take_chars_app (a b : string) : take_chars (String.length a) (a ++ b) = a.
Proof.
  induction a as [|x a IH]; push_app; cbn [String.length take_chars];
    [by destruct b | by rewrite IH].
Qed.

Lemma take_chars_all (s : string) : take_chars (String.length s) s = s.
Proof.
  induction s as [|x s IH]; cbn [String.length take_chars]; [done | by rewrite IH].
Qed.

(** The characters of a string. *)
Fixpoint has_char (c : ascii) (s : string) : bool :=
  match s with
  | EmptyString => false
  | String d s' => Ascii.eqb d c || has_char c s'
  end.

Lemma indexOf_None (c : ascii) (s : string) : indexOf c s = None <-> has_char c s = false.
Proof.
  induction s as [|d s IH]; cbn [indexOf has_char]; [done|].
  destruct (Ascii.eqb d c); cbn [orb]; [done|].
  rewrite <- IH. destruct (indexOf c s); cbn; split; congruence.
Qed.

Lemma indexOf_app (c : ascii) (a b : string) :
  has_char c a = false -> indexOf c (a ++ String c b) = Some (String.length a).
Proof.
  induction a as [|d a IH]; push_app; cbn [indexOf has_char String.length].
  - by rewrite Ascii.eqb_refl.
  - intros [Hd Ha]%orb_false_iff. rewrite Hd, IH by done. done.
Qed.

Lemma has_char_app (c : ascii) (a b : string) :
  has_char c (a ++ b) = has_char c a || has_char c b.
Proof.
  induction a as [|d a IH]; push_app; cbn [has_char orb]; [done|]. by rewrite IH, orb_assoc.
Qed.

Lemma slice_prefix (a b : string) :
  slice 0 (Some (Z.of_nat (String.length a))) (a ++ b) = a.
Proof.
  unfold slice. rewrite str_length_app. cbn [Z.ltb Z.compare].
  destruct (Z.ltb_spec (Z.of_nat (String.length a)) 0) as [|_]; [lia|].
  replace (Z.min 0 _) with 0%Z by lia.
  replace (Z.min (Z.of_nat (String.length a)) _) with (Z.of_nat (String.length a)) by lia.
  rewrite Z.sub_0_r, Nat2Z.id. cbn [Z.to_nat drop_chars]. apply take_chars_app.
Qed.

Lemma slice_suffix (a b : string) (c : ascii) :
  slice (Z.of_nat (String.length a) + 1) None (a ++ String c b) = b.
Proof.
  unfold slice. rewrite str_length_app. cbn [String.length].
  destruct (Z.ltb_spec (Z.of_nat (String.length a) + 1) 0) as [|_]; [lia|].
  replace (Z.min (Z.of_nat (String.length a) + 1) _)
    with (Z.of_nat (Datatypes.S (String.length a))) by lia.
  rewrite Nat2Z.id.
  replace (Z.to_nat _) with (String.length b) by lia.
  rewrite drop_chars_app_cons. apply take_chars_all.
Qed.

Lemma slice_inner (c d : ascii) (e : string) :
  slice 1 (Some (-1)%Z) (String c (e ++ String d "")) = e.
Proof.
  unfold slice. cbn [String.length]. rewrite str_length_app. cbn [String.length].
  cbn [Z.ltb Z.compare].
  replace (Z.min 1 _) with 1%Z by lia.
  replace (Z.max _ 0) with (Z.of_nat (String.length e) + 1)%Z by lia.
  replace (Z.to_nat (_ - 1)) with (String.length e) by lia.
  cbn [Z.to_nat Pos.to_nat Pos.iter_op Nat.add drop_chars]. apply take_chars_app.
Qed.

(** *** Trimming *)

Lemma trimEnd_nonempty (c : ascii) (s : string) :
  is_white_space c = false -> trimEnd (String c s) <> "".
Proof. intros Hc. cbn [trimEnd]. destruct (trimEnd s); [by rewrite Hc | done]. Qed.

Lemma trimEnd_id (s : string) (c : ascii) :
  is_white_space c = false -> trimEnd (s ++ String c "") = s ++ String c "".
Proof.
  intros Hc. induction s as [|d s IH]; push_app; cbn [trimEnd].
  - by rewrite Hc.
  - rewrite IH. by destruct s.
Qed.

Lemma trim_id (c d : ascii) (s : string) :
  is_white_space c = false -> is_white_space d = false ->
  trim (String c (s ++ String d "")) = String c (s ++ String d "").
Proof.
  intros Hc Hd. unfold trim. cbn [trimStart]. rewrite Hc.
  rewrite <- str_app_cons. by apply trimEnd_id.
Qed.

Lemma trimStart_has_char (c : ascii) (s : string) :
  is_white_space c = false -> has_char c s = true ->
  exists d t, trimStart s = String d t /\ is_white_space d = false.
Proof.
  intros Hc. induction s as [|x s IH]; cbn [has_char trimStart]; [done|].
  destruct (is_white_space x) eqn:Hx.
  - destruct (Ascii.eqb_spec x c) as [->|_]; [congruence|]. exact IH.
  - intros _. by eexists _, _.
Qed.

(** A line with a character that is not white space is not blank. *)
Lemma nonblank_has_char (c : ascii) (s : string) :
  is_white_space c = false -> has_char c s = true -> nonblank s = true.
Proof.
  intros Hc Hs. destruct (trimStart_has_char c s Hc Hs) as (d & t & Ht & Hd).
  unfold nonblank, trim. rewrite Ht.
  pose proof (trimEnd_nonempty d t Hd) as Hne. by destruct (trimEnd (String d t)).
Qed.

(** *** Quoting *)

(** A field as a CSV writer quotes it: every quote doubled, the whole
    between quotes. *)
Fixpoint escape_quotes (s : string) : string :=
  match s with
  | EmptyString => EmptyString
  | String c s' =>
      if Ascii.eqb c quote_char then String quote_char (String quote_char (escape_quotes s'))
      else String c (escape_quotes s')
  end.

Definition quoted (s : string) : string :=
  String quote_char (escape_quotes s ++ String quote_char "").

Lemma replace_escape (s : string) : replace_doubled_quotes (escape_quotes s) = s.
Proof.
  induction s as [|c s IH]; [done|]. cbn [escape_quotes].
  destruct (Ascii.eqb_spec c quote_char) as [->|Hne].
  - cbn [replace_doubled_quotes]. rewrite Ascii.eqb_refl. cbn [andb]. by rewrite IH.
  - cbn [replace_doubled_quotes]. destruct (escape_quotes s) as [|b t] eqn:E.
    + by rewrite <- IH.
    + apply Ascii.eqb_neq in Hne. rewrite Hne. cbn [andb]. by rewrite IH.
Qed.

Lemma endsWith_app (c : ascii) (s : string) : endsWith c (s ++ String c "") = true.
Proof.
  induction s as [|d s IH]; push_app; cbn [endsWith]; [apply Ascii.eqb_refl|].
  rewrite IH. by destruct s.
Qed.

Lemma quote_not_space : is_white_space quote_char = false.
Proof. reflexivity. Qed.

Lemma comma_not_space : is_white_space comma_char = false.
Proof. reflexivity. Qed.

Lemma parseCsvLine_at_comma (id rest : string) :
  has_char comma_char id = false ->
  parseCsvLine (id ++ String comma_char rest) =
  let name := trim rest in
  Returned (trim id,
            if startsWith quote_char name && endsWith quote_char name
            then replace_doubled_quotes (slice 1 (Some (-1)%Z) name)
            else name).
Proof.
  intros Hid. unfold parseCsvLine. rewrite indexOf_app by done.
  by rewrite slice_prefix, slice_suffix.
Qed.

Lemma parseCsvLine_quoted (id name : string) :
  has_char comma_char id = false -> trim id = id ->
  parseCsvLine (id ++ String comma_char (quoted name)) = Returned (id, name).
Proof.
  intros Hid Htrim. rewrite parseCsvLine_at_comma by done. cbv zeta. unfold quoted.
  rewrite trim_id by apply quote_not_space. cbn [startsWith].
  rewrite Ascii.eqb_refl. cbn [andb].
  rewrite <- str_app_cons at 1.
  rewrite endsWith_app, slice_inner, replace_escape, Htrim. done.
Qed.

(** *** Lines *)

Definition no_newline (s : string) : Prop :=
  has_char LF s = false /\ has_char CR s = false.

(** The line separators that [split] recognises. *)
Definition line_feed : string := String LF "".
Definition carriage_return_line_feed : string := String CR (String LF "").

Lemma split_lines_from_line (l sep rest cur : string) :
  no_newline l -> sep = line_feed \/ sep = carriage_return_line_feed ->
  split_lines_from (l ++ sep ++ rest) cur = (cur ++ l) :: split_lines_from rest "".
Proof.
  intros [Hlf Hcr] Hsep. revert cur. induction l as [|c l IH]; intros cur; push_app.
  - rewrite str_app_nil_r.
    destruct Hsep as [-> | ->]; unfold line_feed, carriage_return_line_feed;
      push_app; cbn [split_lines_from]; by rewrite ?Ascii.eqb_refl.
  - cbn [has_char] in Hlf, Hcr.
    apply orb_false_iff in Hlf as [Hc1 Hlf]. apply orb_false_iff in Hcr as [Hc2 Hcr].
    cbn [split_lines_from]. rewrite Hc1, Hc2, IH by done.
    by rewrite str_app_assoc.
Qed.

Lemma split_lines_from_last (l cur : string) :
  no_newline l -> split_lines_from l cur = [cur ++ l].
Proof.
  intros [Hlf Hcr]. revert cur. induction l as [|c l IH]; intros cur.
  - by rewrite str_app_nil_r.
  - cbn [has_char] in Hlf, Hcr.
    apply orb_false_iff in Hlf as [Hc1 Hlf]. apply orb_false_iff in Hcr as [Hc2 Hcr].
    cbn [split_lines_from]. rewrite Hc1, Hc2, IH by done.
    by rewrite str_app_assoc.
Qed.

(** A text file: each line followed by the separator. *)
Fixpoint unlines (sep : string) (lines : list string) : string :=
  match lines with
  | [] => ""
  | l :: lines' => l ++ sep ++ unlines sep lines'
  end.

Lemma split_lines_unlines (sep : string) (lines : list string) :
  sep = line_feed \/ sep = carriage_return_line_feed ->
  Forall no_newline lines ->
  split_lines (unlines sep lines) = (lines ++ [""])%list.
Proof.
  intros Hsep Hl. unfold split_lines. induction Hl as [|l lines Hl _ IH]; [done|].
  cbn [unlines]. rewrite split_lines_from_line by done. by rewrite IH.
Qed.

(** *** Rows *)

(** The line a CSV writer produces for a row. *)
Definition row_line (r : RecordRow) : string :=
  row_id r ++ String comma_char (quoted (row_name r)).

(** What an id must satisfy to be found again: no comma and no
    surrounding white space. The name is free. *)
Definition writable (r : RecordRow) : Prop :=
  has_char comma_char (row_id r) = false /\ trim (row_id r) = row_id r.

Lemma row_line_nonblank (r : RecordRow) : nonblank (row_line r) = true.
Proof.
  apply (nonblank_has_char comma_char); [apply comma_not_space|].
  unfold row_line. rewrite has_char_app. cbn [has_char]. rewrite Ascii.eqb_refl.
  cbn [orb]. apply orb_true_r.
Qed.

Lemma parse_rows_row_lines (rows : list RecordRow) :
  Forall writable rows -> parse_rows (map row_line rows) = Returned rows.
Proof.
  induction 1 as [|r rows [Hc Ht] _ IH]; [done|].
  cbn [map parse_rows]. unfold row_line at 1. rewrite parseCsvLine_quoted by done.
  rewrite IH. by destruct r.
Qed.

Lemma parse_rows_app_bad (good : list string) (bad : string) (rest : list string) :
  Forall (fun l => has_char comma_char l = true) good ->
  has_char comma_char bad = false ->
  parse_rows (good ++ bad :: rest)%list = Threw ("Invalid CSV row: " ++ bad).
Proof.
  intros Hgood Hbad. induction Hgood as [|l good Hl _ IH]; cbn [app parse_rows].
  - unfold parseCsvLine. apply indexOf_None in Hbad. by rewrite Hbad.
  - unfold parseCsvLine at 1. destruct (indexOf comma_char l) eqn:E.
    + cbv zeta. by rewrite IH.
    + apply indexOf_None in E. congruence.
Qed.

(** [parseCsvLine]: a line without a comma is refused with the line in the
    message, and any line with a comma is accepted. *)
Theorem parseCsvLine_throws_iff (line : string) :
  (has_char comma_char line = false <->
   parseCsvLine line = Threw ("Invalid CSV row: " ++ line)) /\
  (has_char comma_char line = true <-> exists id name, parseCsvLine line = Returned (id, name)).
Proof.
  unfold parseCsvLine. destruct (indexOf comma_char line) as [n|] eqn:E.
  - assert (H : has_char comma_char line = true).
    { destruct (has_char comma_char line) eqn:H; [done|].
      apply indexOf_None in H. congruence. }
    rewrite H. cbv zeta. split; split; try done. by eexists _, _.
  - apply indexOf_None in E. rewrite E. split; split; try done. by intros (? & ? & ?).
Qed.

(** [parseCsvLine]: the line is cut at its first comma, so commas in the
    name are kept; both fields are trimmed, and a name that is not between
    quotes is returned as it is. *)
Theorem parseCsvLine_first_comma (id name : string) :
  has_char comma_char id = false ->
  startsWith quote_char (trim name) && endsWith quote_char (trim name) = false ->
  parseCsvLine (id ++ String comma_char name) = Returned (trim id, trim name).
Proof.
  intros Hid Hq. rewrite parseCsvLine_at_comma by done. cbv zeta. by rewrite Hq.
Qed.

(** [parseCsvLine]: reading back a written row. A name written between
    quotes with its quotes doubled is returned unquoted, whatever it
    contains. *)
Theorem parseCsvLine_round_trip (id name : string) :
  has_char comma_char id = false -> trim id = id ->
  parseCsvLine (id ++ String comma_char (quoted name)) = Returned (id, name).
Proof. apply parseCsvLine_quoted. Qed.

(** [loadDataset]: a file whose lines that are not blank are a header
    followed by one written line per row loads as exactly these rows, in
    order, with either line separator: the header is not a row, and blank
    lines are ignored wherever they are. *)
Theorem loadDataset_round_trip (file_text : string -> Outcome string)
    (path sep header : string) (lines : list string) (rows : list RecordRow) :
  sep = line_feed \/ sep = carriage_return_line_feed ->
  Forall no_newline lines ->
  List.filter nonblank lines = header :: map row_line rows ->
  Forall writable rows ->
  file_text path = Returned (unlines sep lines) ->
  loadDataset file_text path = Returned rows.
Proof.
  intros Hsep Hl Hnb Hrows Hfile. unfold loadDataset, loadDataset_text. rewrite Hfile.
  rewrite split_lines_unlines, List.filter_app, Hnb by done.
  cbn [List.filter]. change (nonblank "") with false. cbv iota.
  rewrite app_nil_r. cbn [tail]. by apply parse_rows_row_lines.
Qed.

(** [loadDataset]: the first line without a comma after the header makes
    the whole load fail with that line in the message, whatever follows
    it: no row is returned. The header itself needs no comma. *)
Theorem loadDataset_malformed_row (file_text : string -> Outcome string)
    (path text header bad : string) (good rest : list string) :
  file_text path = Returned text ->
  List.filter nonblank (split_lines text) = (header :: good ++ bad :: rest)%list ->
  Forall (fun l => has_char comma_char l = true) good ->
  has_char comma_char bad = false ->
  loadDataset file_text path = Threw ("Invalid CSV row: " ++ bad).
Proof.
  intros Hfile Hlines Hgood Hbad. unfold loadDataset, loadDataset_text.
  rewrite Hfile, Hlines. cbn [tail]. by apply parse_rows_app_bad.
Qed.

End CsvFacts.

(** ** The command line: [parseArgs] *)

Module Cli.

Import JsString JsNumber Scorer.

(** [args.indexOf(flag)] *)
Fixpoint Array_indexOf (args : list string) (flag : string) : option nat :=
  match args with
  | [] => None
  | a :: args' =>
      if String.eqb a flag then Some 0%nat
      else option_map Datatypes.S (Array_indexOf args' flag)
  end.

(** [get]: the word after the first occurrence of the flag; [None] is
    [undefined], from a flag that is absent or is the last word. *)
Definition get (args : list string) (flag : string) : option string :=
  match Array_indexOf args flag with
  | None => None
  | Some idx => nth_error args (idx + 1)
  end.

Definition has (args : list string) (flag : string) : bool := Array_includes args flag.

(** [Number.parseInt(s, 10)] as a mathematical integer, [None] being
    [NaN]: leading white space is skipped, then a sign, then the
    longest run of decimal digits is read and the rest of the string is
    ignored. *)
Definition digit_value (c : ascii) : option Z :=
  let n := nat_of_ascii c in
  if Nat.leb 48 n && Nat.leb n 57 then Some (Z.of_nat (n - 48)) else None.

Fixpoint digits_prefix (s : string) (acc : option Z) : option Z :=
  match s with
  | EmptyString => acc
  | String c s' =>
      match digit_value c with
      | Some d => digits_prefix s' (Some (10 * default 0 acc + d)%Z)
      | None => acc
      end
  end.

Definition parseInt (s : string) : option Z :=
  let s := trimStart s in
  let '(negative, s) :=
    match s with
    | String "-" s' => (true, s')
    | String "+" s' => (false, s')
    | _ => (false, s)
    end in
  match digits_prefix s None with
  | None => None
  | Some n => Some (if negative then - n else n)%Z
  end.

(** The Number value of an integer: the nearest binary64 value. (For a
    numeral of more than 20 significant digits the language lets an
    engine round the digits after the 20th first.) *)
Definition number_of (n : Z) : spec_float := binary_normalize prec emax n 0 false.

(** [Number.isFinite(x) ? x : fallback], for a Number that is an
    integer when it is finite. *)
Definition finite_or (fallback : Z) (x : spec_float) : Z :=
  match x with
  | S754_zero _ => 0%Z
  | S754_finite s m e =>
      cond_Zopp s (if 0 <=? e then Zpos m * 2 ^ e else Zpos m / 2 ^ (- e))%Z
  | _ => fallback
  end.

Definition DatasetName_of (s : string) : option DatasetName :=
  if String.eqb s "small" then Some small
  else if String.eqb s "large" then Some large
  else None.

(** [parseArgs], from [Bun.argv]. *)
Definition parseArgs (argv : list string) : Outcome Args :=
  let args := drop 2 argv in
  let dataset := default "small" (get args "--dataset") in
  match DatasetName_of dataset with
  | None => Threw ("Invalid --dataset: " ++ dataset)
  | Some name =>
      let suitePath := default ("tests/public_" ++ dataset ++ ".json") (get args "--suite") in
      let timeoutMs :=
        match parseInt (default "2000" (get args "--timeout-ms")) with
        | None => 2000%Z
        | Some n => finite_or 2000%Z (number_of n)
        end in
      Returned {| dataset := name; suitePath := suitePath; verbose := has args "--verbose";
                  timeoutMs := timeoutMs |}
  end.

Example parseInt_digits : parseInt "250" = Some 250%Z.
Proof. reflexivity. Qed.

Example parseInt_prefix : parseInt "  -12ms" = Some (-12)%Z.
Proof. reflexivity. Qed.

Example parseInt_no_digit : parseInt "fast" = None /\ parseInt "" = None /\ parseInt "-" = None.
Proof. by repeat split. Qed.

Example parseArgs_plain :
  parseArgs ["bun"; "score.ts"; "--dataset"; "large"; "--verbose"; "--timeout-ms"; "500"]
  = Returned {| dataset := large; suitePath := "tests/public_large.json"; verbose := true;
                timeoutMs := 500 |}.
Proof. vm_compute. reflexivity. Qed.

End Cli.

Module CliFacts.

Import JsString JsNumber Scorer Normalisation Binary64 Cli.

Lemma Array_indexOf_None (args : list string) (flag : string) :
  Array_indexOf args flag = None <-> flag ∉ args.
Proof.
  induction args as [|a args IH]; cbn [Array_indexOf].
  - split; [intros _; apply not_elem_of_nil | done].
  - rewrite not_elem_of_cons. destruct (String.eqb_spec a flag) as [->|Hne].
    + split; [done | by intros [? _]].
    + destruct (Array_indexOf args flag); cbn [option_map].
      * split; [done|]. intros [_ H]. by apply IH in H.
      * split; [|done]. intros _. split; [congruence | by apply IH].
Qed.

Lemma Array_indexOf_first (pre rest : list string) (flag : string) :
  flag ∉ pre -> Array_indexOf (pre ++ flag :: rest)%list flag = Some (length pre).
Proof.
  induction pre as [|a pre IH]; cbn [app Array_indexOf length].
  - by rewrite String.eqb_refl.
  - intros [Hne Hpre]%not_elem_of_cons.
    destruct (String.eqb_spec a flag) as [->|_]; [done|]. by rewrite IH.
Qed.

Lemma get_absent (args : list string) (flag : string) : flag ∉ args -> get args flag = None.
Proof. intros H. unfold get. apply Array_indexOf_None in H. by rewrite H. Qed.

Lemma get_first (pre rest : list string) (flag : string) :
  flag ∉ pre -> get (pre ++ flag :: rest)%list flag = head rest.
Proof.
  intros H. unfold get. rewrite Array_indexOf_first by done.
  rewrite nth_error_app2 by lia.
  replace (length pre + 1 - length pre)%nat with 1%nat by lia. by destruct rest.
Qed.

Lemma DatasetName_of_Some (s : string) (name : DatasetName) :
  DatasetName_of s = Some name -> s = DatasetName_string name.
Proof.
  unfold DatasetName_of. destruct (String.eqb_spec s "small") as [->|_].
  - by intros [= <-].
  - destruct (String.eqb_spec s "large") as [->|_]; [by intros [= <-] | done].
Qed.

Lemma DatasetName_of_None (s : string) :
  DatasetName_of s = None <-> s <> "small" /\ s <> "large".
Proof.
  unfold DatasetName_of. destruct (String.eqb_spec s "small") as [->|H1].
  - split; [done | by intros [? _]].
  - destruct (String.eqb_spec s "large") as [->|H2]; [split; [done | by intros [_ ?]] | done].
Qed.

Lemma binary_round_integer (s : bool) (p : positive) :
  (Zpos p < 2 ^ 53)%Z ->
  binary_round prec emax s p 0
  = S754_finite s (Z.to_pos (Zpos p * 2 ^ (53 - Zdigits2 (Zpos p)))) (Zdigits2 (Zpos p) - 53).
Proof.
  intros Hlt.
  destruct (canonical_of_bounded (Zpos p) ltac:(lia)) as [Hpos Hb].
  pose proof (Zdigits2_pos (Zpos p) ltac:(lia)) as Hd.
  assert (Hd53 : (Zdigits2 (Zpos p) <= 53)%Z) by (apply Zdigits2_le; lia).
  apply binary_round_exact; [done|].
  rewrite Z2Pos.id by done.
  replace (Z.min 0 (Zdigits2 (Zpos p) - 53)) with (Zdigits2 (Zpos p) - 53)%Z by lia.
  rewrite Z.sub_diag. change (2 ^ 0)%Z with 1%Z.
  replace (0 - (Zdigits2 (Zpos p) - 53))%Z with (53 - Zdigits2 (Zpos p))%Z by lia. lia.
Qed.

(** An integer below [2^53] in absolute value is a Number, exactly. *)
Lemma finite_or_number_of (fallback n : Z) :
  (Z.abs n < 2 ^ 53)%Z -> finite_or fallback (number_of n) = n.
Proof.
  intros Hn. unfold number_of.
  assert (Hval : forall s p, (Zpos p < 2 ^ 53)%Z ->
            finite_or fallback (binary_round prec emax s p 0) = cond_Zopp s (Zpos p)).
  { intros s p Hp. rewrite binary_round_integer by done. cbn [finite_or]. f_equal.
    destruct (canonical_of_bounded (Zpos p) ltac:(lia)) as [Hpos _].
    pose proof (Zdigits2_pos (Zpos p) ltac:(lia)) as Hd.
    assert (Hd53 : (Zdigits2 (Zpos p) <= 53)%Z) by (apply Zdigits2_le; lia).
    rewrite Z2Pos.id by done.
    destruct (Z.leb_spec 0 (Zdigits2 (Zpos p) - 53)) as [Hle|Hgt].
    - replace (Zdigits2 (Zpos p)) with 53%Z by lia. cbn. lia.
    - replace (- (Zdigits2 (Zpos p) - 53))%Z with (53 - Zdigits2 (Zpos p))%Z by lia.
      apply Z.div_mul. apply Z.pow_nonzero; lia. }
  destruct n as [|p|p]; [done| |]; cbn [binary_normalize]; rewrite Hval by lia; done.
Qed.

(** [parseArgs], the flag lookup: a flag's value is the word right after
    its first occurrence, whatever that word is and whatever comes later;
    a flag that is the last word, or is absent, has no value. *)
Theorem get_first_occurrence (pre rest : list string) (flag : string) :
  flag ∉ pre ->
  get (pre ++ flag :: rest)%list flag = head rest /\ get pre flag = None.
Proof. intros H. split; [by apply get_first | by apply get_absent]. Qed.

(** [parseArgs] fails in one way only: the word after [--dataset] is
    neither [small] nor [large]; the message quotes that word. No other
    flag is validated. *)
Theorem parseArgs_throws_iff (argv : list string) (message : string) :
  parseArgs argv = Threw message <->
  exists word, get (drop 2 argv) "--dataset" = Some word
               /\ word <> "small" /\ word <> "large"
               /\ message = "Invalid --dataset: " ++ word.
Proof.
  unfold parseArgs. cbv zeta. split.
  - destruct (get (drop 2 argv) "--dataset") as [word|]; cbn [from_option id]; [|done].
    destruct (DatasetName_of word) eqn:E; [done|].
    apply DatasetName_of_None in E as [H1 H2]. intros [= <-]. by exists word.
  - intros (word & -> & H1 & H2 & ->). cbn [from_option id].
    assert (E : DatasetName_of word = None) by by apply DatasetName_of_None.
    by rewrite E.
Qed.

(** [parseArgs], the defaults: without [--dataset] the dataset is
    [small]; without [--suite] the suite is the public suite of the
    chosen dataset; without [--timeout-ms] the timeout is 2000; the run
    is verbose exactly when [--verbose] is among the words. *)
Theorem parseArgs_defaults (argv : list string) (a : Args) :
  parseArgs argv = Returned a ->
  let args := drop 2 argv in
  ("--dataset" ∉ args -> dataset a = small)
  /\ ("--suite" ∉ args ->
      suitePath a = "tests/public_" ++ DatasetName_string (dataset a) ++ ".json")
  /\ ("--timeout-ms" ∉ args -> timeoutMs a = 2000%Z)
  /\ (verbose a = true <-> "--verbose" ∈ args).
Proof.
  unfold parseArgs. cbv zeta.
  destruct (DatasetName_of _) as [name|] eqn:E; [|done]. intros [= <-].
  cbn [dataset suitePath timeoutMs verbose]. repeat split.
  - intros H. rewrite get_absent in E by done. cbn [from_option id] in E.
    by injection E as <-.
  - intros H. rewrite (get_absent _ "--suite") by done. cbn [from_option id].
    by rewrite (DatasetName_of_Some _ _ E).
  - intros H. by rewrite (get_absent _ "--timeout-ms") by done.
  - unfold has. apply Array_includes_spec.
  - unfold has. apply Array_includes_spec.
Qed.

(** [parseArgs], the timeout: a value that does not start (after white
    space and a sign) with a digit gives 2000; otherwise the timeout is
    the integer read, whatever its sign, when it is below [2^53]. *)
Theorem parseArgs_timeout (argv : list string) (a : Args) (word : string) :
  parseArgs argv = Returned a ->
  get (drop 2 argv) "--timeout-ms" = Some word ->
  (parseInt word = None -> timeoutMs a = 2000%Z)
  /\ (forall n, parseInt word = Some n -> (Z.abs n < 2 ^ 53)%Z -> timeoutMs a = n).
Proof.
  unfold parseArgs. cbv zeta.
  destruct (DatasetName_of _) as [name|]; [|done]. intros [= <-] Hget.
  cbn [timeoutMs]. rewrite Hget. cbn [from_option id]. split.
  - by intros ->.
  - intros n -> Hn. by apply finite_or_number_of.
Qed.

End CliFacts.

(** ** What the report shows: painters and [formatIdName] *)

Module Display.

Import JsString JsNumber Scorer.

(** The painters of [color]. *)
Inductive Painter := bold | dim | red | green | yellow | blue | magenta | cyan.

Definition scorePainter (score : float) : Painter :=
  if (85 <=? score)%float then green
  else if (65 <=? score)%float then yellow
  else red.

Definition percentPainter (percent : float) : Painter :=
  if (90 <=? percent)%float then green
  else if (70 <=? percent)%float then yellow
  else red.

(** [byId.get(id)?.name ?? "<unknown-id>"] between the brackets and the
    name. *)
Definition formatIdName (id : string) (byId : gmap string RecordRow) : string :=
  let name :=
    match byId !! id with
    | Some row => row_name row
    | None => "<unknown-id>"
    end in
  "[" ++ id ++ "] " ++ name.

(** How good a painter says a value is. *)
Definition grade (p : Painter) : nat :=
  match p with green => 2 | yellow => 1 | _ => 0 end.

End Display.

Module DisplayFacts.

Import JsString JsNumber Scorer Binary64 NumberFacts Display.

Lemma leb_rank (x y : float) :
  (x <=? y)%float = true <->
  SF_is_nan (Prim2SF x) = false /\ SF_is_nan (Prim2SF y) = false
  /\ (SF_rank (Prim2SF x) <= SF_rank (Prim2SF y))%Z.
Proof.
  rewrite FloatAxioms.leb_spec. unfold SFleb.
  destruct (SF_is_nan (Prim2SF x)) eqn:Hx.
  { destruct (Prim2SF x); try done. cbn. split; [done | by intros [? _]]. }
  destruct (SF_is_nan (Prim2SF y)) eqn:Hy.
  { destruct (Prim2SF y); try done.
    destruct (Prim2SF x); cbn; (split; [done | by intros (_ & ? & _)]). }
  rewrite SFcompare_rank by auto using Prim2SF_valid.
  destruct (Z.compare_spec (SF_rank (Prim2SF x)) (SF_rank (Prim2SF y))) as [H|H|H].
  - split; [intros _; repeat split; lia | done].
  - split; [intros _; repeat split; lia | done].
  - split; [done | intros (_ & _ & ?); lia].
Qed.

Lemma leb_trans (x y z : float) :
  (x <=? y)%float = true -> (y <=? z)%float = true -> (x <=? z)%float = true.
Proof.
  rewrite !leb_rank. intros (? & ? & ?) (? & ? & ?). repeat split; try done. lia.
Qed.

Lemma leb_nan (x y : float) : is_nan y = true -> (x <=? y)%float = false.
Proof.
  rewrite is_nan_SF. intros Hy. destruct (x <=? y)%float eqn:E; [|done].
  apply leb_rank in E as (_ & ? & _). congruence.
Qed.

Lemma fold_insert_absent {V} (entries : list (string * V)) (m0 : gmap string V) (k : string) :
  k ∉ entries.*1 ->
  fold_left (fun m kv => <[ fst kv := snd kv ]> m) entries m0 !! k = m0 !! k.
Proof.
  revert m0. induction entries as [|[k' v] entries IH]; intros m0; [done|].
  cbn [fmap list_fmap fold_left fst snd]. intros [Hne Hk]%not_elem_of_cons.
  rewrite IH by done. by rewrite lookup_insert_ne.
Qed.

(** The index keeps, for an id, the last row that has it. *)
Lemma index_rows_lookup (rows : list RecordRow) (id : string) :
  index_rows rows !! id = last (List.filter (fun row => String.eqb (row_id row) id) rows).
Proof.
  unfold index_rows, Map_new.
  induction rows as [|r rows IH] using rev_ind; [done|].
  rewrite map_app, fold_left_app, List.filter_app. cbn [map fold_left fst snd List.filter].
  destruct (String.eqb_spec (row_id r) id) as [<-|Hne].
  - by rewrite lookup_insert_eq, last_snoc.
  - rewrite lookup_insert_ne by done. by rewrite app_nil_r.
Qed.

(** [scorePainter] and [percentPainter] never paint a larger value
    worse than a smaller one. *)
Theorem painters_monotone (x y : float) :
  (x <=? y)%float = true ->
  (grade (scorePainter x) <= grade (scorePainter y))%nat
  /\ (grade (percentPainter x) <= grade (percentPainter y))%nat.
Proof.
  intros Hxy. unfold scorePainter, percentPainter. split.
  - destruct (85 <=? x)%float eqn:H1.
    { by rewrite (leb_trans _ _ _ H1 Hxy). }
    destruct (65 <=? x)%float eqn:H2.
    { rewrite (leb_trans _ _ _ H2 Hxy). destruct (85 <=? y)%float; cbn; lia. }
    cbn. lia.
  - destruct (90 <=? x)%float eqn:H1.
    { by rewrite (leb_trans _ _ _ H1 Hxy). }
    destruct (70 <=? x)%float eqn:H2.
    { rewrite (leb_trans _ _ _ H2 Hxy). destruct (90 <=? y)%float; cbn; lia. }
    cbn. lia.
Qed.

(** A percentage is never painted better than the same value as a
    score, and a value that is not a number is painted red by both. *)
Theorem percent_painter_stricter (x : float) :
  (grade (percentPainter x) <= grade (scorePainter x))%nat
  /\ (is_nan x = true -> scorePainter x = red /\ percentPainter x = red).
Proof.
  unfold scorePainter, percentPainter. split.
  - destruct (90 <=? x)%float eqn:H1.
    { assert (H : (85 <=? x)%float = true) by (eapply leb_trans; [|exact H1]; done).
      by rewrite H. }
    destruct (70 <=? x)%float eqn:H2.
    { assert (H : (65 <=? x)%float = true) by (eapply leb_trans; [|exact H2]; done).
      rewrite H. destruct (85 <=? x)%float; cbn; lia. }
    cbn. lia.
  - intros Hx. by rewrite !leb_nan.
Qed.

(** [formatIdName] on the index [main] builds: an id is shown with the
    name of the last dataset row that has this id, and with
    [<unknown-id>] when no row has it. *)
Theorem formatIdName_index (rows : list RecordRow) (id : string) :
  formatIdName id (index_rows rows) =
  "[" ++ id ++ "] " ++
  match last (List.filter (fun row => String.eqb (row_id row) id) rows) with
  | Some row => row_name row
  | None => "<unknown-id>"
  end.
Proof. unfold formatIdName. by rewrite index_rows_lookup. Qed.

End DisplayFacts.

(** ** The shipped submission, [src/submission/search.ts] *)

Module Stub.

Import JsString JsNumber Scorer Normalisation Classification Runs Binary64.

Section Stub.

Context {unknown : Type}.
Variable elements : unknown -> option (list unknown).
Variable ToString : unknown -> string.

(** The array [[]] that [search] resolves to. *)
Variable empty_array : unknown.
Hypothesis elements_empty_array : elements empty_array = Some [].

(** What the scorer's clock measures around the call for a query. *)
Variable clock : string -> float.

Definition setup (_datasetPath : string) (s : unit) : unit * option (Thrown unknown) :=
  (s, None).

Definition search (_query : string) (s : unit) : unit * Observation unknown :=
  (s, {| call := Returns (SettlesFirst (Fulfilled empty_array)); elapsed := clock _query |}).

Definition cleanup (s : unit) : unit * option (Thrown unknown) := (s, None).

Definition submission : Submission unknown unit :=
  {| Scorer.setup := Some setup; Scorer.search := search; Scorer.cleanup := Some cleanup |}.

Definition expects_nothing (testCase : TestCase) : bool :=
  Nat.eqb (length (expectedIds testCase)) 0.

Lemma filter_false {A} (l : list A) : List.filter (fun _ => false) l = [].
Proof. by induction l. Qed.

Lemma filter_true {A} (l : list A) : List.filter (fun _ => true) l = l.
Proof. induction l as [|x l IH]; [done|]. cbn. by rewrite IH. Qed.

Lemma evaluate_search byId timeoutMs (testCase : TestCase) (q : string) :
  evaluate elements ToString byId timeoutMs testCase (search q tt).2 =
  {| returnedIds := []; runtimeError := None; elapsedMs := clock q;
     hitIds := []; missingIds := expectedIds testCase; fpHits := [];
     invalidIds := []; extrasUnscored := []; pass := expects_nothing testCase |}.
Proof using elements_empty_array.
  unfold evaluate, search, attempt, withTimeout, toUniqueIds. cbn [snd call elapsed].
  rewrite elements_empty_array. cbn [fold_left fst List.filter length Array_includes existsb negb].
  rewrite filter_false, filter_true. unfold expects_nothing.
  by destruct (Nat.eqb _ 0).
Qed.

Lemma observe_search (queries : list string) :
  observe submission queries tt = (map (fun q => (search q tt).2) queries, tt).
Proof.
  induction queries as [|q queries IH]; [done|].
  cbn [observe map]. cbn [Scorer.search submission]. unfold search at 1.
  by rewrite IH.
Qed.

Lemma tally_search byId timeoutMs (testCases : list TestCase) (st : Counters * list CaseReport) :
  let st' := tally elements ToString byId timeoutMs testCases
               (map (fun q => (search q tt).2) (map query testCases)) st in
  expectedTotal st'.1
  = (expectedTotal st.1 + sum_list ((fun tc => length (expectedIds tc)) <$> testCases))%nat
  /\ expectedHits st'.1 = expectedHits st.1
  /\ listedFalsePositiveCount st'.1 = listedFalsePositiveCount st.1
  /\ unexpectedExtraCount st'.1 = unexpectedExtraCount st.1
  /\ invalidIdCount st'.1 = invalidIdCount st.1
  /\ returnedTotal st'.1 = returnedTotal st.1
  /\ passCases st'.1 = (passCases st.1 + length (List.filter expects_nothing testCases))%nat.
Proof using elements_empty_array.
  revert st. induction testCases as [|tc tcs IH]; intros st.
  - cbn. repeat split; lia.
  - unfold tally. cbn [map zip zip_with fold_left].
    specialize (IH (tally_step elements ToString byId timeoutMs st
                      (tc, (search (query tc) tt).2))).
    unfold tally in IH. cbv zeta in IH. destruct IH as (H1 & H2 & H3 & H4 & H5 & H6 & H7).
    cbv zeta. rewrite H1, H2, H3, H4, H5, H6, H7. clear H1 H2 H3 H4 H5 H6 H7.
    unfold tally_step. cbn [fst snd]. rewrite evaluate_search.
    cbn [accumulate expectedTotal expectedHits listedFalsePositiveCount unexpectedExtraCount
         invalidIdCount returnedTotal passCases hitIds fpHits extrasUnscored invalidIds
         returnedIds pass length fmap list_fmap sum_list sum_list_with List.filter].
    unfold id. repeat split; try lia.
    destruct (expects_nothing tc); cbn [length]; lia.
Qed.

Lemma zero_div_Num (n : nat) :
  (0 < Z.of_nat n < 2 ^ 53)%Z -> (Num 0 / Num n)%float = 0%float.
Proof.
  intros Hn. apply Prim2SF_inj. rewrite FloatAxioms.div_spec.
  rewrite (Prim2SF_Num n) by lia.
  change (Prim2SF (Num 0)) with (S754_zero false).
  change (Prim2SF 0) with (S754_zero false).
  unfold canonical_of. destruct (Z.of_nat n) as [|p|p] eqn:E; [lia| |lia]. done.
Qed.

(** The shipped submission returns nothing for every query. A run with
    it never returns an id, so it hits nothing and is charged nothing;
    it passes exactly the cases that expect no id; its precision is 0;
    and its score is 0 as soon as one id is expected, 100 when none
    is. *)
Theorem shipped_submission_score (args : Args) (env : Env) (w : World unit)
    (summary : Summary) (suite : TestSuite) :
  run elements ToString submission args env tt = (w, Returned summary) ->
  read_suite env (suitePath args) = Returned suite ->
  let c := counters summary in
  returnedTotal c = 0%nat /\ expectedHits c = 0%nat
  /\ listedFalsePositiveCount c = 0%nat /\ unexpectedExtraCount c = 0%nat
  /\ invalidIdCount c = 0%nat
  /\ passCases c = length (List.filter expects_nothing (cases suite))
  /\ precision summary = 0%float
  /\ (expectedTotal c = 0%nat -> recall summary = 100%float /\ score summary = 100%float)
  /\ ((0 < Z.of_nat (expectedTotal c) < 2 ^ 53)%Z ->
      recall summary = 0%float /\ score summary = 0%float).
Proof using elements_empty_array.
  rewrite run_unfold. cbv zeta. intros Hrun Hsuite. rewrite Hsuite in Hrun.
  destruct (negb _); [done|].
  destruct (loadDataset env (datasetPath args env)) as [rows|]; [|done].
  unfold setup_result, cleanup_result in Hrun.
  cbn [Scorer.setup Scorer.cleanup submission setup cleanup] in Hrun.
  rewrite observe_search in Hrun. injection Hrun as _ <-.
  destruct (tally_search (index_rows rows) (timeoutMs args) (cases suite) (Counters_init, []))
    as (H1 & H2 & H3 & H4 & H5 & H6 & H7).
  set (st := tally _ _ _ _ _ _ _) in *.
  cbn [fst snd Counters_init expectedTotal expectedHits listedFalsePositiveCount
       unexpectedExtraCount invalidIdCount returnedTotal passCases Nat.add] in *.
  cbv zeta. change (counters (finalize st.1 st.2 (length (cases suite)))) with st.1.
  rewrite H2, H3, H4, H5, H6, H7.
  split; [done|]. split; [done|]. split; [done|]. split; [done|]. split; [done|].
  split; [done|]. unfold finalize. cbn [precision recall score].
  rewrite H2, H3, H4, H5, H6. split; [done|]. split.
  - intros ->. split; reflexivity.
  - intros [Hpos Hlt].
    destruct (Nat.eqb_spec (expectedTotal st.1) 0) as [E|_]; [lia|].
    rewrite zero_div_Num by done. split; reflexivity.
Qed.

End Stub.

End Stub.

(** ** More scenarios *)

Module MoreScenarios.

Import JsString JsNumber Scorer Normalisation Classification Runs Binary64 Timing Metrics.
Import Scenarios CaseFacts RunFacts RangeFacts.

(** *** One case *)



(** *** Whole runs *)

Lemma counters_are_sums_witness :
  length (reports summary_a) = 4%nat
  /\ expectedHits (counters summary_a)
     = sum_list ((fun r => length (hitIds r)) <$> reports summary_a)
  /\ passCases (counters summary_a) = length (List.filter pass (reports summary_a)).
Proof.
  destruct (counters_are_sums elements ToString candidate args_small (env_of suite_a) 0%nat
              world_a summary_a suite_a run_a_returns eq_refl)
    as (H1 & _ & H3 & _ & _ & _ & _ & H8 & _).
  exact (conj H1 (conj H3 H8)).
Defined.

Lemma lifecycle_order_witness :
  calls world_a =
  [SetupCalled "/work/data/datasets/small/names.csv"; SearchCalled "q1"; SearchCalled "q2";
   SearchCalled "q4"; SearchCalled "q5"; CleanupCalled].
Proof.
  exact (lifecycle_order elements ToString candidate args_small (env_of suite_a) 0%nat
           world_a summary_a suite_a run_a_returns eq_refl).
Defined.

(** A candidate whose [setup] throws an error. *)
Definition candidate_without_data : Submission JsValue nat :=
  {| setup := Some (fun _ n => (n, Some (ErrorObject "no data")));
     search := search candidate;
     cleanup := cleanup candidate |}.

Lemma setup_failure_fatal_witness :
  run elements ToString candidate_without_data args_small (env_of suite_a) 0%nat =
  ({| candidate_state := 0%nat;
      calls := [SetupCalled "/work/data/datasets/small/names.csv"] |},
   Threw "no data").
Proof.
  exact (setup_failure_fatal elements ToString candidate_without_data args_small
           (env_of suite_a) 0%nat 0%nat suite_a rows
           (fun _ n => (n, Some (ErrorObject "no data"))) (ErrorObject "no data")
           eq_refl eq_refl eq_refl eq_refl eq_refl).
Defined.

(** A candidate whose [cleanup] throws a value that is not an error. *)
Definition candidate_failing_late : Submission JsValue nat :=
  {| setup := None;
     search := search candidate;
     cleanup := Some (fun n => (n, Some (ThrownValue (JsText "late")))) |}.

Lemma cleanup_failure_fatal_witness :
  run elements ToString candidate_failing_late args_small (env_of suite_a) 0%nat =
  ({| candidate_state := 4%nat;
      calls := [SearchCalled "q1"; SearchCalled "q2"; SearchCalled "q4"; SearchCalled "q5";
                CleanupCalled] |},
   Threw "late").
Proof.
  exact (cleanup_failure_fatal elements ToString candidate_failing_late args_small
           (env_of suite_a) 0%nat 4%nat suite_a rows
           (fun n => (n, Some (ThrownValue (JsText "late")))) (ThrownValue (JsText "late"))
           eq_refl eq_refl eq_refl eq_refl eq_refl eq_refl).
Defined.

Definition run_empty : World nat * Outcome Summary :=
  run elements ToString candidate args_small (env_of (suite_of [])) 0%nat.

Definition summary_empty : Summary := Eval vm_compute in summary_of run_empty.
Definition world_empty : World nat := Eval vm_compute in run_empty.1.

Lemma run_empty_returns : run_empty = (world_empty, Returned summary_empty).
Proof. vm_compute. reflexivity. Qed.

Lemma empty_suite_summary_witness :
  recall summary_empty = 100%float /\ precision summary_empty = 0%float
  /\ score summary_empty = 100%float /\ passRate summary_empty = 100%float
  /\ calls world_empty = [SetupCalled "/work/data/datasets/small/names.csv"; CleanupCalled].
Proof.
  destruct (empty_suite_summary elements ToString candidate args_small (env_of (suite_of []))
              0%nat world_empty summary_empty (suite_of []) run_empty_returns eq_refl eq_refl)
    as (_ & H1 & H2 & _ & _ & H5 & H6 & _ & _ & _ & _ & H11).
  exact (conj H1 (conj H2 (conj H5 (conj H6 H11)))).
Defined.

(** A suite whose first case lists an expected id twice. *)
Definition case_twice : TestCase := mkCase "c6" "q2" ["1"; "1"; "2"] [].

Definition suite_c : TestSuite := suite_of [case_twice; case1; case3].

Definition run_c : World nat * Outcome Summary :=
  run elements ToString candidate args_small (env_of suite_c) 0%nat.

Definition summary_c : Summary := Eval vm_compute in summary_of run_c.
Definition world_c : World nat := Eval vm_compute in run_c.1.

Lemma run_c_returns : run_c = (world_c, Returned summary_c).
Proof. vm_compute. reflexivity. Qed.

Example run_c_counters :
  expectedTotal (counters summary_c) = 6%nat /\ expectedHits (counters summary_c) = 4%nat
  /\ invalidIdCount (counters summary_c) = 1%nat.
Proof. repeat split. Qed.

Lemma recall_range_always_witness :
  (0 <=? recall summary_c)%float = true /\ (recall summary_c <=? 100)%float = true.
Proof.
  exact (recall_range_always elements ToString candidate args_small (env_of suite_c) 0%nat
           world_c summary_c run_c_returns ltac:(reflexivity)).
Defined.

Lemma score_range_witness :
  ((0 <=? score summary_a)%float = true /\ (score summary_a <=? 100)%float = true)
  /\ ((0 <=? score summary_c)%float = true /\ (score summary_c <=? 100)%float = true).
Proof.
  split.
  - exact (score_range elements ToString candidate args_small (env_of suite_a) 0%nat
             world_a summary_a run_a_returns ltac:(reflexivity)).
  - exact (score_range elements ToString candidate args_small (env_of suite_c) 0%nat
             world_c summary_c run_c_returns ltac:(reflexivity)).
Defined.

Lemma pass_rate_range_witness :
  (passCases (counters summary_a) <= 4)%nat
  /\ (0 <=? passRate summary_a)%float = true /\ (passRate summary_a <=? 100)%float = true.
Proof.
  exact (pass_rate_range elements ToString candidate args_small (env_of suite_a) 0%nat
           world_a summary_a suite_a run_a_returns eq_refl ltac:(reflexivity)).
Defined.

Lemma percentile_is_a_sample_witness :
  percentile [30; 10; 20]%float 0.5 ∈ [30; 10; 20]%float.
Proof.
  apply (percentile_is_a_sample [30; 10; 20]%float 0.5);
    [discriminate | reflexivity | reflexivity | reflexivity].
Defined.

(** *** Two orders of the same cases *)

Definition outcomes : list (TestCase * Observation JsValue) :=
  [ (case1, {| call := answer "q1"; elapsed := 10%float |});
    (case3, {| call := answer "q3"; elapsed := 30%float |}) ].

Definition outcomes_swapped : list (TestCase * Observation JsValue) :=
  [ (case3, {| call := answer "q3"; elapsed := 30%float |});
    (case1, {| call := answer "q1"; elapsed := 10%float |}) ].

Lemma case_order_irrelevant_witness :
  recall (OrderFacts.summary_of_cases elements ToString (index_rows rows) 2000 outcomes)
  = recall (OrderFacts.summary_of_cases elements ToString (index_rows rows) 2000
              outcomes_swapped)
  /\ score (OrderFacts.summary_of_cases elements ToString (index_rows rows) 2000 outcomes)
     = score (OrderFacts.summary_of_cases elements ToString (index_rows rows) 2000
                outcomes_swapped).
Proof.
  destruct (OrderFacts.case_order_irrelevant elements ToString (index_rows rows) 2000
              outcomes outcomes_swapped (perm_swap _ _ []))
    as (_ & H1 & _ & _ & _ & _ & H6 & _).
  exact (conj H1 H6).
Defined.

End MoreScenarios.

(** ** Scenarios for the inputs and the report *)

Module InputScenarios.

Import JsString JsNumber Scorer Runs Scenarios.
Import Csv CsvFacts Cli CliFacts Display DisplayFacts.

(** *** The dataset file *)

(** A name with a comma and quotes in it. *)
Definition countess : string :=
  "Ada " ++ String quote_char ("the Countess" ++ String quote_char ", Lovelace").

Definition ada : RecordRow := {| row_id := "17"; row_name := countess |}.
Definition bea : RecordRow := {| row_id := "18"; row_name := "Bea" |}.

Lemma parseCsvLine_first_comma_witness :
  parseCsvLine " 17 ,Lovelace, Ada " = Returned ("17", "Lovelace, Ada").
Proof.
  exact (parseCsvLine_first_comma " 17 " "Lovelace, Ada " eq_refl eq_refl).
Defined.

Lemma parseCsvLine_round_trip_witness :
  parseCsvLine (row_line ada) = Returned ("17", countess).
Proof.
  exact (parseCsvLine_round_trip "17" countess eq_refl eq_refl).
Defined.

(** A file with blank lines before the header, between the rows and at
    the end, and Windows line ends. *)
Definition names_csv : string :=
  unlines carriage_return_line_feed
    [""; "id,name"; "  "; row_line ada; ""; row_line bea; ""].

Lemma loadDataset_round_trip_witness :
  loadDataset (fun _ => Returned names_csv) "names.csv" = Returned [ada; bea].
Proof.
  apply (loadDataset_round_trip (fun _ => Returned names_csv) "names.csv"
           carriage_return_line_feed "id,name"
           [""; "id,name"; "  "; row_line ada; ""; row_line bea; ""] [ada; bea]).
  - by right.
  - repeat constructor.
  - reflexivity.
  - repeat constructor.
  - reflexivity.
Defined.

Definition broken_csv : string :=
  unlines line_feed ["id,name"; "17,Ada"; "18 Bea"; "19,Cy"].

Lemma loadDataset_malformed_row_witness :
  loadDataset (fun _ => Returned broken_csv) "names.csv" = Threw "Invalid CSV row: 18 Bea".
Proof.
  exact (loadDataset_malformed_row (fun _ => Returned broken_csv) "names.csv" broken_csv
           "id,name" "18 Bea" ["17,Ada"] ["19,Cy"] eq_refl eq_refl
           ltac:(repeat constructor) eq_refl).
Defined.

(** *** The command line *)

Lemma get_first_occurrence_witness :
  get ["--verbose"; "--suite"; "--dataset"; "large"; "--suite"; "mine.json"] "--suite"
  = Some "--dataset"
  /\ get ["--verbose"] "--suite" = None.
Proof.
  apply (get_first_occurrence ["--verbose"] ["--dataset"; "large"; "--suite"; "mine.json"]
           "--suite").
  apply not_elem_of_cons. split; [discriminate | apply not_elem_of_nil].
Defined.

Definition argv_verbose : list string := ["bun"; "score.ts"; "--verbose"].

Definition args_verbose : Args :=
  {| dataset := small; suitePath := "tests/public_small.json"; verbose := true;
     timeoutMs := 2000%Z |}.

Lemma not_in_argv_verbose (flag : string) :
  flag <> "--verbose" -> flag ∉ drop 2 argv_verbose.
Proof.
  intros Hne. apply not_elem_of_cons. split; [done | apply not_elem_of_nil].
Qed.

Lemma parseArgs_defaults_witness :
  dataset args_verbose = small
  /\ suitePath args_verbose = "tests/public_small.json"
  /\ timeoutMs args_verbose = 2000%Z.
Proof.
  destruct (parseArgs_defaults argv_verbose args_verbose eq_refl) as (H1 & H2 & H3 & _).
  exact (conj (H1 (not_in_argv_verbose "--dataset" ltac:(discriminate)))
           (conj (H2 (not_in_argv_verbose "--suite" ltac:(discriminate)))
              (H3 (not_in_argv_verbose "--timeout-ms" ltac:(discriminate))))).
Defined.

Definition argv_timeout : list string :=
  ["bun"; "score.ts"; "--timeout-ms"; "-5s"; "--dataset"; "large"].

Definition args_timeout : Args :=
  {| dataset := large; suitePath := "tests/public_large.json"; verbose := false;
     timeoutMs := (-5)%Z |}.

Lemma parseArgs_timeout_witness : timeoutMs args_timeout = (-5)%Z.
Proof.
  exact (proj2 (parseArgs_timeout argv_timeout args_timeout "-5s" eq_refl eq_refl)
           (-5)%Z eq_refl eq_refl).
Defined.

Example parseArgs_invalid_dataset :
  parseArgs ["bun"; "score.ts"; "--dataset"; "medium"] = Threw "Invalid --dataset: medium".
Proof. reflexivity. Qed.

(** A flag that is the last word has no value, and the default is used. *)
Example parseArgs_flag_last :
  parseArgs ["bun"; "score.ts"; "--verbose"; "--dataset"] = Returned args_verbose.
Proof. reflexivity. Qed.

(** *** The report *)

Example formatIdName_rows :
  let byId := index_rows [ {| row_id := "1"; row_name := "Ada" |};
                           {| row_id := "2"; row_name := "Bea" |};
                           {| row_id := "1"; row_name := "Ann" |} ] in
  formatIdName "1" byId = "[1] Ann" /\ formatIdName "2" byId = "[2] Bea"
  /\ formatIdName "3" byId = "[3] <unknown-id>".
Proof. vm_compute. repeat split. Qed.

Lemma painters_monotone_witness :
  (grade (scorePainter 70) <= grade (scorePainter 90))%nat
  /\ (grade (percentPainter 70) <= grade (percentPainter 90))%nat.
Proof. exact (painters_monotone 70 90 eq_refl). Defined.

(** *** The shipped submission *)

Definition run_shipped : World unit * Outcome Summary :=
  run elements ToString (Stub.submission (JsArray []) (fun _ => 1%float)) args_small
    (env_of suite_a) tt.

Definition summary_shipped : Summary :=
  Eval vm_compute in
    match run_shipped.2 with
    | Returned summary => summary
    | Threw _ => finalize Counters_init [] 0
    end.

Definition world_shipped : World unit := Eval vm_compute in run_shipped.1.

Lemma run_shipped_returns : run_shipped = (world_shipped, Returned summary_shipped).
Proof. vm_compute. reflexivity. Qed.

Lemma shipped_submission_score_witness :
  returnedTotal (counters summary_shipped) = 0%nat
  /\ passCases (counters summary_shipped) = 1%nat
  /\ recall summary_shipped = 0%float /\ score summary_shipped = 0%float.
Proof.
  destruct (Stub.shipped_submission_score elements ToString (JsArray []) eq_refl
              (fun _ => 1%float) args_small (env_of suite_a) world_shipped summary_shipped
              suite_a run_shipped_returns eq_refl)
    as (H1 & _ & _ & _ & _ & H6 & _ & _ & H9).
  destruct (H9 ltac:(split; reflexivity)) as [Hr Hs].
  exact (conj H1 (conj H6 (conj Hr Hs))).
Defined.

End InputScenarios.
